(** * ng-web-assembly: arena allocator, numeric kernels and worker pool

    A shallow embedding of
    - the WebAssembly module [computation.wat] (bump allocator, vector,
      matrix and statistics kernels),
    - [memory-manager.ts] ([WasmMemoryManager]),
    - the [WasmVector] / [WasmMatrix] views of [wasm-signal-engine.ts],
    - [worker-pool.service.ts] ([WasmWorkerPool]),
    followed by the properties established about them.

    Conventions.  A JavaScript [number] that holds an integer is a [Z]; a
    WebAssembly [i32] is a [Z] in [0, 2^32) with the wrap-around written
    out; an [f64] is a primitive binary64 [float].  A method that mutates
    [this] or may throw is a function from the state to a [Completion]
    that carries the state at the moment of the return or of the throw
    (JavaScript keeps the mutations made before an exception). *)

From Stdlib Require Import ZArith Lia Bool Floats Uint63.
From stdpp Require Import gmap strings list.

Local Open Scope Z_scope.

(** ** Errors and completions *)

(** [WasmErrorCode] of [types.ts]. *)
Inductive WasmErrorCode :=
| INIT_FAILED
| ALLOCATION_FAILED
| INVALID_POINTER
| OUT_OF_MEMORY
| COMPUTATION_FAILED
| WORKER_ERROR
| DISPOSED.

(** What a [throw] can carry here: a [WasmError] with its code (its
    message is a formatted string that no caller inspects), the
    [RangeError] / [TypeError] of the typed-array and [WebAssembly.Memory]
    APIs, the [WebAssembly.RuntimeError] of a trap, and a plain [Error] with
    its message.  [Unmodelled] is not an exception of the program: it marks
    a kernel call that the cell view of the memory does not describe (an
    access at an address that is not a multiple of 8). *)
Inductive JsError :=
| WasmError (code : WasmErrorCode)
| RangeError
| TypeError
| RuntimeError
| PlainError (message : string)
| Unmodelled.

Inductive Completion (S A : Type) :=
| Normal (a : A) (s : S)
| Throw (e : JsError) (s : S).
Arguments Normal {S A} a s.
Arguments Throw {S A} e s.

Definition M (S A : Type) : Type := S -> Completion S A.

Definition ret {S A} (a : A) : M S A := fun s => Normal a s.
Definition throw {S A} (e : JsError) : M S A := fun s => Throw e s.
Definition bind {S A B} (c : M S A) (k : A -> M S B) : M S B :=
  fun s => match c s with
           | Normal a s' => k a s'
           | Throw e s' => Throw e s'
           end.
Definition get {S} : M S S := fun s => Normal s s.
Definition modify {S} (f : S -> S) : M S unit := fun s => Normal tt (f s).

Notation "x <~ c ;; k" := (bind c (fun x => k))
  (at level 100, c at next level, right associativity).
Notation "c ;;; k" := (bind c (fun _ => k))
  (at level 100, right associativity).

Definition final_state {S A} (r : Completion S A) : S :=
  match r with Normal _ s => s | Throw _ s => s end.


(** ** The WebAssembly module [computation.wat] *)

Module Wat.

(** *** i32 arithmetic *)

Definition wrap32 (z : Z) : Z := z mod 2 ^ 32.

(** An i32 read as a signed number: what JavaScript sees of an i32 result. *)
Definition signed32 (z : Z) : Z := if z <? 2 ^ 31 then z else z - 2 ^ 32.

Definition i32_const (z : Z) : Z := wrap32 z.
Definition i32_add (a b : Z) : Z := wrap32 (a + b).
Definition i32_sub (a b : Z) : Z := wrap32 (a - b).
Definition i32_mul (a b : Z) : Z := wrap32 (a * b).
Definition i32_and (a b : Z) : Z := Z.land a b.
Definition i32_shl (a k : Z) : Z := wrap32 (Z.shiftl a k).
Definition i32_ge_u (a b : Z) : bool := b <=? a.
Definition i32_eqz (a : Z) : bool := a =? 0.

(** *** Linear memory

    [(memory (export "memory") 256 512)]: a page is 64 KiB.  The kernels
    only issue [f64.load] / [f64.store]; the contents are kept as 8-byte
    cells indexed by their byte address, zero-initialised.  The cell view is
    exact for addresses that are multiples of 8 (the only ones the allocator
    hands out): an access at another address is reported as [Misaligned],
    outside what this model describes, rather than given a made-up value.
    [mem_gen] counts the [grow] calls: growing detaches the [ArrayBuffer]
    JavaScript holds, so a typed-array view remembers the generation it was
    created in. *)

Definition PAGE_SIZE : Z := 65536.

Record Memory := {
  mem_pages : Z;
  mem_max : Z;
  mem_gen : nat;
  mem_cells : gmap Z float;
}.

Definition byteLength (m : Memory) : Z := mem_pages m * PAGE_SIZE.

Inductive FaultKind := Trap | Misaligned.

(** The outcome of running kernel code: a value, or a fault together with
    the memory as it was when the fault occurred (a trap does not undo the
    stores made before it). *)
Inductive Exec (A : Type) :=
| Done (a : A)
| Fault (f : FaultKind) (m : Memory).
Arguments Done {A} a.
Arguments Fault {A} f m.

Definition ebind {A B} (c : Exec A) (k : A -> Exec B) : Exec B :=
  match c with Fault f m => Fault f m | Done a => k a end.

Definition check_access (m : Memory) (addr : Z) : Exec unit :=
  if byteLength m <? addr + 8 then Fault Trap m
  else if addr mod 8 =? 0 then Done tt else Fault Misaligned m.

Definition cell (m : Memory) (addr : Z) : float :=
  default 0%float (mem_cells m !! addr).

Definition f64_load (m : Memory) (addr : Z) : Exec float :=
  ebind (check_access m addr) (fun _ => Done (cell m addr)).

Definition set_cell (m : Memory) (addr : Z) (v : float) : Memory :=
  {| mem_pages := mem_pages m; mem_max := mem_max m; mem_gen := mem_gen m;
     mem_cells := <[addr := v]> (mem_cells m) |}.

Definition f64_store (m : Memory) (addr : Z) (v : float) : Exec Memory :=
  ebind (check_access m addr) (fun _ => Done (set_cell m addr v)).

(** *** Instance state: the globals and the memory *)

Record Instance := {
  heap_ptr : Z;
  stack_ptr : Z;
  memory : Memory;
}.

Definition instantiate : Instance :=
  {| heap_ptr := 65536; stack_ptr := 65536;
     memory := {| mem_pages := 256; mem_max := 512; mem_gen := 0;
                  mem_cells := ∅ |} |}.

Definition set_heap_ptr (p : Z) (w : Instance) : Instance :=
  {| heap_ptr := p; stack_ptr := stack_ptr w; memory := memory w |}.

Definition set_memory (m : Memory) (w : Instance) : Instance :=
  {| heap_ptr := heap_ptr w; stack_ptr := stack_ptr w; memory := m |}.

(** [(func (export "allocate") (param $size i32) (result i32)]: the bump
    allocator.  The size is rounded up to a multiple of 8, the heap pointer
    advances by that much, the old heap pointer is returned. *)
Definition allocate (size : Z) (w : Instance) : Z * Instance :=
  let aligned_size := i32_and (i32_add size (i32_const 7)) (i32_const (-8)) in
  let ptr := heap_ptr w in
  (ptr, set_heap_ptr (i32_add (heap_ptr w) aligned_size) w).

Definition reset_heap (w : Instance) : Instance :=
  set_heap_ptr (i32_const 65536) w.

Definition get_heap_usage (w : Instance) : Z :=
  i32_sub (heap_ptr w) (i32_const 65536).

(** *** Kernels

    Every kernel loop has the shape
    [i = 0; loop { br_if (i >=u len) exit; body; i = i + 1 }]: its body runs
    for [i = 0, 1, ..., len - 1].  The recursion below is on the number of
    iterations left, with the i32 index and the address arithmetic
    threaded through as the code has them.  A kernel ends in a value or in a
    [Fault] (an out-of-bounds access traps). *)

Notation "x <- c ;;; k" := (ebind c (fun x => k))
  (at level 100, c at next level, right associativity).

Definition f64_convert_i32_u (n : Z) : float :=
  PrimFloat.of_uint63 (Uint63.of_Z n).

Definition f64_gt (a b : float) : bool := PrimFloat.ltb b a.

(** [vec_magnitude] and [$vec_magnitude_internal] (the same body twice). *)
Fixpoint magnitude_loop (m : Memory) (ptr : Z) (left : nat) (i : Z)
  (sum : float) : Exec float :=
  match left with
  | O => Done sum
  | S left' =>
      let offset := i32_shl i 3 in
      val <- f64_load m (i32_add ptr offset) ;;;
      magnitude_loop m ptr left' (i32_add i (i32_const 1))
        (PrimFloat.add sum (PrimFloat.mul val val))
  end.

Definition vec_magnitude (ptr len : Z) (m : Memory) : Exec float :=
  sum <- magnitude_loop m ptr (Z.to_nat len) (i32_const 0) 0%float ;;;
  Done (PrimFloat.sqrt sum).

Definition vec_magnitude_internal (ptr len : Z) (m : Memory) : Exec float :=
  sum <- magnitude_loop m ptr (Z.to_nat len) (i32_const 0) 0%float ;;;
  Done (PrimFloat.sqrt sum).

(** [vec_normalize]: in place, skipped when the magnitude is not above
    0.0000001 (the double nearest to it, written in hexadecimal). *)
Fixpoint normalize_loop (m : Memory) (ptr : Z) (mag : float) (left : nat)
  (i : Z) : Exec Memory :=
  match left with
  | O => Done m
  | S left' =>
      let offset := i32_shl i 3 in
      val <- f64_load m (i32_add ptr offset) ;;;
      m' <- f64_store m (i32_add ptr offset) (PrimFloat.div val mag) ;;;
      normalize_loop m' ptr mag left' (i32_add i (i32_const 1))
  end.

Definition vec_normalize (ptr len : Z) (m : Memory) : Exec Memory :=
  mag <- vec_magnitude_internal ptr len m ;;;
  if f64_gt mag 0x1.ad7f29abcaf48p-24%float
  then normalize_loop m ptr mag (Z.to_nat len) (i32_const 0)
  else Done m.

(** [vec_add]: [result[i] = a[i] + b[i]]. *)
Fixpoint add_loop (m : Memory) (a_ptr b_ptr result_ptr : Z) (left : nat)
  (i : Z) : Exec Memory :=
  match left with
  | O => Done m
  | S left' =>
      let offset := i32_shl i 3 in
      a <- f64_load m (i32_add a_ptr offset) ;;;
      b <- f64_load m (i32_add b_ptr offset) ;;;
      m' <- f64_store m (i32_add result_ptr offset) (PrimFloat.add a b) ;;;
      add_loop m' a_ptr b_ptr result_ptr left' (i32_add i (i32_const 1))
  end.

Definition vec_add (a_ptr b_ptr result_ptr len : Z) (m : Memory) : Exec Memory :=
  add_loop m a_ptr b_ptr result_ptr (Z.to_nat len) (i32_const 0).

(** [vec_scale]: [result[i] = v[i] * scalar]. *)
Fixpoint scale_loop (m : Memory) (v_ptr result_ptr : Z) (scalar : float)
  (left : nat) (i : Z) : Exec Memory :=
  match left with
  | O => Done m
  | S left' =>
      let offset := i32_shl i 3 in
      v <- f64_load m (i32_add v_ptr offset) ;;;
      m' <- f64_store m (i32_add result_ptr offset) (PrimFloat.mul v scalar) ;;;
      scale_loop m' v_ptr result_ptr scalar left' (i32_add i (i32_const 1))
  end.

Definition vec_scale (v_ptr result_ptr len : Z) (scalar : float) (m : Memory)
  : Exec Memory :=
  scale_loop m v_ptr result_ptr scalar (Z.to_nat len) (i32_const 0).

(** [mat_transpose]: [A[i][j] -> B[j][i]], row-major, [A] of [rows] by
    [cols]. *)
Fixpoint transpose_row (m : Memory) (a_ptr b_ptr rows cols i : Z) (left : nat)
  (j : Z) : Exec Memory :=
  match left with
  | O => Done m
  | S left' =>
      let a_offset := i32_shl (i32_add (i32_mul i cols) j) 3 in
      let b_offset := i32_shl (i32_add (i32_mul j rows) i) 3 in
      v <- f64_load m (i32_add a_ptr a_offset) ;;;
      m' <- f64_store m (i32_add b_ptr b_offset) v ;;;
      transpose_row m' a_ptr b_ptr rows cols i left' (i32_add j (i32_const 1))
  end.

Fixpoint transpose_rows (m : Memory) (a_ptr b_ptr rows cols : Z) (left : nat)
  (i : Z) : Exec Memory :=
  match left with
  | O => Done m
  | S left' =>
      m' <- transpose_row m a_ptr b_ptr rows cols i (Z.to_nat cols) (i32_const 0) ;;;
      transpose_rows m' a_ptr b_ptr rows cols left' (i32_add i (i32_const 1))
  end.

Definition mat_transpose (a_ptr b_ptr rows cols : Z) (m : Memory) : Exec Memory :=
  transpose_rows m a_ptr b_ptr rows cols (Z.to_nat rows) (i32_const 0).

Definition mat_frobenius_norm (ptr size : Z) (m : Memory) : Exec float :=
  vec_magnitude_internal ptr size m.

(** [stats_mean] and [$stats_mean_internal] (the same body twice). *)
Fixpoint sum_loop (m : Memory) (ptr : Z) (left : nat) (i : Z) (sum : float)
  : Exec float :=
  match left with
  | O => Done sum
  | S left' =>
      let offset := i32_shl i 3 in
      v <- f64_load m (i32_add ptr offset) ;;;
      sum_loop m ptr left' (i32_add i (i32_const 1)) (PrimFloat.add sum v)
  end.

Definition stats_mean (ptr len : Z) (m : Memory) : Exec float :=
  if i32_eqz len then Done 0%float
  else
    sum <- sum_loop m ptr (Z.to_nat len) (i32_const 0) 0%float ;;;
    Done (PrimFloat.div sum (f64_convert_i32_u len)).






(** *** The other exported kernels *)

Definition i32_div_u (a b : Z) : Z := a / b.
Definition i32_ge_s (a b : Z) : bool := signed32 b <=? signed32 a.
Definition i32_lt_u (a b : Z) : bool := a <? b.

(** [vec_dot]: [sum(a[i] * b[i])]. *)
Fixpoint dot_loop (m : Memory) (a_ptr b_ptr : Z) (left : nat) (i : Z)
  (sum : float) : Exec float :=
  match left with
  | O => Done sum
  | S left' =>
      let offset := i32_shl i 3 in
      a <- f64_load m (i32_add a_ptr offset) ;;;
      b <- f64_load m (i32_add b_ptr offset) ;;;
      dot_loop m a_ptr b_ptr left' (i32_add i (i32_const 1))
        (PrimFloat.add sum (PrimFloat.mul a b))
  end.

Definition vec_dot (a_ptr b_ptr len : Z) (m : Memory) : Exec float :=
  dot_loop m a_ptr b_ptr (Z.to_nat len) (i32_const 0) 0%float.

(** [mat_multiply]: [C = A * B], row-major, [A] of [m] by [k], [B] of [k]
    by [n].  The innermost loop accumulates [A[i][l] * B[l][j]] over [l]. *)
Fixpoint multiply_dot (mem : Memory) (a_ptr b_ptr k n i j : Z) (left : nat)
  (l : Z) (sum : float) : Exec float :=
  match left with
  | O => Done sum
  | S left' =>
      let a_offset := i32_shl (i32_add (i32_mul i k) l) 3 in
      let b_offset := i32_shl (i32_add (i32_mul l n) j) 3 in
      a <- f64_load mem (i32_add a_ptr a_offset) ;;;
      b <- f64_load mem (i32_add b_ptr b_offset) ;;;
      multiply_dot mem a_ptr b_ptr k n i j left' (i32_add l (i32_const 1))
        (PrimFloat.add sum (PrimFloat.mul a b))
  end.

Fixpoint multiply_row (mem : Memory) (a_ptr b_ptr c_ptr k n i : Z) (left : nat)
  (j : Z) : Exec Memory :=
  match left with
  | O => Done mem
  | S left' =>
      sum <- multiply_dot mem a_ptr b_ptr k n i j (Z.to_nat k) (i32_const 0) 0%float ;;;
      let c_offset := i32_shl (i32_add (i32_mul i n) j) 3 in
      mem' <- f64_store mem (i32_add c_ptr c_offset) sum ;;;
      multiply_row mem' a_ptr b_ptr c_ptr k n i left' (i32_add j (i32_const 1))
  end.

Fixpoint multiply_rows (mem : Memory) (a_ptr b_ptr c_ptr k n : Z) (left : nat)
  (i : Z) : Exec Memory :=
  match left with
  | O => Done mem
  | S left' =>
      mem' <- multiply_row mem a_ptr b_ptr c_ptr k n i (Z.to_nat n) (i32_const 0) ;;;
      multiply_rows mem' a_ptr b_ptr c_ptr k n left' (i32_add i (i32_const 1))
  end.

Definition mat_multiply (a_ptr b_ptr c_ptr m k n : Z) (mem : Memory)
  : Exec Memory :=
  multiply_rows mem a_ptr b_ptr c_ptr k n (Z.to_nat m) (i32_const 0).

(** [signal_convolve]: [output[i]] sums [input[i + kernel_len / 2 - j] *
    kernel[j]] over the [j] whose input index passes the bounds check. *)
Fixpoint convolve_dot (m : Memory) (input_ptr kernel_ptr input_len kernel_len i : Z)
  (left : nat) (j : Z) (sum : float) : Exec float :=
  match left with
  | O => Done sum
  | S left' =>
      let input_idx :=
        i32_sub (i32_add i (i32_div_u kernel_len (i32_const 2))) j in
      sum' <- (if i32_ge_s input_idx (i32_const 0) && i32_lt_u input_idx input_len
               then
                 let input_offset := i32_shl input_idx 3 in
                 let kernel_offset := i32_shl j 3 in
                 x <- f64_load m (i32_add input_ptr input_offset) ;;;
                 k <- f64_load m (i32_add kernel_ptr kernel_offset) ;;;
                 Done (PrimFloat.add sum (PrimFloat.mul x k))
               else Done sum) ;;;
      convolve_dot m input_ptr kernel_ptr input_len kernel_len i left'
        (i32_add j (i32_const 1)) sum'
  end.

Fixpoint convolve_loop (m : Memory)
  (input_ptr kernel_ptr output_ptr input_len kernel_len : Z) (left : nat)
  (i : Z) : Exec Memory :=
  match left with
  | O => Done m
  | S left' =>
      sum <- convolve_dot m input_ptr kernel_ptr input_len kernel_len i
               (Z.to_nat kernel_len) (i32_const 0) 0%float ;;;
      let output_offset := i32_shl i 3 in
      m' <- f64_store m (i32_add output_ptr output_offset) sum ;;;
      convolve_loop m' input_ptr kernel_ptr output_ptr input_len kernel_len left'
        (i32_add i (i32_const 1))
  end.

Definition signal_convolve
  (input_ptr kernel_ptr output_ptr input_len kernel_len : Z) (m : Memory)
  : Exec Memory :=
  convolve_loop m input_ptr kernel_ptr output_ptr input_len kernel_len
    (Z.to_nat input_len) (i32_const 0).

(** [process_chunk_sum]: the loop of [stats_mean], from [start] up to
    [end]; it does not run when [start >= end]. *)
Definition process_chunk_sum (ptr start end_ : Z) (m : Memory) : Exec float :=
  sum_loop m ptr (Z.to_nat (end_ - start)) start 0%float.

(** [mem_fill_f64] *)
Fixpoint fill_loop (m : Memory) (ptr : Z) (value : float) (left : nat) (i : Z)
  : Exec Memory :=
  match left with
  | O => Done m
  | S left' =>
      let offset := i32_shl i 3 in
      m' <- f64_store m (i32_add ptr offset) value ;;;
      fill_loop m' ptr value left' (i32_add i (i32_const 1))
  end.

Definition mem_fill_f64 (ptr len : Z) (value : float) (m : Memory) : Exec Memory :=
  fill_loop m ptr value (Z.to_nat len) (i32_const 0).

End Wat.

(** ** The JavaScript side of the instance ([WasmExports], [types.ts]) *)

(** [WebAssembly.Memory.prototype.grow]: adds [delta] pages and detaches
    the previous [ArrayBuffer]; a [RangeError] when the declared maximum
    would be passed (the host is taken to have the memory to give). *)
Definition memory_grow (delta : Z) (m : Wat.Memory) : option Wat.Memory :=
  if (delta <? 0) || (Wat.mem_max m <? Wat.mem_pages m + delta) then None
  else Some {| Wat.mem_pages := Wat.mem_pages m + delta;
               Wat.mem_max := Wat.mem_max m;
               Wat.mem_gen := S (Wat.mem_gen m);
               Wat.mem_cells := Wat.mem_cells m |}.

(** Calling an export from JavaScript: a number argument becomes an i32 by
    [ToInt32], an i32 result comes back as a signed number. *)
Definition js_allocate (size : Z) (w : Wat.Instance) : Z * Wat.Instance :=
  let '(p, w') := Wat.allocate (Wat.wrap32 size) w in (Wat.signed32 p, w').

Definition js_get_heap_usage (w : Wat.Instance) : Z :=
  Wat.signed32 (Wat.get_heap_usage w).

(** The typed-array constructors of the [TypedArray] union. *)
Inductive TypedArrayConstructor :=
| Float64Array | Float32Array | Int32Array | Uint8Array | Uint32Array.

Definition BYTES_PER_ELEMENT (C : TypedArrayConstructor) : Z :=
  match C with
  | Float64Array => 8
  | Float32Array => 4
  | Int32Array => 4
  | Uint8Array => 1
  | Uint32Array => 4
  end.

Inductive ElemType := f64 | f32 | i32 | i64 | u8.

(** A typed-array view: the buffer it was created on (by generation), its
    byte offset and its length in elements. *)
Record View := {
  view_ctor : TypedArrayConstructor;
  view_gen : nat;
  byteOffset : Z;
  view_length : Z;
}.

(** [new Constructor(buffer, byteOffset, length)]: a [RangeError] ([None])
    for a negative or misaligned offset, a negative length, or a range that
    leaves the buffer. *)
Definition new_view (C : TypedArrayConstructor) (m : Wat.Memory)
  (offset len : Z) : option View :=
  if (offset <? 0) || (len <? 0)
     || negb (offset mod BYTES_PER_ELEMENT C =? 0)
     || (Wat.byteLength m <? offset + len * BYTES_PER_ELEMENT C)
  then None
  else Some {| view_ctor := C; view_gen := Wat.mem_gen m;
               byteOffset := offset; view_length := len |}.

Module MemoryBlock.
Record t := mk {
  ptr : Z;
  size : Z;
  type : ElemType;
  label : option string;
  createdAt : Z;
}.
End MemoryBlock.
Abbreviation MemoryBlock := MemoryBlock.t.

Record MemoryPoolConfig := {
  initialPages : Z;
  maxPages : Z;
  enableTracking : bool;
  autoGrow : bool;
}.

(** [Partial<MemoryPoolConfig>]. *)
Record PartialConfig := {
  initialPages_opt : option Z;
  maxPages_opt : option Z;
  enableTracking_opt : option bool;
  autoGrow_opt : option bool;
}.

Record WasmMetrics := {
  totalAllocations : Z;
  totalDeallocations : Z;
  peakMemoryUsage : Z;
  currentMemoryUsage : Z;
  totalComputeTimeMs : float;
  operationCounts : gmap string Z;
}.

Module WasmBackedArray.
(** [{ ptr, length, view, dispose }].  The [dispose] closure is
    [() => this.deallocate(ptr)] over the same [ptr]; it is the function
    [MemoryManager.dispose] below. *)
Record t := mk {
  ptr : Z;
  length : Z;
  view : View;
}.
End WasmBackedArray.
Abbreviation WasmBackedArray := WasmBackedArray.t.

(** ** [memory-manager.ts] *)

Module MemoryManager.

Definition DEFAULT_CONFIG : MemoryPoolConfig :=
  {| initialPages := 256; maxPages := 16384;
     enableTracking := true; autoGrow := true |}.

Definition BYTES_PER_PAGE : Z := 65536.
Definition RESERVED_BYTES : Z := 65536.

(** The fields of the class.  [wasm] tells whether [this.wasm] is set; the
    instance it refers to is the one of the [World], which the engine and
    the views share with the manager. *)
Record WasmMemoryManager := {
  wasm : bool;
  config : MemoryPoolConfig;
  allocations : gmap Z MemoryBlock;
  freeList : list MemoryBlock;
  _metrics : WasmMetrics;
}.

Record World := {
  instance : Wat.Instance;
  manager : WasmMemoryManager;
}.

Definition zero_metrics : WasmMetrics :=
  {| totalAllocations := 0; totalDeallocations := 0; peakMemoryUsage := 0;
     currentMemoryUsage := 0; totalComputeTimeMs := 0%float;
     operationCounts := ∅ |}.

(** The state of the field initialisers, before [initialize]. *)
Definition new_manager : WasmMemoryManager :=
  {| wasm := false; config := DEFAULT_CONFIG; allocations := ∅;
     freeList := []; _metrics := zero_metrics |}.

Definition set_instance (i : Wat.Instance) (w : World) : World :=
  {| instance := i; manager := manager w |}.

Definition set_manager (m : WasmMemoryManager) (w : World) : World :=
  {| instance := instance w; manager := m |}.

Definition set_allocations (a : gmap Z MemoryBlock) (m : WasmMemoryManager)
  : WasmMemoryManager :=
  {| wasm := wasm m; config := config m; allocations := a;
     freeList := freeList m; _metrics := _metrics m |}.

Definition set_freeList (l : list MemoryBlock) (m : WasmMemoryManager)
  : WasmMemoryManager :=
  {| wasm := wasm m; config := config m; allocations := allocations m;
     freeList := l; _metrics := _metrics m |}.

Definition set_metrics (x : WasmMetrics) (m : WasmMemoryManager)
  : WasmMemoryManager :=
  {| wasm := wasm m; config := config m; allocations := allocations m;
     freeList := freeList m; _metrics := x |}.

(** [{ ...DEFAULT_CONFIG, ...config }] *)
Definition merge_config (c : option PartialConfig) : MemoryPoolConfig :=
  match c with
  | None => DEFAULT_CONFIG
  | Some p =>
      {| initialPages := default (initialPages DEFAULT_CONFIG) (initialPages_opt p);
         maxPages := default (maxPages DEFAULT_CONFIG) (maxPages_opt p);
         enableTracking := default (enableTracking DEFAULT_CONFIG) (enableTracking_opt p);
         autoGrow := default (autoGrow DEFAULT_CONFIG) (autoGrow_opt p) |}
  end.

Definition resetMetrics (m : WasmMemoryManager) : WasmMemoryManager :=
  set_metrics zero_metrics m.

Definition initialize (i : Wat.Instance) (c : option PartialConfig)
  (w : World) : World :=
  {| instance := i;
     manager := resetMetrics
                  {| wasm := true; config := merge_config c;
                     allocations := ∅; freeList := [];
                     _metrics := _metrics (manager w) |} |}.

Definition getWasm : M World Wat.Instance := fun w =>
  if wasm (manager w) then Normal (instance w) w
  else Throw (WasmError INIT_FAILED) w.

Inductive MetricsOp := op_allocate | op_deallocate | op_reset.

Definition updateMetrics (operation : MetricsOp) (bytes : Z)
  (m : WasmMemoryManager) : WasmMemoryManager :=
  if negb (enableTracking (config m)) then m
  else
    let old := _metrics m in
    set_metrics
      match operation with
      | op_allocate =>
          let current := currentMemoryUsage old + bytes in
          {| totalAllocations := totalAllocations old + 1;
             totalDeallocations := totalDeallocations old;
             peakMemoryUsage := Z.max (peakMemoryUsage old) current;
             currentMemoryUsage := current;
             totalComputeTimeMs := totalComputeTimeMs old;
             operationCounts := operationCounts old |}
      | op_deallocate =>
          {| totalAllocations := totalAllocations old;
             totalDeallocations := totalDeallocations old + 1;
             peakMemoryUsage := peakMemoryUsage old;
             currentMemoryUsage := Z.max 0 (currentMemoryUsage old - bytes);
             totalComputeTimeMs := totalComputeTimeMs old;
             operationCounts := operationCounts old |}
      | op_reset =>
          {| totalAllocations := totalAllocations old;
             totalDeallocations := totalDeallocations old;
             peakMemoryUsage := peakMemoryUsage old;
             currentMemoryUsage := 0;
             totalComputeTimeMs := totalComputeTimeMs old;
             operationCounts := operationCounts old |}
      end m.

Definition trackComputation (operation : string) (timeMs : float)
  (m : WasmMemoryManager) : WasmMemoryManager :=
  if negb (enableTracking (config m)) then m
  else
    let old := _metrics m in
    set_metrics
      {| totalAllocations := totalAllocations old;
         totalDeallocations := totalDeallocations old;
         peakMemoryUsage := peakMemoryUsage old;
         currentMemoryUsage := currentMemoryUsage old;
         totalComputeTimeMs := (totalComputeTimeMs old + timeMs)%float;
         operationCounts :=
           <[operation := default 0 (operationCounts old !! operation) + 1]>
             (operationCounts old) |} m.

(** The scan of [findFreeBlock]: [bestIndex] starts at [-1], [bestSize] at
    [Infinity] ([None]); a block replaces the best one only when it is
    strictly smaller. *)
Definition below (x : Z) (bound : option Z) : bool :=
  match bound with None => true | Some b => x <? b end.

Fixpoint scan (bytesNeeded : Z) (blocks : list MemoryBlock) (i : Z)
  (bestIndex : Z) (bestSize : option Z) : Z :=
  match blocks with
  | [] => bestIndex
  | block :: rest =>
      if (bytesNeeded <=? MemoryBlock.size block)
         && below (MemoryBlock.size block) bestSize
      then scan bytesNeeded rest (i + 1) i (Some (MemoryBlock.size block))
      else scan bytesNeeded rest (i + 1) bestIndex bestSize
  end.

(** [findFreeBlock]: the best index, if any, is spliced out of the free
    list and its [ptr] returned; [-1] otherwise.  ([scan] only returns
    [-1] or an index of the list, see [scan_range].) *)
Definition findFreeBlock (bytesNeeded : Z) (m : WasmMemoryManager)
  : Z * WasmMemoryManager :=
  let bestIndex := scan bytesNeeded (freeList m) 0 (-1) None in
  if negb (bestIndex =? -1) then
    match freeList m !! Z.to_nat bestIndex with
    | Some block =>
        (MemoryBlock.ptr block,
         set_freeList (delete (Z.to_nat bestIndex) (freeList m)) m)
    | None => (-1, m)
    end
  else (-1, m).

(** [Math.ceil(a / b)] for integers [a] and [b > 0]. *)
Definition ceil_div (a b : Z) : Z := - ((- a) / b).

Definition ensureCapacity (bytesNeeded : Z) : M World unit :=
  inst <~ getWasm ;;
  fun w =>
  let currentBytes := Wat.byteLength (Wat.memory inst) in
  let heapUsage := js_get_heap_usage inst in
  let availableBytes := currentBytes - heapUsage - RESERVED_BYTES in
  if availableBytes <? bytesNeeded then
    if negb (autoGrow (config (manager w))) then
      Throw (WasmError OUT_OF_MEMORY) w
    else
      let additionalPages := ceil_div (bytesNeeded - availableBytes) BYTES_PER_PAGE in
      let currentPages := currentBytes / BYTES_PER_PAGE in
      if maxPages (config (manager w)) <? currentPages + additionalPages then
        Throw (WasmError OUT_OF_MEMORY) w
      else
        match memory_grow additionalPages (Wat.memory inst) with
        | Some mem' => Normal tt (set_instance (Wat.set_memory mem' inst) w)
        | None => Throw RangeError w
        end
  else Normal tt w.

Definition getTypeFromConstructor (C : TypedArrayConstructor) : ElemType :=
  match C with
  | Float64Array => f64
  | Float32Array => f32
  | Int32Array => i32
  | Uint8Array => u8
  | Uint32Array => u8
  end.

(** [allocate(Constructor, length, label)]; [now] is what [Date.now()]
    returns during the call. *)
Definition allocate (C : TypedArrayConstructor) (length : Z)
  (label : option string) (now : Z) : M World WasmBackedArray :=
  _ <~ getWasm ;;
  let bytesNeeded := length * BYTES_PER_ELEMENT C in
  ptr <~ (fun w =>
            let '(ptr, m') := findFreeBlock bytesNeeded (manager w) in
            Normal ptr (set_manager m' w)) ;;
  ptr <~ (if ptr =? -1 then
            ensureCapacity bytesNeeded ;;;
            ptr <~ (fun w =>
                      let '(p, i') := js_allocate bytesNeeded (instance w) in
                      Normal p (set_instance i' w)) ;;
            if (ptr =? 0) && (0 <? bytesNeeded)
            then throw (WasmError ALLOCATION_FAILED)
            else ret ptr
          else ret ptr) ;;
  view <~ (fun w =>
             match new_view C (Wat.memory (instance w)) ptr length with
             | Some v => Normal v w
             | None => Throw RangeError w
             end) ;;
  let block := MemoryBlock.mk ptr bytesNeeded (getTypeFromConstructor C) label now in
  modify (fun w =>
            set_manager
              (updateMetrics op_allocate bytesNeeded
                 (set_allocations (<[ptr := block]> (allocations (manager w)))
                    (manager w))) w) ;;;
  ret (WasmBackedArray.mk ptr length view).

Definition allocateFloat64 (length : Z) (label : option string) (now : Z)
  : M World WasmBackedArray :=
  allocate Float64Array length label now.

(** [deallocate(ptr)]: the second component tells whether the
    unknown-pointer warning was logged. *)
Definition deallocate (ptr : Z) (m : WasmMemoryManager)
  : WasmMemoryManager * bool :=
  match allocations m !! ptr with
  | None => (m, true)
  | Some block =>
      (updateMetrics op_deallocate (MemoryBlock.size block)
         (set_allocations (delete ptr (allocations m))
            (set_freeList (freeList m ++ [block]) m)),
       false)
  end.

(** The [dispose] closure of the array [allocate] returns. *)
Definition dispose (a : WasmBackedArray) (w : World) : World :=
  set_manager (fst (deallocate (WasmBackedArray.ptr a) (manager w))) w.

Definition reset : M World unit :=
  inst <~ getWasm ;;
  modify (fun w =>
            {| instance := Wat.reset_heap inst;
               manager := updateMetrics op_reset 0
                            (set_freeList []
                               (set_allocations ∅ (manager w))) |}).

(** [validatePointer(ptr, size)] *)
Definition validatePointer (ptr size : Z) : M World unit :=
  inst <~ getWasm ;;
  let maxValid := Wat.byteLength (Wat.memory inst) in
  if (ptr <? 0) || (maxValid <? ptr + size)
  then throw (WasmError INVALID_POINTER)
  else ret tt.

(** [getView(Constructor, ptr, length)] *)
Definition getView (C : TypedArrayConstructor) (ptr length : Z) : M World View :=
  inst <~ getWasm ;;
  validatePointer ptr (length * BYTES_PER_ELEMENT C) ;;;
  match new_view C (Wat.memory inst) ptr length with
  | Some v => ret v
  | None => throw RangeError
  end.

(** [getStats()] *)
Module Stats.
Record t := mk {
  totalBytes : Z;
  usedBytes : Z;
  freeBytes : Z;
  allocations : Z;
  freeBlocks : Z;
}.
End Stats.

Definition getStats : M World Stats.t :=
  inst <~ getWasm ;;
  fun w =>
    let totalBytes := Wat.byteLength (Wat.memory inst) in
    let usedBytes := js_get_heap_usage inst in
    Normal
      {| Stats.totalBytes := totalBytes;
         Stats.usedBytes := usedBytes;
         Stats.freeBytes := totalBytes - usedBytes - RESERVED_BYTES;
         Stats.allocations := Z.of_nat (size (allocations (manager w)));
         Stats.freeBlocks := Z.of_nat (length (freeList (manager w))) |} w.

End MemoryManager.

(** ** [wasm-signal-engine.ts]: the views *)

(** *** [Float64Array] views over the instance memory

    A view is usable while the buffer it was created on is the current one
    ([view_gen] is the memory's generation).  On a detached view, reading an
    element gives [undefined] ([None]), writing one is ignored, and [set],
    [fill] and [slice] throw a [TypeError]. *)

Definition attached (v : View) (m : Wat.Memory) : bool :=
  Nat.eqb (view_gen v) (Wat.mem_gen m).

Definition in_view (v : View) (index : Z) : bool :=
  (0 <=? index) && (index <? view_length v).

(** [view[index]] *)
Definition view_get (v : View) (index : Z) (m : Wat.Memory) : option float :=
  if attached v m && in_view v index
  then Some (Wat.cell m (byteOffset v + 8 * index))
  else None.

(** [view[index] = value] *)
Definition view_put (v : View) (index : Z) (value : float) (m : Wat.Memory)
  : Wat.Memory :=
  if attached v m && in_view v index
  then Wat.set_cell m (byteOffset v + 8 * index) value
  else m.

Fixpoint write_cells (m : Wat.Memory) (addr : Z) (data : list float)
  : Wat.Memory :=
  match data with
  | [] => m
  | x :: rest => write_cells (Wat.set_cell m addr x) (addr + 8) rest
  end.

Fixpoint read_cells (m : Wat.Memory) (addr : Z) (n : nat) : list float :=
  match n with
  | O => []
  | S n' => Wat.cell m addr :: read_cells m (addr + 8) n'
  end.

(** [view.set(data)] *)
Definition view_set (v : View) (data : list float) (m : Wat.Memory)
  : JsError + Wat.Memory :=
  if negb (attached v m) then inl TypeError
  else if view_length v <? Z.of_nat (length data) then inl RangeError
  else inr (write_cells m (byteOffset v) data).

(** [view.fill(value)] *)
Definition view_fill (v : View) (value : float) (m : Wat.Memory)
  : JsError + Wat.Memory :=
  if negb (attached v m) then inl TypeError
  else inr (write_cells m (byteOffset v)
              (replicate (Z.to_nat (view_length v)) value)).

(** [view.slice(start, end)]: an index below 0 counts from the end of the
    view, and both are clipped to the view; nothing is copied when the end
    does not lie after the start. *)
Definition slice_index (len index : Z) : Z :=
  if index <? 0 then Z.max (len + index) 0 else Z.min index len.

Definition view_slice (v : View) (start stop : Z) (m : Wat.Memory)
  : JsError + list float :=
  if negb (attached v m) then inl TypeError
  else
    let k := slice_index (view_length v) start in
    let final := slice_index (view_length v) stop in
    inr (read_cells m (byteOffset v + 8 * k) (Z.to_nat (final - k))).

(** *** The methods of [WasmMemoryManager] that copy through a view *)

Module Copy.
Import MemoryManager.

(** [allocateFrom], [copyToJS] and [copyFromJS] for a [Float64Array]: the
    typed array [data] is the list of its elements.  [view.slice()] copies
    the whole view. *)
Definition allocateFrom (data : list float) (label : option string) (now : Z)
  : M World WasmBackedArray :=
  allocated <~ allocate Float64Array (Z.of_nat (length data)) label now ;;
  (fun w =>
     match view_set (WasmBackedArray.view allocated) data
             (Wat.memory (instance w)) with
     | inr m => Normal tt (set_instance (Wat.set_memory m (instance w)) w)
     | inl e => Throw e w
     end) ;;;
  ret allocated.

Definition copyToJS (ptr length : Z) : M World (list float) :=
  view <~ getView Float64Array ptr length ;;
  fun w =>
    match view_slice view 0 (view_length view) (Wat.memory (instance w)) with
    | inr l => Normal l w
    | inl e => Throw e w
    end.

Definition copyFromJS (data : list float) (ptr : Z) : M World unit :=
  inst <~ getWasm ;;
  validatePointer ptr (Z.of_nat (length data) * BYTES_PER_ELEMENT Float64Array) ;;;
  match new_view Float64Array (Wat.memory inst) ptr (Z.of_nat (length data)) with
  | None => throw RangeError
  | Some view =>
      fun w =>
        match view_set view data (Wat.memory (instance w)) with
        | inr m => Normal tt (set_instance (Wat.set_memory m (instance w)) w)
        | inl e => Throw e w
        end
  end.

End Copy.

Module Engine.
Import MemoryManager.

(** Calling a kernel from JavaScript: a trap surfaces as a
    [WebAssembly.RuntimeError]; the stores made before it stay. *)
Definition fault_error (f : Wat.FaultKind) : JsError :=
  match f with Wat.Trap => RuntimeError | Wat.Misaligned => Unmodelled end.

Definition set_world_memory (m : Wat.Memory) (w : World) : World :=
  set_instance (Wat.set_memory m (instance w)) w.

Definition call_value {A} (k : Wat.Memory -> Wat.Exec A) : M World A := fun w =>
  match k (Wat.memory (instance w)) with
  | Wat.Done a => Normal a w
  | Wat.Fault f m => Throw (fault_error f) (set_world_memory m w)
  end.

Definition call_update (k : Wat.Memory -> Wat.Exec Wat.Memory) : M World unit :=
  fun w =>
  match k (Wat.memory (instance w)) with
  | Wat.Done m => Normal tt (set_world_memory m w)
  | Wat.Fault f m => Throw (fault_error f) (set_world_memory m w)
  end.

(** A typed-array method applied to the memory of the world. *)
Definition on_memory (f : Wat.Memory -> JsError + Wat.Memory) : M World unit :=
  fun w =>
  match f (Wat.memory (instance w)) with
  | inr m => Normal tt (set_world_memory m w)
  | inl e => Throw e w
  end.

(** A method of an object [T] runs on the world and on the object. *)
Definition lift {T A} (c : M World A) : M (World * T) A := fun s =>
  match c (fst s) with
  | Normal a w => Normal a (w, snd s)
  | Throw e w => Throw e (w, snd s)
  end.

Definition this {T} : M (World * T) T := fun s => Normal (snd s) s.

Definition set_this {T} (f : T -> T) : M (World * T) unit :=
  modify (fun s => (fst s, f (snd s))).

End Engine.

(** *** [WasmVector] *)

Module WasmVector.
Import MemoryManager Engine.

(** The fields that change or are read: [allocated], the [_data] signal
    (the view it currently holds) and [_disposed].  [wasm] and
    [memoryManager] refer to the instance and the manager of the world. *)
Record t := mk {
  allocated : WasmBackedArray;
  _data : View;
  _disposed : bool;
}.

(** [new WasmVector(wasm, memoryManager, signal(allocated.view), allocated,
    destroyRef)] *)
Definition new (a : WasmBackedArray) : t :=
  {| allocated := a; _data := WasmBackedArray.view a; _disposed := false |}.

Definition ptr (v : t) : Z := WasmBackedArray.ptr (allocated v).
Definition length (v : t) : Z := WasmBackedArray.length (allocated v).
Definition values (v : t) : View := _data v.

Definition VM (A : Type) : Type := M (World * t) A.

Definition ensureNotDisposed : VM unit := fun s =>
  if _disposed (snd s) then Throw (WasmError DISPOSED) s else Normal tt s.

Definition notifyChange : VM unit := fun s =>
  match new_view Float64Array (Wat.memory (instance (fst s)))
          (ptr (snd s)) (length (snd s)) with
  | Some view =>
      Normal tt (fst s, {| allocated := allocated (snd s); _data := view;
                           _disposed := _disposed (snd s) |})
  | None => Throw RangeError s
  end.

Definition set (data : list float) : VM unit :=
  ensureNotDisposed ;;;
  v <~ this ;;
  lift (on_memory (view_set (WasmBackedArray.view (allocated v)) data)) ;;;
  notifyChange.

Definition setAt (index : Z) (value : float) : VM unit :=
  ensureNotDisposed ;;;
  v <~ this ;;
  lift (modify (fun w =>
          set_world_memory
            (view_put (WasmBackedArray.view (allocated v)) index value
               (Wat.memory (instance w))) w)) ;;;
  notifyChange.

Definition getAt (index : Z) : VM (option float) :=
  v <~ this ;;
  lift (fun w => Normal (view_get (_data v) index (Wat.memory (instance w))) w).

Definition fill (value : float) : VM unit :=
  ensureNotDisposed ;;;
  v <~ this ;;
  lift (on_memory (view_fill (WasmBackedArray.view (allocated v)) value)) ;;;
  notifyChange.

Definition normalize : VM unit :=
  ensureNotDisposed ;;;
  v <~ this ;;
  lift (call_update (Wat.vec_normalize (Wat.wrap32 (ptr v)) (Wat.wrap32 (length v)))) ;;;
  notifyChange.

Definition magnitude : VM float :=
  v <~ this ;;
  lift (call_value (Wat.vec_magnitude (Wat.wrap32 (ptr v)) (Wat.wrap32 (length v)))).

Definition scale (factor : float) : VM unit :=
  ensureNotDisposed ;;;
  v <~ this ;;
  lift (call_update (Wat.vec_scale (Wat.wrap32 (ptr v)) (Wat.wrap32 (ptr v))
                       (Wat.wrap32 (length v)) factor)) ;;;
  notifyChange.

Definition add (other : t) : VM unit :=
  ensureNotDisposed ;;;
  v <~ this ;;
  (if negb (length other =? length v)
   then throw (PlainError "Vectors must have same length")
   else ret tt) ;;;
  lift (call_update (Wat.vec_add (Wat.wrap32 (ptr v)) (Wat.wrap32 (ptr other))
                       (Wat.wrap32 (ptr v)) (Wat.wrap32 (length v)))) ;;;
  notifyChange.

Definition toArray : VM (list float) :=
  v <~ this ;;
  lift (fun w =>
          match view_slice (_data v) 0 (view_length (_data v))
                  (Wat.memory (instance w)) with
          | inr l => Normal l w
          | inl e => Throw e w
          end).

Definition dispose : VM unit := fun s =>
  if negb (_disposed (snd s)) then
    Normal tt (MemoryManager.dispose (allocated (snd s)) (fst s),
               {| allocated := allocated (snd s); _data := _data (snd s);
                  _disposed := true |})
  else Normal tt s.

End WasmVector.

(** *** [WasmMatrix] *)

Module WasmMatrix.
Import MemoryManager Engine.

Record MatrixDimensions := { rows : Z; cols : Z }.

Record t := mk {
  allocated : WasmBackedArray;
  dimensions : MatrixDimensions;
  _data : View;
  _disposed : bool;
}.

Definition new (a : WasmBackedArray) (d : MatrixDimensions) : t :=
  {| allocated := a; dimensions := d; _data := WasmBackedArray.view a;
     _disposed := false |}.

Definition ptr (x : t) : Z := WasmBackedArray.ptr (allocated x).
Definition size (x : t) : Z := rows (dimensions x) * cols (dimensions x).

Definition MM (A : Type) : Type := M (World * t) A.

Definition ensureNotDisposed : MM unit := fun s =>
  if _disposed (snd s) then Throw (WasmError DISPOSED) s else Normal tt s.

Definition notifyChange : MM unit := fun s =>
  match new_view Float64Array (Wat.memory (instance (fst s)))
          (ptr (snd s)) (size (snd s)) with
  | Some view =>
      Normal tt (fst s, {| allocated := allocated (snd s);
                           dimensions := dimensions (snd s); _data := view;
                           _disposed := _disposed (snd s) |})
  | None => Throw RangeError s
  end.

Definition getAt (row col : Z) : MM (option float) :=
  x <~ this ;;
  lift (fun w => Normal (view_get (_data x) (row * cols (dimensions x) + col)
                           (Wat.memory (instance w))) w).

Definition setAt (row col : Z) (value : float) : MM unit :=
  ensureNotDisposed ;;;
  x <~ this ;;
  lift (modify (fun w =>
          set_world_memory
            (view_put (WasmBackedArray.view (allocated x))
               (row * cols (dimensions x) + col) value
               (Wat.memory (instance w))) w)) ;;;
  notifyChange.

(** [set(data)]: a [Float64Array] or [number[]] is taken as it is, a
    [number[][]] is flattened. *)
Definition set (data : list float + list (list float)) : MM unit :=
  ensureNotDisposed ;;;
  x <~ this ;;
  let flat := match data with inl l => l | inr ll => concat ll end in
  lift (on_memory (view_set (WasmBackedArray.view (allocated x)) flat)) ;;;
  notifyChange.

Definition fill (value : float) : MM unit :=
  ensureNotDisposed ;;;
  x <~ this ;;
  lift (on_memory (view_fill (WasmBackedArray.view (allocated x)) value)) ;;;
  notifyChange.

Fixpoint identity_loop (view : View) (n : Z) (left : nat) (i : Z)
  (m : Wat.Memory) : Wat.Memory :=
  match left with
  | O => m
  | S left' => identity_loop view n left' (i + 1) (view_put view (i * n + i) 1%float m)
  end.

Definition setIdentity : MM unit :=
  ensureNotDisposed ;;;
  x <~ this ;;
  (if negb (rows (dimensions x) =? cols (dimensions x))
   then throw (PlainError "Identity matrix requires square dimensions")
   else ret tt) ;;;
  fill 0%float ;;;
  lift (modify (fun w =>
          set_world_memory
            (identity_loop (WasmBackedArray.view (allocated x))
               (cols (dimensions x)) (Z.to_nat (rows (dimensions x))) 0
               (Wat.memory (instance w))) w)) ;;;
  notifyChange.

Definition norm : MM float :=
  x <~ this ;;
  lift (call_value (Wat.mat_frobenius_norm (Wat.wrap32 (ptr x)) (Wat.wrap32 (size x)))).

Definition getRow (row : Z) : MM (list float) :=
  x <~ this ;;
  let start := row * cols (dimensions x) in
  lift (fun w =>
          match view_slice (_data x) start (start + cols (dimensions x))
                  (Wat.memory (instance w)) with
          | inr l => Normal l w
          | inl e => Throw e w
          end).

Definition dispose : MM unit := fun s =>
  if negb (_disposed (snd s)) then
    Normal tt (MemoryManager.dispose (allocated (snd s)) (fst s),
               {| allocated := allocated (snd s);
                  dimensions := dimensions (snd s); _data := _data (snd s);
                  _disposed := true |})
  else Normal tt s.

End WasmMatrix.

(** *** [WasmSignalEngine]: creating views, transposing *)

Module WasmSignalEngine.
Import MemoryManager Engine.

Inductive WasmState := uninitialized | loading | ready | error.

(** [wasm] tells whether [this.wasm] is set (to the instance of the
    world). *)
Record t := {
  wasm : bool;
  _state : WasmState;
}.

(** What a successful [init()] leaves: the exports stored, the memory
    manager initialised on them, the state [ready]. *)
Definition after_init : t := {| wasm := true; _state := ready |}.

Definition EM (A : Type) : Type := M (World * t) A.

Definition getWasm : EM unit := fun s =>
  match _state (snd s) with
  | ready => if wasm (snd s) then Normal tt s
             else Throw (WasmError INIT_FAILED) s
  | _ => Throw (WasmError INIT_FAILED) s
  end.

(** [initialValue]: absent, a number to fill with, or an array to copy. *)
Definition initialise (view : View) (initialValue : option (float + list float))
  : M World unit :=
  match initialValue with
  | None => ret tt
  | Some (inl x) => on_memory (view_fill view x)
  | Some (inr data) => on_memory (view_set view data)
  end.

Definition createVectorSignal (size : Z) (initialValue : option (float + list float))
  (now : Z) : EM WasmVector.t :=
  getWasm ;;;
  allocated <~ lift (allocateFloat64 size (Some "vector") now) ;;
  lift (initialise (WasmBackedArray.view allocated) initialValue) ;;;
  ret (WasmVector.new allocated).

Definition createMatrixSignal (rows cols : Z)
  (initialValue : option (float + list float)) (now : Z) : EM WasmMatrix.t :=
  getWasm ;;;
  let size := rows * cols in
  allocated <~ lift (allocateFloat64 size (Some "matrix") now) ;;
  lift (initialise (WasmBackedArray.view allocated) initialValue) ;;;
  ret (WasmMatrix.new allocated
         {| WasmMatrix.rows := rows; WasmMatrix.cols := cols |}).

(** [matrixTranspose(matrix)]; [elapsed] is the time the two
    [performance.now()] calls measure.  The [notifyChange] of the result
    runs on the result. *)
Definition matrixTranspose (matrix : WasmMatrix.t) (now : Z) (elapsed : float)
  : EM WasmMatrix.t :=
  getWasm ;;;
  let d := WasmMatrix.dimensions matrix in
  result <~ createMatrixSignal (WasmMatrix.cols d) (WasmMatrix.rows d) None now ;;
  lift (call_update
          (Wat.mat_transpose (Wat.wrap32 (WasmMatrix.ptr matrix))
             (Wat.wrap32 (WasmMatrix.ptr result))
             (Wat.wrap32 (WasmMatrix.rows d)) (Wat.wrap32 (WasmMatrix.cols d)))) ;;;
  lift (modify (fun w =>
          set_manager (trackComputation "mat_transpose" elapsed (manager w)) w)) ;;;
  fun s =>
    match WasmMatrix.notifyChange (fst s, result) with
    | Normal _ s' => Normal (snd s') (fst s', snd s)
    | Throw e s' => Throw e (fst s', snd s)
    end.

End WasmSignalEngine.

(** ** [worker-pool.service.ts] *)

Module WorkerPool.

(** [generateTaskId]: the string [task_<counter>_<Date.now()>] is the pair
    of its two numbers (the counter is the run of digits before the second
    underscore, so the pair and the string determine each other). *)
Definition TaskId : Type := Z * Z.

(** The names of [keyof WasmExports]. *)
Inductive Export :=
| e_memory | e_allocate | e_reset_heap | e_get_heap_usage
| e_vec_dot | e_vec_magnitude | e_vec_normalize | e_vec_add | e_vec_scale
| e_mat_multiply | e_mat_transpose | e_mat_frobenius_norm
| e_stats_mean | e_stats_variance | e_stats_std_dev
| e_signal_moving_avg | e_signal_convolve
| e_process_chunk_sum | e_mem_copy | e_mem_fill_f64.

Inductive MessageType := t_init | t_compute | t_dispose | t_result | t_error.

(** [WasmWorkerMessage] with the fields of [WasmComputeMessage] and
    [WasmResultMessage], absent where a message has none.  [payload] is the
    wasm path of an [init] or the text of an [error]; [args] are the
    numbers of a [compute] (offsets and lengths). *)
Record WasmWorkerMessage := {
  type : MessageType;
  id : TaskId;
  payload : option string;
  operation : option Export;
  args : list Z;
  transferBuffers : option (list (list float));
  result : option float;
  executionTimeMs : float;
}.

(** A promise of the pool: its state, and the promise that the chain
    [.then(resolve).catch(reject)] of [processQueue] settles with it, if
    any.  Promises are named by their position in the store. *)
Inductive Settlement :=
| Pending
| Resolved (value : WasmWorkerMessage)
| Rejected (reason : JsError).

Record Promise := {
  state : Settlement;
  chained : option nat;
}.

(** [WorkerTask]: [resolve] and [reject] are the two functions of one
    promise, [promise]. *)
Record WorkerTask := {
  task_id : TaskId;
  promise : nat;
  startTime : float;
}.

(** The [Worker] object: whether [terminate()] was called on it, and the
    messages posted to it, oldest first. *)
Record Worker := {
  terminated : bool;
  posted : list WasmWorkerMessage;
}.

Record PooledWorker := {
  worker : Worker;
  busy : bool;
  taskCount : Z;
  pendingTasks : gmap TaskId WorkerTask;
}.

Record QueuedTask := {
  message : WasmWorkerMessage;
  queued_promise : nat;
}.

(** The fields of the class, and the promises it created.  [retired] holds
    the [PooledWorker] objects that [terminate()] dropped from
    [this.workers]: their [onmessage] closures still refer to them. *)
Record WasmWorkerPool := {
  workers : list PooledWorker;
  retired : list PooledWorker;
  initialized : bool;
  taskIdCounter : Z;
  taskQueue : list QueuedTask;
  _activeWorkers : Z;
  _queuedTasks : Z;
  _totalTasksCompleted : Z;
  _averageTaskTimeMs : float;
  promises : list Promise;
}.

(** A reference to a [PooledWorker] object. *)
Inductive WorkerRef := in_pool (i : nat) | dropped (i : nat).

Definition new_pool : WasmWorkerPool :=
  {| workers := []; retired := []; initialized := false; taskIdCounter := 0;
     taskQueue := []; _activeWorkers := 0; _queuedTasks := 0;
     _totalTasksCompleted := 0; _averageTaskTimeMs := 0%float;
     promises := [] |}.

Definition set_workers (ws : list PooledWorker) (p : WasmWorkerPool) :=
  {| workers := ws; retired := retired p; initialized := initialized p;
     taskIdCounter := taskIdCounter p; taskQueue := taskQueue p;
     _activeWorkers := _activeWorkers p; _queuedTasks := _queuedTasks p;
     _totalTasksCompleted := _totalTasksCompleted p;
     _averageTaskTimeMs := _averageTaskTimeMs p; promises := promises p |}.

Definition set_retired (ws : list PooledWorker) (p : WasmWorkerPool) :=
  {| workers := workers p; retired := ws; initialized := initialized p;
     taskIdCounter := taskIdCounter p; taskQueue := taskQueue p;
     _activeWorkers := _activeWorkers p; _queuedTasks := _queuedTasks p;
     _totalTasksCompleted := _totalTasksCompleted p;
     _averageTaskTimeMs := _averageTaskTimeMs p; promises := promises p |}.

Definition set_initialized (b : bool) (p : WasmWorkerPool) :=
  {| workers := workers p; retired := retired p; initialized := b;
     taskIdCounter := taskIdCounter p; taskQueue := taskQueue p;
     _activeWorkers := _activeWorkers p; _queuedTasks := _queuedTasks p;
     _totalTasksCompleted := _totalTasksCompleted p;
     _averageTaskTimeMs := _averageTaskTimeMs p; promises := promises p |}.

Definition set_taskIdCounter (n : Z) (p : WasmWorkerPool) :=
  {| workers := workers p; retired := retired p; initialized := initialized p;
     taskIdCounter := n; taskQueue := taskQueue p;
     _activeWorkers := _activeWorkers p; _queuedTasks := _queuedTasks p;
     _totalTasksCompleted := _totalTasksCompleted p;
     _averageTaskTimeMs := _averageTaskTimeMs p; promises := promises p |}.

(** [this.taskQueue = q; this._queuedTasks.set(n)] *)
Definition set_taskQueue (q : list QueuedTask) (n : Z) (p : WasmWorkerPool) :=
  {| workers := workers p; retired := retired p; initialized := initialized p;
     taskIdCounter := taskIdCounter p; taskQueue := q;
     _activeWorkers := _activeWorkers p; _queuedTasks := n;
     _totalTasksCompleted := _totalTasksCompleted p;
     _averageTaskTimeMs := _averageTaskTimeMs p; promises := promises p |}.

Definition set_activeWorkers (n : Z) (p : WasmWorkerPool) :=
  {| workers := workers p; retired := retired p; initialized := initialized p;
     taskIdCounter := taskIdCounter p; taskQueue := taskQueue p;
     _activeWorkers := n; _queuedTasks := _queuedTasks p;
     _totalTasksCompleted := _totalTasksCompleted p;
     _averageTaskTimeMs := _averageTaskTimeMs p; promises := promises p |}.

Definition set_stats (total : Z) (avg : float) (p : WasmWorkerPool) :=
  {| workers := workers p; retired := retired p; initialized := initialized p;
     taskIdCounter := taskIdCounter p; taskQueue := taskQueue p;
     _activeWorkers := _activeWorkers p; _queuedTasks := _queuedTasks p;
     _totalTasksCompleted := total; _averageTaskTimeMs := avg;
     promises := promises p |}.

Definition set_promises (ps : list Promise) (p : WasmWorkerPool) :=
  {| workers := workers p; retired := retired p; initialized := initialized p;
     taskIdCounter := taskIdCounter p; taskQueue := taskQueue p;
     _activeWorkers := _activeWorkers p; _queuedTasks := _queuedTasks p;
     _totalTasksCompleted := _totalTasksCompleted p;
     _averageTaskTimeMs := _averageTaskTimeMs p; promises := ps |}.

(** *** Promises *)

(** [new Promise(...)]: a pending promise at the end of the store. *)
Definition new_promise (p : WasmWorkerPool) : nat * WasmWorkerPool :=
  (length (promises p),
   set_promises (promises p ++ [{| state := Pending; chained := None |}]) p).

Definition is_pending (s : Settlement) : bool :=
  match s with Pending => true | _ => false end.

(** Calling [resolve] or [reject] of promise [k]: nothing happens unless it
    is pending. *)
Definition settle_one (k : nat) (s : Settlement) (ps : list Promise)
  : list Promise :=
  match ps !! k with
  | Some pr =>
      if is_pending (state pr)
      then <[k := {| state := s; chained := chained pr |}]> ps
      else ps
  | None => ps
  end.

(** Settling a promise also settles the one chained to it.  (The promises
    the pool chains to are those of queued callers, which have no chain of
    their own inside the pool.) *)
Definition settle (k : nat) (s : Settlement) (ps : list Promise)
  : list Promise :=
  match ps !! k with
  | Some pr =>
      if is_pending (state pr) then
        let ps' := <[k := {| state := s; chained := chained pr |}]> ps in
        match chained pr with
        | Some target => settle_one target s ps'
        | None => ps'
        end
      else ps
  | None => ps
  end.

(** [q.then(resolve).catch(reject)] with the functions of promise
    [target]. *)
Definition chain (q target : nat) (ps : list Promise) : list Promise :=
  match ps !! q with
  | Some pr => <[q := {| state := state pr; chained := Some target |}]> ps
  | None => ps
  end.

(** *** The private methods *)

Definition generateTaskId (now : Z) (p : WasmWorkerPool)
  : TaskId * WasmWorkerPool :=
  ((taskIdCounter p + 1, now), set_taskIdCounter (taskIdCounter p + 1) p).

Definition updateActiveWorkerCount (p : WasmWorkerPool) : WasmWorkerPool :=
  set_activeWorkers (Z.of_nat (length (filter (fun w => busy w = true) (workers p)))) p.

Definition updateStats (taskTimeMs : float) (p : WasmWorkerPool)
  : WasmWorkerPool :=
  let total := _totalTasksCompleted p + 1 in
  let currentAvg := _averageTaskTimeMs p in
  let newAvg :=
    (currentAvg + (taskTimeMs - currentAvg)
                  / PrimFloat.of_uint63 (Uint63.of_Z total))%float in
  set_stats total newAvg p.

(** The scan of [getAvailableWorker]: [best] starts at [null],
    [bestCount] at [Infinity] ([None]). *)
Fixpoint least_busy (ws : list PooledWorker) (i : nat) (best : option nat)
  (bestCount : option nat) : option nat * option nat :=
  match ws with
  | [] => (best, bestCount)
  | w :: rest =>
      let n := size (pendingTasks w) in
      if match bestCount with None => true | Some c => (n <? c)%nat end
      then least_busy rest (S i) (Some i) (Some n)
      else least_busy rest (S i) best bestCount
  end.

Definition getAvailableWorker (p : WasmWorkerPool) : option nat :=
  match least_busy (workers p) 0 None None with
  | (Some best, Some bestCount) =>
      if (bestCount <? 10)%nat then Some best else None
  | _ => None
  end.

Definition lookup_worker (r : WorkerRef) (p : WasmWorkerPool)
  : option PooledWorker :=
  match r with
  | in_pool i => workers p !! i
  | dropped i => retired p !! i
  end.

Definition store_worker (r : WorkerRef) (w : PooledWorker) (p : WasmWorkerPool)
  : WasmWorkerPool :=
  match r with
  | in_pool i => set_workers (<[i := w]> (workers p)) p
  | dropped i => set_retired (<[i := w]> (retired p)) p
  end.

(** [worker.postMessage(message)]: dropped by a terminated worker. *)
Definition postMessage (m : WasmWorkerMessage) (w : Worker) : Worker :=
  if terminated w then w
  else {| terminated := false; posted := posted w ++ [m] |}.

(** [sendToWorker(pooled, message)] returns its promise; [now] is
    [performance.now()]. *)
Definition sendToWorker (r : WorkerRef) (m : WasmWorkerMessage) (now : float)
  (p : WasmWorkerPool) : nat * WasmWorkerPool :=
  let '(k, p1) := new_promise p in
  match lookup_worker r p1 with
  | None => (k, p1)
  | Some pooled =>
      let task := {| task_id := id m; promise := k; startTime := now |} in
      let pending := <[id m := task]> (pendingTasks pooled) in
      let p2 := store_worker r
                  {| worker := worker pooled;
                     busy := (0 <? size pending)%nat;
                     taskCount := taskCount pooled;
                     pendingTasks := pending |} p1 in
      let p3 := updateActiveWorkerCount p2 in
      match lookup_worker r p3 with
      | None => (k, p3)
      | Some pooled' =>
          (k, store_worker r
                {| worker := postMessage m (worker pooled');
                   busy := busy pooled'; taskCount := taskCount pooled';
                   pendingTasks := pendingTasks pooled' |} p3)
      end
  end.

(** [processQueue]: the loop runs on the queue it consumes. *)
Fixpoint processQueue_loop (queue : list QueuedTask) (now : float)
  (p : WasmWorkerPool) : WasmWorkerPool :=
  match queue with
  | [] => p
  | queued :: rest =>
      match getAvailableWorker p with
      | None => p
      | Some i =>
          let p1 := set_taskQueue rest (Z.of_nat (length rest)) p in
          let '(k, p2) := sendToWorker (in_pool i) (message queued) now p1 in
          processQueue_loop rest now
            (set_promises (chain k (queued_promise queued) (promises p2)) p2)
      end
  end.

Definition processQueue (now : float) (p : WasmWorkerPool) : WasmWorkerPool :=
  processQueue_loop (taskQueue p) now p.

(** [handleWorkerMessage(pooled, message)]; the second component tells
    whether the unknown-task warning was logged. *)
Definition handleWorkerMessage (r : WorkerRef) (m : WasmWorkerMessage)
  (now : float) (p : WasmWorkerPool) : WasmWorkerPool * bool :=
  match lookup_worker r p with
  | None => (p, true)
  | Some pooled =>
      match pendingTasks pooled !! id m with
      | None => (p, true)
      | Some task =>
          let pending := delete (id m) (pendingTasks pooled) in
          let p1 := store_worker r
                      {| worker := worker pooled;
                         busy := (0 <? size pending)%nat;
                         taskCount := taskCount pooled + 1;
                         pendingTasks := pending |} p in
          let elapsed := (now - startTime task)%float in
          let p2 := updateActiveWorkerCount (updateStats elapsed p1) in
          let p3 :=
            match type m with
            | t_error =>
                set_promises
                  (settle (promise task)
                     (Rejected (PlainError (default "" (payload m))))
                     (promises p2)) p2
            | t_result =>
                set_promises
                  (settle (promise task) (Resolved m) (promises p2)) p2
            | _ => p2
            end in
          (processQueue now p3, false)
      end
  end.

Definition reject_all (tasks : list (TaskId * WorkerTask)) (e : JsError)
  (ps : list Promise) : list Promise :=
  foldl (fun acc kt => settle (promise (snd kt)) (Rejected e) acc) ps tasks.

(** [handleWorkerError(pooled, error)] *)
Definition handleWorkerError (r : WorkerRef) (e : JsError) (p : WasmWorkerPool)
  : WasmWorkerPool :=
  match lookup_worker r p with
  | None => p
  | Some pooled =>
      let p1 := set_promises
                  (reject_all (map_to_list (pendingTasks pooled)) e (promises p)) p in
      updateActiveWorkerCount
        (store_worker r
           {| worker := worker pooled; busy := false;
              taskCount := taskCount pooled; pendingTasks := ∅ |} p1)
  end.

(** *** The public methods *)

(** The loop of [init(workerCount, wasmPath)]: the workers are created
    and sent their [init] message.  The list holds the promises that
    [Promise.all] awaits. *)
Fixpoint init_workers (count : nat) (wasmPath : string) (now : Z)
  (now_ms : float) (p : WasmWorkerPool) : list nat * WasmWorkerPool :=
  match count with
  | O => ([], p)
  | S count' =>
      let pooledWorker :=
        {| worker := {| terminated := false; posted := [] |};
           busy := false; taskCount := 0; pendingTasks := ∅ |} in
      let p1 := set_workers (workers p ++ [pooledWorker]) p in
      let '(tid, p2) := generateTaskId now p1 in
      let '(k, p3) :=
        sendToWorker (in_pool (length (workers p)))
          {| type := t_init; id := tid; payload := Some wasmPath;
             operation := None; args := []; transferBuffers := None;
             result := None; executionTimeMs := 0%float |} now_ms p2 in
      let '(ks, p4) := init_workers count' wasmPath now now_ms p3 in
      (k :: ks, p4)
  end.

(** [init(workerCount, wasmPath)] up to its [await]; [isBrowser] is what
    [isPlatformBrowser(this.platformId)] returns.  [None]: the call has
    returned, on a server after its warning or on an initialised pool,
    and nothing is awaited.  [Some awaited]: the workers are created and
    the call awaits the listed promises. *)
Definition init_begin (isBrowser : bool) (workerCount : nat)
  (wasmPath : string) (now : Z) (now_ms : float) (p : WasmWorkerPool)
  : option (list nat) * WasmWorkerPool :=
  if negb isBrowser then (None, p)
  else if initialized p then (None, p)
  else
    let '(awaited, p') := init_workers workerCount wasmPath now now_ms p in
    (Some awaited, p').

Definition is_resolved (ps : list Promise) (k : nat) : bool :=
  match ps !! k with
  | Some {| state := Resolved _ |} => true
  | _ => false
  end.

(** The part of [init] after [await Promise.all(initPromises)]: reached
    once every awaited promise is resolved. *)
Definition init_finish (awaited : list nat) (p : WasmWorkerPool)
  : WasmWorkerPool :=
  if forallb (is_resolved (promises p)) awaited then set_initialized true p
  else p.

(** [compute(operation, args, transferBuffers)] returns the promise the
    caller awaits.  (An [async] function hands back a promise that takes
    the state of the one it returns, or is rejected with what it throws:
    the two are one promise here.) *)
Definition compute (op : Export) (arguments : list Z)
  (buffers : option (list (list float))) (now : Z) (now_ms : float)
  (p : WasmWorkerPool) : nat * WasmWorkerPool :=
  if negb (initialized p) then
    let '(k, p1) := new_promise p in
    (k, set_promises
          (settle k (Rejected (PlainError "Worker pool not initialized"))
             (promises p1)) p1)
  else
    let '(tid, p1) := generateTaskId now p in
    let m := {| type := t_compute; id := tid; payload := None;
                operation := Some op; args := arguments;
                transferBuffers := buffers; result := None;
                executionTimeMs := 0%float |} in
    match getAvailableWorker p1 with
    | Some i => sendToWorker (in_pool i) m now_ms p1
    | None =>
        let '(k, p2) := new_promise p1 in
        let queue := taskQueue p2 ++ [{| message := m; queued_promise := k |}] in
        (k, set_taskQueue queue (Z.of_nat (length queue)) p2)
    end.

(** [parallelMap(data, chunkOperation, combineResults)] up to its [await].
    The loop over [i < this.workers.length] cuts [data] into chunks of
    [chunkSize = Math.ceil(data.length / this.workers.length)] elements
    and stops at the first [start >= data.length]; [data.slice(start, end)]
    is the chunk.  (The quotient is exact in binary64 for lengths below
    2^53, so [Math.ceil] of it is the integer ceiling.) *)
Fixpoint parallelMap_chunks (data : list float) (chunkSize : Z) (left : nat)
  (i : Z) : list (Z * list float) :=
  match left with
  | O => []
  | S left' =>
      let start := i * chunkSize in
      let end_ := Z.min (start + chunkSize) (Z.of_nat (length data)) in
      if Z.of_nat (length data) <=? start then []
      else (end_ - start,
            take (Z.to_nat (end_ - start)) (drop (Z.to_nat start) data))
           :: parallelMap_chunks data chunkSize left' (i + 1)
  end.

(** Each chunk, paired above with its [end - start], is handed to
    [compute] with the arguments [[0, 0, end - start]] and its buffer; the
    list holds the promises that [Promise.all] awaits.  ([compute] leaves
    [this.workers.length] as it is, so the chunks do not depend on the
    calls made for earlier ones.) *)
Fixpoint parallelMap_calls (chunks : list (Z * list float))
  (chunkOperation : Export) (now : Z) (now_ms : float) (p : WasmWorkerPool)
  : list nat * WasmWorkerPool :=
  match chunks with
  | [] => ([], p)
  | (n, chunk) :: rest =>
      let '(k, p1) :=
        compute chunkOperation [0; 0; n] (Some [chunk]) now now_ms p in
      let '(ks, p2) := parallelMap_calls rest chunkOperation now now_ms p1 in
      (k :: ks, p2)
  end.

Definition parallelMap_begin (data : list float) (chunkOperation : Export)
  (now : Z) (now_ms : float) (p : WasmWorkerPool) : list nat * WasmWorkerPool :=
  let count := length (workers p) in
  let chunkSize :=
    MemoryManager.ceil_div (Z.of_nat (length data)) (Z.of_nat count) in
  parallelMap_calls (parallelMap_chunks data chunkSize count 0)
    chunkOperation now now_ms p.

(** [getStats()] of the pool. *)
Module PoolStats.
Record t := mk {
  workerCount : Z;
  activeWorkers : Z;
  queuedTasks : Z;
  totalCompleted : Z;
  avgTimeMs : float;
}.
End PoolStats.

Definition getStats (p : WasmWorkerPool) : PoolStats.t :=
  {| PoolStats.workerCount := Z.of_nat (length (workers p));
     PoolStats.activeWorkers := _activeWorkers p;
     PoolStats.queuedTasks := _queuedTasks p;
     PoolStats.totalCompleted := _totalTasksCompleted p;
     PoolStats.avgTimeMs := _averageTaskTimeMs p |}.

Definition terminate_worker (w : PooledWorker) : PooledWorker :=
  {| worker := {| terminated := true; posted := posted (worker w) |};
     busy := busy w; taskCount := taskCount w; pendingTasks := pendingTasks w |}.

(** [terminate()] *)
Definition terminate (p : WasmWorkerPool) : WasmWorkerPool :=
  let ps :=
    foldl (fun acc pooled =>
             reject_all (map_to_list (pendingTasks pooled))
               (PlainError "Worker pool terminated") acc)
      (promises p) (workers p) in
  set_activeWorkers 0
    (set_taskQueue [] 0
       (set_initialized false
          (set_workers []
             (set_retired (retired p ++ map terminate_worker (workers p))
                (set_promises ps p))))).

End WorkerPool.

(** * Specification vocabulary *)

(** The predicates, invariants and sample states that the statements of
    the last part are about.  Nothing here is part of the program. *)

Section I32Defs.

(** The rounding of [allocate]: the next multiple of 8. *)
Definition align8 (n : Z) : Z := 8 * ((n + 7) / 8).

End I32Defs.

Section BestFitDefs.
Import MemoryManager.

(** No block of the list is large enough. *)
Definition no_fit (n : Z) (l : list MemoryBlock) : Prop :=
  forall i b, l !! i = Some b -> MemoryBlock.size b < n.

(** [l !! i = Some b] is the best fit for [n] bytes: large enough, no
    larger than any other block that is large enough, and strictly smaller
    than those before it in the list. *)
Definition best_fit (n : Z) (l : list MemoryBlock) (i : nat) (b : MemoryBlock)
  : Prop :=
  l !! i = Some b /\ n <= MemoryBlock.size b /\
  forall j b', l !! j = Some b' -> n <= MemoryBlock.size b' ->
               MemoryBlock.size b <= MemoryBlock.size b' /\
               ((j < i)%nat -> MemoryBlock.size b < MemoryBlock.size b').

(** The loop invariant of the scan over the blocks already visited. *)
Definition scan_state (n : Z) (pre : list MemoryBlock) (bestIndex : Z)
  (bestSize : option Z) : Prop :=
  (bestIndex = -1 /\ bestSize = None /\ no_fit n pre)
  \/ (exists k b, bestIndex = Z.of_nat k /\ bestSize = Some (MemoryBlock.size b)
                  /\ best_fit n pre k b).

End BestFitDefs.

Section AllocatorDefs.
Import MemoryManager.

(** The instance: the heap pointer is a multiple of 8 between the reserved
    prefix and the end of the buffer; the memory may grow to at most 32767
    pages (below 2 GiB, so that an offset reads the same signed and
    unsigned; the module declares 512). *)
Record instance_ok (inst : Wat.Instance) : Prop := {
  heap_lo : RESERVED_BYTES <= Wat.heap_ptr inst;
  heap_aligned : Wat.heap_ptr inst mod 8 = 0;
  heap_hi : Wat.heap_ptr inst <= Wat.byteLength (Wat.memory inst);
  pages_max : Wat.mem_pages (Wat.memory inst) <= Wat.mem_max (Wat.memory inst);
  max_small : Wat.mem_max (Wat.memory inst) <= 32767;
}.

(** A tracked or free block lies in the used part of the heap. *)
Definition block_ok (heap : Z) (b : MemoryBlock) : Prop :=
  RESERVED_BYTES <= MemoryBlock.ptr b /\ MemoryBlock.ptr b mod 8 = 0 /\
  0 <= MemoryBlock.size b /\ MemoryBlock.ptr b + MemoryBlock.size b <= heap.

(** One block ends where or before the other starts. *)
Definition apart (a b : MemoryBlock) : Prop :=
  MemoryBlock.ptr a + MemoryBlock.size a <= MemoryBlock.ptr b
  \/ MemoryBlock.ptr b + MemoryBlock.size b <= MemoryBlock.ptr a.

(** The byte ranges [[ptr, ptr + size)] share a byte. *)
Definition overlap (a b : MemoryBlock) : Prop :=
  exists x, MemoryBlock.ptr a <= x < MemoryBlock.ptr a + MemoryBlock.size a
            /\ MemoryBlock.ptr b <= x < MemoryBlock.ptr b + MemoryBlock.size b.

Record wf (inst : Wat.Instance) (al : gmap Z MemoryBlock)
  (fl : list MemoryBlock) : Prop := {
  wf_inst : instance_ok inst;
  wf_key : forall p b, al !! p = Some b -> MemoryBlock.ptr b = p;
  wf_alloc : forall p b, al !! p = Some b -> block_ok (Wat.heap_ptr inst) b;
  wf_free : forall i b, fl !! i = Some b -> block_ok (Wat.heap_ptr inst) b;
  wf_aa : forall p q a b, p <> q -> al !! p = Some a -> al !! q = Some b ->
                          apart a b;
  wf_af : forall p a i f, al !! p = Some a -> fl !! i = Some f -> apart a f;
  wf_ff : forall i j f g, i <> j -> fl !! i = Some f -> fl !! j = Some g ->
                          apart f g;
}.

Definition Inv (w : World) : Prop :=
  wf (instance w) (allocations (manager w)) (freeList (manager w)).

Definition available (inst : Wat.Instance) : Z :=
  Wat.byteLength (Wat.memory inst) - Wat.heap_ptr inst.

Definition grown (mem' : Wat.Memory) (w : World) : World :=
  set_instance (Wat.set_memory mem' (instance w)) w.

End AllocatorDefs.

Section AllocateDefs.
Import MemoryManager.

(** The block [allocate] records for a request. *)
Definition tracked (ptr : Z) (C : TypedArrayConstructor) (len : Z)
  (label : option string) (now : Z) : MemoryBlock :=
  MemoryBlock.mk ptr (len * BYTES_PER_ELEMENT C) (getTypeFromConstructor C)
    label now.

(** The world after [allocate] returned [ptr]: the instance and the free
    list it ends with, the block tracked under [ptr], the metrics updated. *)
Definition after_allocate (block : MemoryBlock) (inst : Wat.Instance)
  (fl : list MemoryBlock) (w : World) : World :=
  {| instance := inst;
     manager := updateMetrics op_allocate (MemoryBlock.size block)
                  (set_allocations
                     (<[MemoryBlock.ptr block := block]> (allocations (manager w)))
                     (set_freeList fl (manager w))) |}.

End AllocateDefs.

Section PreservationDefs.
Import MemoryManager.

(** Index [j] of a list with position [i] spliced out is index [skip i j] of
    the list. *)
Definition skip (i j : nat) : nat := if (j <? i)%nat then j else S j.

End PreservationDefs.

Section RunsDefs.
Import MemoryManager.

(** The calls a client can make on an initialised manager. *)
Inductive Request :=
| req_allocate (C : TypedArrayConstructor) (len : Z) (label : option string) (now : Z)
| req_deallocate (ptr : Z)
| req_reset.

(** A valid size is a length that is not negative. *)
Definition valid (r : Request) : Prop :=
  match r with
  | req_allocate _ len _ _ => 0 <= len
  | _ => True
  end.

(** The world after a call, whether it returned or threw. *)
Definition perform (r : Request) (w : World) : World :=
  match r with
  | req_allocate C len label now => final_state (allocate C len label now w)
  | req_deallocate p => set_manager (fst (deallocate p (manager w))) w
  | req_reset => final_state (reset w)
  end.

(** The states a manager goes through: [initialize] on a fresh instance of
    the module, then any valid calls. *)
Inductive reachable : World -> Prop :=
| reach_initialize c w0 : reachable (initialize Wat.instantiate c w0)
| reach_perform r w : reachable w -> valid r -> reachable (perform r w).

End RunsDefs.

Section SamplesDefs.
Import MemoryManager.

(** Before [initialize]: the field initialisers of the class. *)
Definition boot : World :=
  {| instance := Wat.instantiate; manager := new_manager |}.

(** [initialize(wasm)] with the default configuration. *)
Definition fresh : World := initialize Wat.instantiate None boot.

(** Three byte arrays of 64, 32 and 48 bytes allocated, then all released:
    the free list holds them in that order. *)
Definition three_free : World :=
  perform (req_deallocate 65632)
    (perform (req_deallocate 65600)
       (perform (req_deallocate 65536)
          (perform (req_allocate Uint8Array 48 None 3)
             (perform (req_allocate Uint8Array 32 None 2)
                (perform (req_allocate Uint8Array 64 None 1) fresh))))).

(** One freed block of 64 bytes at the start of the heap. *)
Definition one_free : World :=
  perform (req_deallocate 65536)
    (perform (req_allocate Uint8Array 64 None 1) fresh).


(** [initialize(wasm, { enableTracking: false })], then one vector of four
    doubles allocated. *)
Definition untracked : World :=
  perform (req_allocate Float64Array 4 None 1)
    (initialize Wat.instantiate
       (Some {| initialPages_opt := None; maxPages_opt := None;
                enableTracking_opt := Some false; autoGrow_opt := None |}) boot).

End SamplesDefs.

Section DisposalDefs.
Import MemoryManager Engine.

(** The state of a vector of two doubles [3; 4] created by the engine on a
    fresh world, and that state after its [dispose()]. *)
Definition vector34 : World * WasmVector.t :=
  match WasmSignalEngine.createVectorSignal 2 (Some (inr [3; 4]%float)) 1
          (fresh, WasmSignalEngine.after_init) with
  | Normal v s => (fst s, v)
  | Throw _ s => (fst s, WasmVector.new (WasmBackedArray.mk 0 0
                    {| view_ctor := Float64Array; view_gen := 0;
                       byteOffset := 0; view_length := 0 |}))
  end.

Definition vector34_disposed : World * WasmVector.t :=
  final_state (WasmVector.dispose vector34).

(** The calls that change a vector, and those that change a matrix. *)
Inductive VectorMutator :=
| vec_set (data : list float)
| vec_setAt (index : Z) (value : float)
| vec_fill (value : float)
| vec_normalize
| vec_scale (factor : float)
| vec_add (other : WasmVector.t).

Definition vector_mutate (op : VectorMutator) : WasmVector.VM unit :=
  match op with
  | vec_set data => WasmVector.set data
  | vec_setAt index value => WasmVector.setAt index value
  | vec_fill value => WasmVector.fill value
  | vec_normalize => WasmVector.normalize
  | vec_scale factor => WasmVector.scale factor
  | vec_add other => WasmVector.add other
  end.

Inductive MatrixMutator :=
| mat_setAt (row col : Z) (value : float)
| mat_set (data : list float + list (list float))
| mat_fill (value : float)
| mat_setIdentity.

Definition matrix_mutate (op : MatrixMutator) : WasmMatrix.MM unit :=
  match op with
  | mat_setAt row col value => WasmMatrix.setAt row col value
  | mat_set data => WasmMatrix.set data
  | mat_fill value => WasmMatrix.fill value
  | mat_setIdentity => WasmMatrix.setIdentity
  end.

End DisposalDefs.

Section LeastBusyDefs.
Import WorkerPool.

(** The number of requests a worker still has to answer. *)
Definition load (w : PooledWorker) : nat := size (pendingTasks w).

(** Worker [i], with load [c], is the first of the least loaded ones. *)
Definition first_least (ws : list PooledWorker) (i c : nat) : Prop :=
  (exists w, ws !! i = Some w /\ load w = c)
  /\ forall j w', ws !! j = Some w' ->
                  (c <= load w')%nat /\ ((j < i)%nat -> (c < load w')%nat).

Definition busy_state (pre : list PooledWorker) (best bestCount : option nat)
  : Prop :=
  (best = None /\ bestCount = None /\ pre = [])
  \/ (exists i c, best = Some i /\ bestCount = Some c /\ first_least pre i c).

End LeastBusyDefs.

Section DispatchDefs.
Import WorkerPool.

(** Worker [w] once message [m] was sent to it under promise [k]. *)
Definition sent (m : WasmWorkerMessage) (k : nat) (now : float)
  (w : PooledWorker) : PooledWorker :=
  let pending :=
    <[id m := {| task_id := id m; promise := k; startTime := now |}]>
      (pendingTasks w) in
  {| worker := postMessage m (worker w);
     busy := (0 <? size pending)%nat;
     taskCount := taskCount w;
     pendingTasks := pending |}.

Definition fresh_promise : Promise := {| state := Pending; chained := None |}.

(** A request made of what [compute] is called with and of the two clock
    readings of the call. *)
Record Submission := {
  sub_operation : Export;
  sub_args : list Z;
  sub_buffers : option (list (list float));
  sub_now : Z;
  sub_now_ms : float;
}.

Definition submit (r : Submission) (p : WasmWorkerPool) : nat * WasmWorkerPool :=
  compute (sub_operation r) (sub_args r) (sub_buffers r) (sub_now r)
    (sub_now_ms r) p.

Fixpoint submit_all (rs : list Submission) (p : WasmWorkerPool)
  : list nat * WasmWorkerPool :=
  match rs with
  | [] => ([], p)
  | r :: rest =>
      let '(k, p1) := submit r p in
      let '(ks, p2) := submit_all rest p1 in
      (k :: ks, p2)
  end.

(** The [compute] message [submit] builds in state [p]. *)
Definition request_message (r : Submission) (p : WasmWorkerPool)
  : WasmWorkerMessage :=
  {| type := t_compute; id := (taskIdCounter p + 1, sub_now r);
     payload := None; operation := Some (sub_operation r);
     args := sub_args r; transferBuffers := sub_buffers r; result := None;
     executionTimeMs := 0%float |}.

End DispatchDefs.

Section SaturationDefs.
Import WorkerPool.


End SaturationDefs.

Section AnswersDefs.
Import WorkerPool.

(** Worker [w] once the answer [m] to one of its requests was handled. *)
Definition completed (m : WasmWorkerMessage) (w : PooledWorker) : PooledWorker :=
  {| worker := worker w;
     busy := (0 <? size (delete (id m) (pendingTasks w)))%nat;
     taskCount := taskCount w + 1;
     pendingTasks := delete (id m) (pendingTasks w) |}.

(** How an answer settles the promise of its task. *)
Definition verdict (m : WasmWorkerMessage) (k : nat) (ps : list Promise)
  : list Promise :=
  match type m with
  | t_error => settle k (Rejected (PlainError (default "" (payload m)))) ps
  | t_result => settle k (Resolved m) ps
  | _ => ps
  end.

End AnswersDefs.

Section PoolSamplesDefs.
Import WorkerPool.

(** The [result] message a worker posts at the end of [handleInit]. *)
Definition init_reply (tid : TaskId) : WasmWorkerMessage :=
  {| type := t_result; id := tid; payload := None; operation := None;
     args := []; transferBuffers := None; result := Some 0%float;
     executionTimeMs := 0%float |}.

(** Workers [i], [i + 1], ... answer their [init] message; those of
    [init_begin] on a new pool carry the ids [(1, now)], [(2, now)], ... *)
Fixpoint reply_inits (count i : nat) (now : Z) (p : WasmWorkerPool)
  : WasmWorkerPool :=
  match count with
  | O => p
  | S count' =>
      reply_inits count' (S i) now
        (fst (handleWorkerMessage (in_pool i) (init_reply (Z.of_nat (S i), now))
                1%float p))
  end.

(** A new pool after [init(W)] has completed in a browser. *)
Definition ready_pool (W : nat) : WasmWorkerPool :=
  match init_begin true W "/wasm/computation.wasm" 1000 0%float new_pool with
  | (Some awaited, p) => init_finish awaited (reply_inits W 0 1000 p)
  | (None, p) => p
  end.

(** The request of the demo: [compute('stats_mean', [65536, 10000])]. *)
Definition mean_request : Submission :=
  {| sub_operation := e_stats_mean; sub_args := [65536; 10000];
     sub_buffers := None; sub_now := 2000; sub_now_ms := 2%float |}.

(** One worker, eleven requests: ten pending on the worker, one queued. *)
Definition saturated : WasmWorkerPool :=
  snd (submit mean_request
         (snd (submit_all (replicate 10 mean_request) (ready_pool 1)))).

(** An answer to the request with id [tid]. *)
Definition answer (tid : TaskId) : WasmWorkerMessage :=
  {| type := t_result; id := tid; payload := None; operation := None;
     args := []; transferBuffers := None; result := Some 2.5%float;
     executionTimeMs := 1%float |}.

End PoolSamplesDefs.

Section TerminateDefs.
Import WorkerPool.

(** The promise [k] is held by some pending task of [ws]. *)
Definition held_by (k : nat) (ws : list PooledWorker) : Prop :=
  exists w tid task, w ∈ ws /\ pendingTasks w !! tid = Some task
                     /\ promise task = k.

End TerminateDefs.

Section StatisticsDefs.
Import Wat.

(** The doubles [xs] lie in memory at [ptr]: an aligned range inside the
    buffer (itself within the 4 GiB an i32 addresses) whose cells hold
    them. *)
Record holds (m : Memory) (ptr : Z) (xs : list float) : Prop := {
  holds_lo : 0 <= ptr;
  holds_aligned : ptr mod 8 = 0;
  holds_hi : ptr + 8 * Z.of_nat (length xs) <= byteLength m;
  holds_mem : byteLength m <= 2 ^ 32;
  holds_cells : forall k x, xs !! k = Some x -> cell m (ptr + 8 * Z.of_nat k) = x;
}.

(** The sample statistics as the specification words them, in binary64 and
    summing from the first element on: the mean [Σ v_i / len] and the
    Bessel-corrected variance [Σ (v_i - mean)^2 / (len - 1)]. *)
Definition float_sum (xs : list float) : float :=
  fold_left PrimFloat.add xs 0%float.




End StatisticsDefs.

Section StatisticsClaimsDefs.
Import Wat.

(** The memory of a fresh instance with the doubles [xs] written at the
    start of the heap. *)
Definition heap_with (xs : list float) : Memory :=
  write_cells (memory instantiate) 65536 xs.

End StatisticsClaimsDefs.

Section TransposeDefs.
Import Wat.

(** The byte range of [n] doubles at [p] is an aligned range of the
    buffer. *)
Record region (m : Memory) (p n : Z) : Prop := {
  region_lo : 0 <= p;
  region_aligned : p mod 8 = 0;
  region_hi : p + 8 * n <= byteLength m;
}.

Definition separate (p q n : Z) : Prop := p + 8 * n <= q \/ q + 8 * n <= p.

(** Element [(i, j)] is written before the loops reach [(i0, j0)]. *)
Definition before (i0 j0 i j : Z) : Prop := i < i0 \/ (i = i0 /\ j < j0).

(** The memory [mc] while the loops of [mat_transpose a b rows cols],
    started in [m], are at [(i0, j0)]: the elements written so far are in
    place in [B], everything outside [B] is as it was. *)
Record transposing (m : Memory) (a b rows cols i0 j0 : Z) (mc : Memory) : Prop := {
  pr_size : byteLength mc = byteLength m;
  pr_done : forall i j, 0 <= i < rows -> 0 <= j < cols -> before i0 j0 i j ->
                        cell mc (b + 8 * (j * rows + i)) = cell m (a + 8 * (i * cols + j));
  pr_rest : forall addr, addr < b \/ b + 8 * (rows * cols) <= addr ->
                         cell mc addr = cell m addr;
}.

End TransposeDefs.

Section KernelDefs.
Import Wat.

(** [sum(a[i] * b[i])] and [sum(v[i]^2)] in binary64, summing from the
    first element on. *)
Definition dot_product (xs ys : list float) : float :=
  fold_left (fun acc p => (acc + fst p * snd p)%float) (zip xs ys) 0%float.

Definition sum_of_squares (xs : list float) : float :=
  fold_left (fun acc x => (acc + x * x)%float) xs 0%float.

(** Two ranges of [n] doubles are the same range or share no byte. *)
Definition same_or_apart (p q n : Z) : Prop := p = q \/ separate p q n.

(** A kernel that ran from [m] to [m'] wrote nothing outside the [n]
    doubles at [p] and left the size of the memory as it was. *)
Record wrote_only (m m' : Memory) (p n : Z) : Prop := {
  wo_size : byteLength m' = byteLength m;
  wo_rest : forall addr, addr < p \/ p + 8 * n <= addr -> cell m' addr = cell m addr;
}.

(** The memory [mc] of an element-wise loop that reads [xs] at [a] and
    writes [zs] at [out], before iteration [i]: the elements below [i] are
    written, those of [xs] from [i] on are still there. *)
Record pointwise (m : Memory) (a out : Z) (xs zs : list float) (i : nat)
  (mc : Memory) : Prop := {
  pw_size : byteLength mc = byteLength m;
  pw_done : forall k z, (k < i)%nat -> zs !! k = Some z ->
                        cell mc (out + 8 * Z.of_nat k) = z;
  pw_todo : forall k x, (i <= k)%nat -> xs !! k = Some x ->
                        cell mc (a + 8 * Z.of_nat k) = x;
  pw_rest : forall addr, addr < out \/ out + 8 * Z.of_nat (length xs) <= addr ->
                         cell mc addr = cell m addr;
}.

(** The ranges of [n] doubles at [p] and of [n'] doubles at [q] share no
    byte. *)
Definition disjoint_ranges (p n q n' : Z) : Prop :=
  p + 8 * n <= q \/ q + 8 * n' <= p.

(** [A[i][0..k) . B[0..k)[j]] read from the memory, accumulated from
    [l = 0] on as [mat_multiply] does. *)
Definition row_times_column (m : Memory) (a b k n i j : Z) : float :=
  fold_left (fun acc l =>
               (acc + cell m (a + 8 * (i * k + l)) * cell m (b + 8 * (l * n + j)))%float)
    (seqZ 0 k) 0%float.

(** The memory [mc] while [mat_multiply a b c m k n], started in [mem],
    is about to compute element [(i0, j0)] of [C]: the elements before it
    are in place, everything outside [C] is as it was. *)
Record multiplying (mem : Memory) (a b c m k n i0 j0 : Z) (mc : Memory) : Prop := {
  mu_size : byteLength mc = byteLength mem;
  mu_done : forall i j, 0 <= i < m -> 0 <= j < n -> before i0 j0 i j ->
                        cell mc (c + 8 * (i * n + j)) = row_times_column mem a b k n i j;
  mu_rest : forall addr, addr < c \/ c + 8 * (m * n) <= addr ->
                         cell mc addr = cell mem addr;
}.

(** [output[i]] of [signal_convolve]: the products whose input index
    [i + kernel_len / 2 - j] lies in the input, accumulated from [j = 0]
    on. *)
Definition convolution_at (m : Memory) (input kernel input_len kernel_len i : Z)
  : float :=
  fold_left (fun acc j =>
               let t := i + kernel_len / 2 - j in
               if (0 <=? t) && (t <? input_len)
               then (acc + cell m (input + 8 * t) * cell m (kernel + 8 * j))%float
               else acc)
    (seqZ 0 kernel_len) 0%float.

(** The memory [mc] while [signal_convolve], started in [m], is about to
    compute [output[i0]]. *)
Record convolving (m : Memory) (input kernel output input_len kernel_len : Z)
  (i0 : Z) (mc : Memory) : Prop := {
  cv_size : byteLength mc = byteLength m;
  cv_done : forall i, 0 <= i < i0 ->
                      cell mc (output + 8 * i)
                      = convolution_at m input kernel input_len kernel_len i;
  cv_rest : forall addr, addr < output \/ output + 8 * input_len <= addr ->
                         cell mc addr = cell m addr;
}.

End KernelDefs.

Section ManagerDefs.
Import MemoryManager.

(** The bytes of the blocks tracked in the allocations map. *)
Definition live_bytes (al : gmap Z MemoryBlock) : Z :=
  map_fold (fun _ b acc => MemoryBlock.size b + acc) 0 al.

End ManagerDefs.

Section ViewDefs.
Import MemoryManager.

(** The vector [v] is usable in [w]: its pointer and length describe a
    [Float64Array] on the current buffer, and that view is the one the
    vector was created with and the one its signal holds. *)
Record vector_ok (w : World) (v : WasmVector.t) : Prop := {
  vo_view : new_view Float64Array (Wat.memory (instance w)) (WasmVector.ptr v)
              (WasmVector.length v)
            = Some (WasmBackedArray.view (WasmVector.allocated v));
  vo_data : WasmVector._data v = WasmBackedArray.view (WasmVector.allocated v);
}.

(** The same for a matrix, whose view has [rows * cols] elements. *)
Record matrix_ok (w : World) (x : WasmMatrix.t) : Prop := {
  mo_view : new_view Float64Array (Wat.memory (instance w)) (WasmMatrix.ptr x)
              (WasmMatrix.size x)
            = Some (WasmBackedArray.view (WasmMatrix.allocated x));
  mo_data : WasmMatrix._data x = WasmBackedArray.view (WasmMatrix.allocated x);
  mo_rows : 0 <= WasmMatrix.rows (WasmMatrix.dimensions x);
  mo_cols : 0 <= WasmMatrix.cols (WasmMatrix.dimensions x);
}.

End ViewDefs.

Section RejectionDefs.
Import WorkerPool.

(** From [ps] to [ps'] promises were only settled, and only with [s]: no
    promise was added or dropped, no chain changed, and a promise whose
    state changed was pending and now has state [s]. *)
Definition settled_with (s : Settlement) (ps ps' : list Promise) : Prop :=
  length ps' = length ps
  /\ forall j pr, ps !! j = Some pr ->
       exists pr', ps' !! j = Some pr' /\ chained pr' = chained pr
                   /\ (state pr' = state pr
                       \/ (state pr = Pending /\ state pr' = s)).

(** The state promise [k] has once it was rejected with [e]: a promise
    that was already settled keeps its state. *)
Definition rejected_from (e : JsError) (before : Settlement) : Settlement :=
  if is_pending before then Rejected e else before.

End RejectionDefs.

Section MatrixSamplesDefs.
Import MemoryManager Engine.

(** The state of a 2 by 2 matrix [[5, 6], [7, 8]] created by the engine on
    a fresh world. *)
Definition matrix22 : World * WasmMatrix.t :=
  match WasmSignalEngine.createMatrixSignal 2 2
          (Some (inr [5; 6; 7; 8]%float)) 1
          (fresh, WasmSignalEngine.after_init) with
  | Normal x s => (fst s, x)
  | Throw _ s => (fst s, WasmMatrix.new
                    (WasmBackedArray.mk 0 0
                       {| view_ctor := Float64Array; view_gen := 0;
                          byteOffset := 0; view_length := 0 |})
                    {| WasmMatrix.rows := 0; WasmMatrix.cols := 0 |})
  end.

End MatrixSamplesDefs.

Section PoolRunDefs.
Import WorkerPool.

(** What happens to a pool: the calls of its public methods (those of
    [init] and [parallelMap] in the two parts their [await] separates) and
    the events of its workers. *)
Inductive PoolEvent :=
| InitCalled (isBrowser : bool) (workerCount : nat) (wasmPath : string)
    (now : Z) (now_ms : float)
| InitResumed (awaited : list nat)
| ComputeCalled (r : Submission)
| ParallelMapCalled (data : list float) (chunkOperation : Export) (now : Z)
    (now_ms : float)
| MessageReceived (r : WorkerRef) (m : WasmWorkerMessage) (now : float)
| ErrorReceived (r : WorkerRef) (e : JsError)
| TerminateCalled.

Definition happen (p : WasmWorkerPool) (ev : PoolEvent) : WasmWorkerPool :=
  match ev with
  | InitCalled isBrowser workerCount wasmPath now now_ms =>
      snd (init_begin isBrowser workerCount wasmPath now now_ms p)
  | InitResumed awaited => init_finish awaited p
  | ComputeCalled r => snd (submit r p)
  | ParallelMapCalled data chunkOperation now now_ms =>
      snd (parallelMap_begin data chunkOperation now now_ms p)
  | MessageReceived r m now => fst (handleWorkerMessage r m now p)
  | ErrorReceived r e => handleWorkerError r e p
  | TerminateCalled => terminate p
  end.

(** The states of a pool: the new pool, and what any event makes of one. *)
Inductive pool_reachable : WasmWorkerPool -> Prop :=
| pool_new : pool_reachable new_pool
| pool_next p ev : pool_reachable p -> pool_reachable (happen p ev).

(** The request [tid] is pending on worker [i]. *)
Definition pending_on (p : WasmWorkerPool) (i : nat) (tid : TaskId) : Prop :=
  exists w, workers p !! i = Some w /\ is_Some (pendingTasks w !! tid).

(** The ids of the queued requests, oldest first. *)
Definition queued_ids (p : WasmWorkerPool) : list TaskId :=
  map (fun q => id (message q)) (taskQueue p).

(** The counters agree with the workers and the queue, and no two requests
    of the pool share an id. *)
Record pool_ok (p : WasmWorkerPool) : Prop := {
  po_queued : _queuedTasks p = Z.of_nat (length (taskQueue p));
  po_active : _activeWorkers p
              = Z.of_nat (length (filter (fun w => busy w = true) (workers p)));
  po_busy : forall i w, workers p !! i = Some w -> busy w = (0 <? load w)%nat;
  po_total : 0 <= _totalTasksCompleted p;
  po_pending : forall i tid, pending_on p i tid -> fst tid <= taskIdCounter p;
  po_waiting : forall tid, tid ∈ queued_ids p -> fst tid <= taskIdCounter p;
  po_one : forall i j tid, pending_on p i tid -> pending_on p j tid -> i = j;
  po_either : forall i tid, pending_on p i tid -> tid ∉ queued_ids p;
  po_queue : NoDup (queued_ids p);
}.

End PoolRunDefs.

(** * Properties *)

(** ** i32 arithmetic of the bump allocator *)

Section I32Facts.

Lemma wrap32_small z : 0 <= z < 2 ^ 32 -> Wat.wrap32 z = z.
Proof. intros H. unfold Wat.wrap32. apply Z.mod_small. exact H. Qed.

Lemma signed32_small z : 0 <= z < 2 ^ 31 -> Wat.signed32 z = z.
Proof.
  intros H. unfold Wat.signed32.
  destruct (z <? 2 ^ 31) eqn:E; [reflexivity|].
  apply Z.ltb_ge in E. lia.
Qed.

Lemma testbit_small x n : 0 <= x < 2 ^ 32 -> 32 <= n -> Z.testbit x n = false.
Proof.
  intros Hx Hn.
  destruct (Z.eq_dec x 0) as [->|Hne]; [apply Z.bits_0|].
  apply Z.bits_above_log2; [lia|].
  assert (Z.log2 x < 32); [|lia].
  apply Z.log2_lt_pow2; lia.
Qed.

Lemma land_mask8 x : 0 <= x < 2 ^ 32 -> Z.land x (2 ^ 32 - 8) = 8 * (x / 8).
Proof.
  intros Hx.
  replace (2 ^ 32 - 8) with (Z.shiftl (Z.ones 29) 3) by reflexivity.
  replace (8 * (x / 8)) with (Z.shiftl (Z.shiftr x 3) 3)
    by (rewrite Z.shiftl_mul_pow2, Z.shiftr_div_pow2 by lia;
        change (2 ^ 3) with 8; lia).
  apply Z.bits_inj'. intros n Hn.
  rewrite Z.land_spec.
  destruct (Z.lt_ge_cases n 3) as [Hlt|Hge].
  - rewrite !Z.shiftl_spec_low by lia. apply andb_false_r.
  - rewrite !Z.shiftl_spec by lia. rewrite Z.shiftr_spec by lia.
    replace (n - 3 + 3) with n by lia.
    destruct (Z.lt_ge_cases n 32) as [Hlo|Hhi].
    + rewrite Z.ones_spec_low by lia. apply andb_true_r.
    + rewrite (testbit_small x n) by lia. reflexivity.
Qed.

Lemma align8_ge n : n <= align8 n.
Proof. unfold align8. pose proof (Z.div_mod (n + 7) 8). pose proof (Z.mod_pos_bound (n + 7) 8). lia. Qed.

Lemma align8_lt n : align8 n < n + 8.
Proof. unfold align8. pose proof (Z.div_mod (n + 7) 8). pose proof (Z.mod_pos_bound (n + 7) 8). lia. Qed.

Lemma align8_mod n : align8 n mod 8 = 0.
Proof. unfold align8. rewrite Z.mul_comm. apply Z.mod_mul. lia. Qed.

(** Below a multiple of 8, rounding up stays below it. *)
Lemma align8_le_multiple n k : k mod 8 = 0 -> n <= k -> align8 n <= k.
Proof.
  intros Hk Hn. unfold align8.
  pose proof (Z.div_mod k 8). pose proof (Z.div_mod (n + 7) 8).
  pose proof (Z.mod_pos_bound (n + 7) 8).
  lia.
Qed.

Lemma wat_allocate_spec size w :
  0 <= size < 2 ^ 31 ->
  0 <= Wat.heap_ptr w -> Wat.heap_ptr w + align8 size < 2 ^ 32 ->
  Wat.allocate size w
  = (Wat.heap_ptr w, Wat.set_heap_ptr (Wat.heap_ptr w + align8 size) w).
Proof.
  intros Hs Hh Hsum. unfold Wat.allocate, Wat.i32_add, Wat.i32_and, Wat.i32_const.
  pose proof (align8_ge size).
  rewrite (wrap32_small 7) by lia.
  rewrite (wrap32_small (size + 7)) by lia.
  change (Wat.wrap32 (-8)) with (2 ^ 32 - 8).
  rewrite land_mask8 by lia.
  fold (align8 size).
  rewrite wrap32_small by lia. reflexivity.
Qed.

End I32Facts.

(** ** The best-fit scan of [findFreeBlock] *)

Section BestFit.
Import MemoryManager.

Lemma best_fit_unique n l i b i' b' :
  best_fit n l i b -> best_fit n l i' b' -> i = i' /\ b = b'.
Proof.
  intros (Hi & Hn & Hmin) (Hi' & Hn' & Hmin').
  destruct (Hmin _ _ Hi' Hn') as [H1 H2].
  destruct (Hmin' _ _ Hi Hn) as [H3 H4].
  assert (i = i') as ->.
  { destruct (Nat.lt_trichotomy i i') as [Hlt|[Heq|Hgt]]; [|exact Heq|].
    - specialize (H4 Hlt). lia.
    - specialize (H2 Hgt). lia. }
  split; [reflexivity|congruence].
Qed.

Lemma scan_state_step n pre block bestIndex bestSize :
  scan_state n pre bestIndex bestSize ->
  if (n <=? MemoryBlock.size block) && below (MemoryBlock.size block) bestSize
  then scan_state n (pre ++ [block]) (Z.of_nat (length pre))
         (Some (MemoryBlock.size block))
  else scan_state n (pre ++ [block]) bestIndex bestSize.
Proof.
  intros [(-> & -> & Hno)|(k & b & -> & -> & Hi & Hn & Hmin)]; simpl.
  - rewrite andb_true_r. destruct (n <=? MemoryBlock.size block) eqn:E.
    + apply Z.leb_le in E. right. exists (length pre), block.
      split; [reflexivity|]. split; [reflexivity|].
      split; [apply list_lookup_middle; reflexivity|]. split; [exact E|].
      intros j b' Hj Hfit. apply lookup_app_Some in Hj as [Hj|[Hge Hj]].
      * specialize (Hno _ _ Hj). lia.
      * apply list_lookup_singleton_Some in Hj as [_ <-]. lia.
    + apply Z.leb_gt in E. left. split; [reflexivity|]. split; [reflexivity|].
      intros j b' Hj. apply lookup_app_Some in Hj as [Hj|[Hge Hj]].
      * exact (Hno _ _ Hj).
      * apply list_lookup_singleton_Some in Hj as [_ <-]. exact E.
  - pose proof (lookup_lt_Some _ _ _ Hi) as Hk.
    destruct (n <=? MemoryBlock.size block) eqn:E;
      destruct (MemoryBlock.size block <? MemoryBlock.size b) eqn:E'; simpl.
    + apply Z.leb_le in E. apply Z.ltb_lt in E'.
      right. exists (length pre), block.
      split; [reflexivity|]. split; [reflexivity|].
      split; [apply list_lookup_middle; reflexivity|]. split; [exact E|].
      intros j b' Hj Hfit. apply lookup_app_Some in Hj as [Hj|[Hge Hj]].
      * destruct (Hmin _ _ Hj Hfit). lia.
      * apply list_lookup_singleton_Some in Hj as [_ <-]. lia.
    + apply Z.ltb_ge in E'.
      right. exists k, b. split; [reflexivity|]. split; [reflexivity|].
      split; [apply lookup_app_l_Some; exact Hi|]. split; [exact Hn|].
      intros j b' Hj Hfit. apply lookup_app_Some in Hj as [Hj|[Hge Hj]].
      * exact (Hmin _ _ Hj Hfit).
      * apply list_lookup_singleton_Some in Hj as [_ <-]. lia.
    + apply Z.leb_gt in E.
      right. exists k, b. split; [reflexivity|]. split; [reflexivity|].
      split; [apply lookup_app_l_Some; exact Hi|]. split; [exact Hn|].
      intros j b' Hj Hfit. apply lookup_app_Some in Hj as [Hj|[Hge Hj]].
      * exact (Hmin _ _ Hj Hfit).
      * apply list_lookup_singleton_Some in Hj as [_ <-]. lia.
    + apply Z.leb_gt in E.
      right. exists k, b. split; [reflexivity|]. split; [reflexivity|].
      split; [apply lookup_app_l_Some; exact Hi|]. split; [exact Hn|].
      intros j b' Hj Hfit. apply lookup_app_Some in Hj as [Hj|[Hge Hj]].
      * exact (Hmin _ _ Hj Hfit).
      * apply list_lookup_singleton_Some in Hj as [_ <-]. lia.
Qed.

Lemma scan_invariant n rest : forall pre bestIndex bestSize,
  scan_state n pre bestIndex bestSize ->
  exists bestSize',
    scan_state n (pre ++ rest)
      (scan n rest (Z.of_nat (length pre)) bestIndex bestSize) bestSize'.
Proof.
  induction rest as [|block rest IH]; intros pre bestIndex bestSize Hst; simpl.
  - rewrite app_nil_r. eauto.
  - pose proof (scan_state_step n pre block bestIndex bestSize Hst) as Hstep.
    replace (Z.of_nat (length pre) + 1) with (Z.of_nat (length (pre ++ [block])))
      by (rewrite length_app; simpl; lia).
    replace (pre ++ block :: rest) with ((pre ++ [block]) ++ rest)
      by (rewrite <- app_assoc; reflexivity).
    destruct ((n <=? MemoryBlock.size block)
              && below (MemoryBlock.size block) bestSize); apply IH; exact Hstep.
Qed.

(** What the scan returns on a whole free list. *)
Lemma scan_spec n l :
  (scan n l 0 (-1) None = -1 /\ no_fit n l)
  \/ (exists k b, scan n l 0 (-1) None = Z.of_nat k /\ best_fit n l k b).
Proof.
  destruct (scan_invariant n l [] (-1) None) as [bs Hst].
  { left. split; [reflexivity|]. split; [reflexivity|]. intros i b Hi. discriminate Hi. }
  simpl in Hst.
  destruct Hst as [(H & _ & Hno)|(k & b & H & _ & Hbest)]; [left|right]; eauto.
Qed.

(** The index the scan returns is [-1] or an index of the list. *)
Lemma scan_range n l :
  scan n l 0 (-1) None = -1
  \/ 0 <= scan n l 0 (-1) None < Z.of_nat (length l).
Proof.
  destruct (scan_spec n l) as [[H _]|(k & b & H & Hi & _)]; [left; exact H|right].
  apply lookup_lt_Some in Hi. lia.
Qed.

Lemma findFreeBlock_hit n m i b :
  best_fit n (freeList m) i b ->
  findFreeBlock n m
  = (MemoryBlock.ptr b, set_freeList (delete i (freeList m)) m).
Proof.
  intros Hbest. unfold findFreeBlock.
  destruct (scan_spec n (freeList m)) as [[_ Hno]|(k & b' & -> & Hbest')].
  - destruct Hbest as (Hi & Hn & _). specialize (Hno _ _ Hi). lia.
  - destruct (best_fit_unique _ _ _ _ _ _ Hbest Hbest') as [<- <-].
    replace (Z.of_nat i =? -1) with false by (symmetry; apply Z.eqb_neq; lia).
    simpl. rewrite Nat2Z.id. destruct Hbest as (-> & _). reflexivity.
Qed.

Lemma findFreeBlock_miss n m :
  no_fit n (freeList m) -> findFreeBlock n m = (-1, m).
Proof.
  intros Hno. unfold findFreeBlock.
  destruct (scan_spec n (freeList m)) as [[-> _]|(k & b & _ & Hi & Hn & _)].
  - reflexivity.
  - specialize (Hno _ _ Hi). lia.
Qed.

(** Either some block is the best fit, or none fits. *)
Lemma best_fit_or_no_fit n l :
  no_fit n l \/ exists i b, best_fit n l i b.
Proof.
  destruct (scan_spec n l) as [[_ H]|(k & b & _ & H)]; [left|right]; eauto.
Qed.

End BestFit.

(** ** Well-formed allocator states *)

Section Allocator.
Import MemoryManager.

Lemma apart_no_overlap a b : apart a b -> ~ overlap a b.
Proof. intros [H|H] (x & Ha & Hb); lia. Qed.

Lemma apart_sym a b : apart a b -> apart b a.
Proof. unfold apart. tauto. Qed.

Lemma instance_ok_bound inst :
  instance_ok inst -> Wat.byteLength (Wat.memory inst) < 2 ^ 31.
Proof.
  intros [_ _ _ Hp Hm]. unfold Wat.byteLength, Wat.PAGE_SIZE.
  change (2 ^ 31) with (32768 * 65536). lia.
Qed.

Lemma byteLength_mod8 m : Wat.byteLength m mod 8 = 0.
Proof.
  unfold Wat.byteLength, Wat.PAGE_SIZE.
  replace (Wat.mem_pages m * 65536) with (Wat.mem_pages m * 8192 * 8) by lia.
  apply Z.mod_mul. lia.
Qed.

Lemma instantiate_ok : instance_ok Wat.instantiate.
Proof. split; simpl; unfold RESERVED_BYTES, Wat.byteLength, Wat.PAGE_SIZE; simpl; lia || reflexivity. Qed.

Lemma updateMetrics_allocations o n m :
  allocations (updateMetrics o n m) = allocations m.
Proof. unfold updateMetrics. destruct (negb _); reflexivity. Qed.

Lemma updateMetrics_freeList o n m :
  freeList (updateMetrics o n m) = freeList m.
Proof. unfold updateMetrics. destruct (negb _); reflexivity. Qed.

Lemma updateMetrics_config o n m : config (updateMetrics o n m) = config m.
Proof. unfold updateMetrics. destruct (negb _); reflexivity. Qed.

Lemma updateMetrics_wasm o n m : wasm (updateMetrics o n m) = wasm m.
Proof. unfold updateMetrics. destruct (negb _); reflexivity. Qed.

Lemma Inv_initialize inst c w : instance_ok inst -> Inv (initialize inst c w).
Proof.
  intros Hok. unfold Inv. simpl. split; try exact Hok;
    intros; try (rewrite lookup_empty in *); discriminate.
Qed.

(** *** [ensureCapacity] *)

(** What JavaScript computes as [availableBytes] is the capacity minus the
    heap cursor. *)
Lemma heap_usage_ok inst :
  instance_ok inst ->
  js_get_heap_usage inst = Wat.heap_ptr inst - RESERVED_BYTES.
Proof.
  intros Hok. pose proof (instance_ok_bound inst Hok) as Hb.
  destruct Hok as [Hlo _ Hhi _ _]. unfold RESERVED_BYTES in *.
  unfold js_get_heap_usage, Wat.get_heap_usage, Wat.i32_sub, Wat.i32_const.
  rewrite (wrap32_small 65536) by lia.
  rewrite wrap32_small by lia. apply signed32_small. lia.
Qed.

Lemma ensureCapacity_unfold bytesNeeded w :
  instance_ok (instance w) -> wasm (manager w) = true ->
  ensureCapacity bytesNeeded w
  = if available (instance w) <? bytesNeeded then
      if negb (autoGrow (config (manager w))) then
        Throw (WasmError OUT_OF_MEMORY) w
      else
        let additionalPages :=
          ceil_div (bytesNeeded - available (instance w)) BYTES_PER_PAGE in
        if maxPages (config (manager w))
           <? Wat.mem_pages (Wat.memory (instance w)) + additionalPages
        then Throw (WasmError OUT_OF_MEMORY) w
        else match memory_grow additionalPages (Wat.memory (instance w)) with
             | Some mem' => Normal tt (grown mem' w)
             | None => Throw RangeError w
             end
    else Normal tt w.
Proof.
  intros Hok Hw. unfold ensureCapacity, bind, getWasm. rewrite Hw.
  rewrite (heap_usage_ok _ Hok). unfold available.
  replace (Wat.byteLength (Wat.memory (instance w))
           - (Wat.heap_ptr (instance w) - RESERVED_BYTES) - RESERVED_BYTES)
    with (Wat.byteLength (Wat.memory (instance w)) - Wat.heap_ptr (instance w))
    by lia.
  replace (Wat.byteLength (Wat.memory (instance w)) / BYTES_PER_PAGE)
    with (Wat.mem_pages (Wat.memory (instance w)))
    by (unfold Wat.byteLength, Wat.PAGE_SIZE, BYTES_PER_PAGE;
        symmetry; apply Z.div_mul; lia).
  reflexivity.
Qed.

(** [ceil_div a b] is the least number of [b]-sized pages that cover [a]. *)
Lemma ceil_div_spec a b :
  0 < b -> (ceil_div a b - 1) * b < a <= ceil_div a b * b.
Proof.
  intros Hb. unfold ceil_div.
  pose proof (Z.div_mod (- a) b). pose proof (Z.mod_pos_bound (- a) b). nia.
Qed.

Lemma memory_grow_spec delta m m' :
  memory_grow delta m = Some m' ->
  0 <= delta /\ Wat.mem_pages m + delta <= Wat.mem_max m
  /\ Wat.mem_pages m' = Wat.mem_pages m + delta
  /\ Wat.mem_max m' = Wat.mem_max m
  /\ Wat.mem_cells m' = Wat.mem_cells m
  /\ Wat.mem_gen m' = S (Wat.mem_gen m).
Proof.
  unfold memory_grow. intros H.
  destruct (delta <? 0) eqn:E1; [discriminate|].
  destruct (Wat.mem_max m <? Wat.mem_pages m + delta) eqn:E2; [discriminate|].
  simpl in H. injection H as <-. simpl.
  apply Z.ltb_ge in E1, E2. repeat split; lia || reflexivity.
Qed.

(** After a successful [ensureCapacity] the request fits above the heap
    cursor, which has not moved; only the memory can have changed, by a
    [grow]. *)
Lemma ensureCapacity_normal bytesNeeded w u w' :
  instance_ok (instance w) -> wasm (manager w) = true ->
  ensureCapacity bytesNeeded w = Normal u w' ->
  manager w' = manager w
  /\ Wat.heap_ptr (instance w') = Wat.heap_ptr (instance w)
  /\ instance_ok (instance w')
  /\ bytesNeeded <= available (instance w')
  /\ (instance w' = instance w
      \/ exists k mem', memory_grow k (Wat.memory (instance w)) = Some mem'
                        /\ instance w' = Wat.set_memory mem' (instance w)).
Proof.
  intros Hok Hw. rewrite ensureCapacity_unfold by assumption.
  destruct (available (instance w) <? bytesNeeded) eqn:E.
  - destruct (negb _); [done|]. cbv zeta.
    destruct (maxPages _ <? _) eqn:E2; [done|].
    destruct (memory_grow _ _) as [mem'|] eqn:Eg; [|done].
    intros [= <- <-].
    pose proof (memory_grow_spec _ _ _ Eg) as (Hd & Hmax & Hp & Hm & Hc & Hgen).
    pose proof (ceil_div_spec (bytesNeeded - available (instance w)) BYTES_PER_PAGE
                  ltac:(reflexivity)) as [_ Hceil].
    destruct Hok as [Hlo Hal Hhi Hpm Hms].
    unfold grown, available, Wat.byteLength, Wat.PAGE_SIZE, BYTES_PER_PAGE in *.
    simpl.
    split; [reflexivity|]. split; [reflexivity|].
    split; [split; simpl; unfold Wat.byteLength, Wat.PAGE_SIZE; simpl;
            rewrite ?Hp, ?Hm; lia|].
    split; [rewrite Hp; lia|]. right. eauto.
  - intros [= <- <-]. apply Z.ltb_ge in E.
    split; [reflexivity|]. split; [reflexivity|]. split; [exact Hok|].
    split; [exact E|]. left. reflexivity.
Qed.

(** A throw of [ensureCapacity] leaves the state as it was. *)
Lemma ensureCapacity_throw bytesNeeded w e w' :
  ensureCapacity bytesNeeded w = Throw e w' -> w' = w.
Proof.
  unfold ensureCapacity, bind, getWasm.
  destruct (wasm (manager w)); [|intros H; injection H as _ <-; reflexivity].
  cbv zeta. destruct (_ <? bytesNeeded); [|done].
  destruct (negb _); [intros H; injection H as _ <-; reflexivity|].
  destruct (_ <? _); [intros H; injection H as _ <-; reflexivity|].
  destruct (memory_grow _ _); [done|].
  intros H; injection H as _ <-; reflexivity.
Qed.

End Allocator.

(** ** [allocate], case by case *)

Section Allocate.
Import MemoryManager.

Lemma set_manager_id w : set_manager (manager w) w = w.
Proof. destruct w. reflexivity. Qed.

Lemma set_freeList_id m : set_freeList (freeList m) m = m.
Proof. destruct m. reflexivity. Qed.

Lemma bytes_per_element_divides C : exists k, 8 = k * BYTES_PER_ELEMENT C.
Proof. destruct C; simpl; [exists 1|exists 2|exists 2|exists 8|exists 2]; reflexivity. Qed.

Lemma bytes_per_element_pos C : 0 < BYTES_PER_ELEMENT C.
Proof. destruct C; simpl; lia. Qed.

Lemma mod8_mod_bpe p C : p mod 8 = 0 -> p mod BYTES_PER_ELEMENT C = 0.
Proof.
  intros Hp. destruct (bytes_per_element_divides C) as [k Hk].
  pose proof (bytes_per_element_pos C) as Hpos.
  apply Z.mod_divide in Hp; [|lia]. destruct Hp as [q ->].
  rewrite Hk. replace (q * (k * BYTES_PER_ELEMENT C)) with (q * k * BYTES_PER_ELEMENT C) by lia.
  apply Z.mod_mul. lia.
Qed.

(** A range inside the buffer, at a multiple of 8, always gets its view. *)
Lemma new_view_some C m p len :
  0 <= p -> p mod 8 = 0 -> 0 <= len ->
  p + len * BYTES_PER_ELEMENT C <= Wat.byteLength m ->
  new_view C m p len
  = Some {| view_ctor := C; view_gen := Wat.mem_gen m;
            byteOffset := p; view_length := len |}.
Proof.
  intros Hp Hal Hlen Hend. unfold new_view.
  replace (p <? 0) with false by (symmetry; apply Z.ltb_ge; lia).
  replace (len <? 0) with false by (symmetry; apply Z.ltb_ge; lia).
  rewrite (mod8_mod_bpe p C Hal).
  replace (Wat.byteLength m <? _) with false by (symmetry; apply Z.ltb_ge; lia).
  reflexivity.
Qed.

Lemma new_view_inv C m p len v :
  new_view C m p len = Some v ->
  0 <= p /\ 0 <= len /\ p + len * BYTES_PER_ELEMENT C <= Wat.byteLength m.
Proof.
  unfold new_view. intros H.
  destruct (p <? 0) eqn:E1; [discriminate|].
  destruct (len <? 0) eqn:E2; [discriminate|].
  destruct (negb _); [discriminate|].
  destruct (Wat.byteLength m <? _) eqn:E3; [discriminate|].
  apply Z.ltb_ge in E1, E2, E3. lia.
Qed.

(** Reuse: the best fit of the free list is spliced out and handed back;
    the instance is not touched. *)
Lemma allocate_reuse C len label now w i b v :
  wasm (manager w) = true ->
  best_fit (len * BYTES_PER_ELEMENT C) (freeList (manager w)) i b ->
  MemoryBlock.ptr b <> -1 ->
  new_view C (Wat.memory (instance w)) (MemoryBlock.ptr b) len = Some v ->
  allocate C len label now w
  = Normal (WasmBackedArray.mk (MemoryBlock.ptr b) len v)
      (after_allocate (tracked (MemoryBlock.ptr b) C len label now)
         (instance w) (delete i (freeList (manager w))) w).
Proof.
  intros Hw Hbest Hptr Hview.
  unfold allocate, bind, getWasm. rewrite Hw.
  rewrite (findFreeBlock_hit _ _ _ _ Hbest).
  replace (MemoryBlock.ptr b =? -1) with false
    by (symmetry; apply Z.eqb_neq; exact Hptr).
  unfold ret. simpl. rewrite Hview. reflexivity.
Qed.

(** A miss whose [ensureCapacity] throws: [allocate] throws the same error
    and nothing has changed. *)
Lemma allocate_miss_throw C len label now w e w' :
  wasm (manager w) = true ->
  no_fit (len * BYTES_PER_ELEMENT C) (freeList (manager w)) ->
  ensureCapacity (len * BYTES_PER_ELEMENT C) w = Throw e w' ->
  allocate C len label now w = Throw e w.
Proof.
  intros Hw Hno Hens. pose proof (ensureCapacity_throw _ _ _ _ Hens) as ->.
  unfold allocate, bind, getWasm. rewrite Hw.
  rewrite (findFreeBlock_miss _ _ Hno). simpl.
  rewrite set_manager_id, Hens. reflexivity.
Qed.

(** A miss whose [ensureCapacity] succeeds: the block is carved at the heap
    cursor, which advances by the size rounded up to 8. *)
Lemma allocate_bump C len label now w w1 :
  instance_ok (instance w) -> wasm (manager w) = true -> 0 <= len ->
  no_fit (len * BYTES_PER_ELEMENT C) (freeList (manager w)) ->
  ensureCapacity (len * BYTES_PER_ELEMENT C) w = Normal tt w1 ->
  let heap := Wat.heap_ptr (instance w) in
  let v := {| view_ctor := C; view_gen := Wat.mem_gen (Wat.memory (instance w1));
              byteOffset := heap; view_length := len |} in
  allocate C len label now w
  = Normal (WasmBackedArray.mk heap len v)
      (after_allocate (tracked heap C len label now)
         (Wat.set_heap_ptr (heap + align8 (len * BYTES_PER_ELEMENT C)) (instance w1))
         (freeList (manager w)) w).
Proof.
  intros Hok Hw Hlen Hno Hens heap v.
  pose proof (ensureCapacity_normal _ _ _ _ Hok Hw Hens)
    as (Hm & Hheap & Hok1 & Havail & _).
  pose proof (instance_ok_bound _ Hok1) as Hbound.
  pose proof (bytes_per_element_pos C) as Hbpe.
  pose proof (byteLength_mod8 (Wat.memory (instance w1))) as Hbl8.
  destruct Hok1 as [Hlo Hal Hhi _ _]. unfold available, RESERVED_BYTES in *.
  set (bytes := len * BYTES_PER_ELEMENT C) in *.
  assert (0 <= bytes) as Hbytes by (unfold bytes; nia).
  assert (heap_ptr1 : Wat.heap_ptr (instance w1) = heap) by exact Hheap.
  assert (align8 bytes <= Wat.byteLength (Wat.memory (instance w1)) - heap) as Hal8.
  { apply align8_le_multiple; [|lia].
    rewrite <- heap_ptr1. rewrite Zminus_mod, Hbl8, Hal. reflexivity. }
  unfold allocate, bind, getWasm. rewrite Hw. fold bytes.
  rewrite (findFreeBlock_miss _ _ Hno). cbv beta iota zeta.
  rewrite Z.eqb_refl, set_manager_id, Hens.
  unfold js_allocate. rewrite (wrap32_small bytes) by lia.
  rewrite wat_allocate_spec by lia.
  rewrite heap_ptr1. rewrite (signed32_small heap) by lia.
  replace (heap =? 0) with false by (symmetry; apply Z.eqb_neq; lia).
  cbn [andb]. unfold ret, set_instance.
  cbn [instance Wat.memory Wat.set_heap_ptr].
  rewrite (new_view_some C _ heap len)
    by (fold bytes; lia || (rewrite <- heap_ptr1; exact Hal)).
  unfold modify, after_allocate, tracked, set_manager.
  cbn [instance manager MemoryBlock.ptr MemoryBlock.size]. rewrite Hm.
  rewrite set_freeList_id. reflexivity.
Qed.

End Allocate.

(** ** The invariant is kept by every operation *)

Section Preservation.
Import MemoryManager.

Lemma lookup_splice {A} (l : list A) i j : delete i l !! j = l !! skip i j.
Proof.
  unfold skip. destruct (j <? i)%nat eqn:E.
  - apply Nat.ltb_lt in E. apply list_lookup_delete_lt. exact E.
  - apply Nat.ltb_ge in E. apply list_lookup_delete_ge. exact E.
Qed.

Lemma skip_neq i j : skip i j <> i.
Proof. unfold skip. destruct (Nat.ltb_spec j i); lia. Qed.

Lemma skip_inj i j j' : skip i j = skip i j' -> j = j'.
Proof.
  unfold skip.
  destruct (Nat.ltb_spec j i); destruct (Nat.ltb_spec j' i); lia.
Qed.

Lemma block_ok_mono heap heap' b : heap <= heap' -> block_ok heap b -> block_ok heap' b.
Proof. unfold block_ok. intros ? (? & ? & ? & ?). repeat split; lia || assumption. Qed.

(** A block carved out of the front of [f] is apart from whatever [f] is
    apart from. *)
Lemma apart_shrink a f b :
  MemoryBlock.ptr b = MemoryBlock.ptr f ->
  0 <= MemoryBlock.size b <= MemoryBlock.size f ->
  apart a f -> apart a b.
Proof. unfold apart. intros Hp Hs [H|H]; [left|right]; lia. Qed.

Lemma wf_reuse inst al fl n i f b :
  wf inst al fl -> best_fit n fl i f -> 0 <= n ->
  MemoryBlock.ptr b = MemoryBlock.ptr f -> MemoryBlock.size b = n ->
  wf inst (<[MemoryBlock.ptr b := b]> al) (delete i fl).
Proof.
  intros [Hinst Hkey Hal Hfl Haa Haf Hff] (Hi & Hn & _) Hn0 Hp Hs.
  assert (block_ok (Wat.heap_ptr inst) b) as Hb.
  { destruct (Hfl _ _ Hi) as (? & ? & ? & ?). unfold block_ok. rewrite Hp, Hs.
    repeat split; lia || assumption. }
  assert (forall a, apart a f -> apart a b) as Hshrink.
  { intros a. apply apart_shrink; [exact Hp|lia]. }
  split.
  - exact Hinst.
  - intros p x [[<- <-]|[_ H]]%lookup_insert_Some; [reflexivity|eauto].
  - intros p x [[<- <-]|[_ H]]%lookup_insert_Some; [exact Hb|eauto].
  - intros j x. rewrite lookup_splice. eauto.
  - intros p q x y Hne [[<- <-]|[Hp' Hx]]%lookup_insert_Some
      [[<- <-]|[Hq' Hy]]%lookup_insert_Some.
    + congruence.
    + apply apart_sym, Hshrink. exact (Haf _ _ _ _ Hy Hi).
    + apply Hshrink. exact (Haf _ _ _ _ Hx Hi).
    + exact (Haa _ _ _ _ Hne Hx Hy).
  - intros p x j g [[<- <-]|[_ Hx]]%lookup_insert_Some; rewrite lookup_splice; intros Hg.
    + apply apart_sym, Hshrink. apply (Hff _ _ _ _ (skip_neq i j) Hg Hi).
    + exact (Haf _ _ _ _ Hx Hg).
  - intros j j' g g' Hne. rewrite !lookup_splice. apply Hff.
    intros H. apply Hne. eapply skip_inj; eauto.
Qed.

Lemma wf_bump inst inst1 al fl bytes b :
  wf inst al fl -> instance_ok inst1 ->
  Wat.heap_ptr inst1 = Wat.heap_ptr inst ->
  0 <= bytes <= available inst1 ->
  MemoryBlock.ptr b = Wat.heap_ptr inst -> MemoryBlock.size b = bytes ->
  wf (Wat.set_heap_ptr (Wat.heap_ptr inst + align8 bytes) inst1)
     (<[MemoryBlock.ptr b := b]> al) fl.
Proof.
  intros [Hinst Hkey Hal Hfl Haa Haf Hff] Hok1 Hheap Hbytes Hp Hs.
  pose proof (align8_ge bytes) as Hge.
  pose proof (byteLength_mod8 (Wat.memory inst1)) as Hbl8.
  destruct Hok1 as [Hlo1 Hal1 Hhi1 Hpm1 Hms1]. unfold available in Hbytes.
  rewrite Hheap in *.
  assert (align8 bytes <= Wat.byteLength (Wat.memory inst1) - Wat.heap_ptr inst) as Hal8.
  { apply align8_le_multiple; [|lia]. rewrite Zminus_mod, Hbl8, Hal1. reflexivity. }
  assert (block_ok (Wat.heap_ptr inst + align8 bytes) b) as Hb.
  { unfold block_ok. rewrite Hp, Hs. repeat split; lia || assumption. }
  assert (forall a, block_ok (Wat.heap_ptr inst) a -> apart a b) as Hnew.
  { intros a (? & ? & ? & ?). left. lia. }
  split; simpl.
  - split; simpl; try assumption; try lia.
    rewrite Z.add_mod, Hal1, align8_mod by lia. reflexivity.
  - intros p x [[<- <-]|[_ H]]%lookup_insert_Some; [reflexivity|eauto].
  - intros p x [[<- <-]|[_ H]]%lookup_insert_Some; [exact Hb|].
    eapply block_ok_mono; [|eauto]. lia.
  - intros j x Hx. eapply block_ok_mono; [|eauto]. lia.
  - intros p q x y Hne [[<- <-]|[Hp' Hx]]%lookup_insert_Some
      [[<- <-]|[Hq' Hy]]%lookup_insert_Some.
    + congruence.
    + apply apart_sym, Hnew. exact (Hal _ _ Hy).
    + apply Hnew. exact (Hal _ _ Hx).
    + exact (Haa _ _ _ _ Hne Hx Hy).
  - intros p x j g [[<- <-]|[_ Hx]]%lookup_insert_Some Hg.
    + apply apart_sym, Hnew. exact (Hfl _ _ Hg).
    + exact (Haf _ _ _ _ Hx Hg).
  - exact Hff.
Qed.

Lemma wf_dealloc inst al fl p b :
  wf inst al fl -> al !! p = Some b -> wf inst (delete p al) (fl ++ [b]).
Proof.
  intros [Hinst Hkey Hal Hfl Haa Haf Hff] Hb.
  split.
  - exact Hinst.
  - intros q x [_ H]%lookup_delete_Some. eauto.
  - intros q x [_ H]%lookup_delete_Some. eauto.
  - intros j x [H|[_ H]]%lookup_app_Some; [eauto|].
    apply list_lookup_singleton_Some in H as [_ <-]. eauto.
  - intros q q' x y Hne [_ Hx]%lookup_delete_Some [_ Hy]%lookup_delete_Some.
    exact (Haa _ _ _ _ Hne Hx Hy).
  - intros q x j g [Hq Hx]%lookup_delete_Some [H|[_ H]]%lookup_app_Some.
    + exact (Haf _ _ _ _ Hx H).
    + apply list_lookup_singleton_Some in H as [_ <-].
      exact (Haa _ _ _ _ (not_eq_sym Hq) Hx Hb).
  - intros j j' g g' Hne [Hg|[Hge Hg]]%lookup_app_Some [Hg'|[Hge' Hg']]%lookup_app_Some.
    + exact (Hff _ _ _ _ Hne Hg Hg').
    + apply list_lookup_singleton_Some in Hg' as [_ <-].
      apply apart_sym. exact (Haf _ _ _ _ Hb Hg).
    + apply list_lookup_singleton_Some in Hg as [_ <-]. exact (Haf _ _ _ _ Hb Hg').
    + apply list_lookup_singleton_Some in Hg as [Hj _].
      apply list_lookup_singleton_Some in Hg' as [Hj' _]. lia.
Qed.

Lemma wf_reset inst al fl :
  wf inst al fl -> wf (Wat.reset_heap inst) ∅ [].
Proof.
  intros [[Hlo Hal Hhi Hpm Hms] _ _ _ _ _ _].
  split; try (intros; rewrite ?lookup_empty in *; discriminate).
  split; simpl; try assumption.
  - unfold RESERVED_BYTES. reflexivity.
  - reflexivity.
  - unfold RESERVED_BYTES in *. change (Wat.i32_const 65536) with 65536. lia.
Qed.

Lemma Inv_after_allocate block inst fl w :
  Inv (after_allocate block inst fl w)
  <-> wf inst (<[MemoryBlock.ptr block := block]> (allocations (manager w))) fl.
Proof.
  unfold Inv, after_allocate. simpl.
  rewrite updateMetrics_allocations, updateMetrics_freeList. reflexivity.
Qed.

End Preservation.

(** ** Runs of the allocator *)

Section Runs.
Import MemoryManager.

Lemma allocate_cases C len label now w :
  Inv w -> wasm (manager w) = true -> 0 <= len ->
  let bytes := len * BYTES_PER_ELEMENT C in
  let fl := freeList (manager w) in
  let heap := Wat.heap_ptr (instance w) in
  (exists i b v,
      best_fit bytes fl i b
      /\ allocate C len label now w
         = Normal (WasmBackedArray.mk (MemoryBlock.ptr b) len v)
             (after_allocate (tracked (MemoryBlock.ptr b) C len label now)
                (instance w) (delete i fl) w))
  \/ (no_fit bytes fl
      /\ exists e, ensureCapacity bytes w = Throw e w
                   /\ allocate C len label now w = Throw e w)
  \/ (no_fit bytes fl
      /\ exists w1 v,
          ensureCapacity bytes w = Normal tt w1
          /\ allocate C len label now w
             = Normal (WasmBackedArray.mk heap len v)
                 (after_allocate (tracked heap C len label now)
                    (Wat.set_heap_ptr (heap + align8 bytes) (instance w1))
                    fl w)).
Proof.
  intros Hinv Hw Hlen bytes fl heap.
  destruct (best_fit_or_no_fit bytes fl) as [Hno|(i & b & Hbest)].
  - right. destruct (ensureCapacity bytes w) as [[] w1|e w1] eqn:Hens.
    + right. split; [exact Hno|]. eexists w1, _. split; [reflexivity|].
      apply allocate_bump; try assumption. apply Hinv.
    + left. split; [exact Hno|]. exists e.
      pose proof (ensureCapacity_throw _ _ _ _ Hens) as ->.
      split; [reflexivity|]. eapply allocate_miss_throw; eassumption.
  - left. pose proof Hbest as (Hi & Hn & _).
    destruct (wf_free _ _ _ Hinv _ _ Hi) as (Hlo & Hal & Hsz & Hend).
    destruct (wf_inst _ _ _ Hinv) as [_ _ Hhi _ _].
    unfold RESERVED_BYTES in *.
    eexists i, b, _. split; [exact Hbest|].
    apply allocate_reuse; try assumption; [lia|].
    apply new_view_some; try assumption; fold bytes; lia.
Qed.

Lemma Inv_allocate C len label now w :
  Inv w -> wasm (manager w) = true -> 0 <= len ->
  Inv (final_state (allocate C len label now w))
  /\ wasm (manager (final_state (allocate C len label now w))) = true.
Proof.
  intros Hinv Hw Hlen.
  pose proof (bytes_per_element_pos C) as Hbpe.
  destruct (allocate_cases C len label now w Hinv Hw Hlen)
    as [(i & b & v & Hbest & ->)|[(Hno & e & _ & ->)|(Hno & w1 & v & Hens & ->)]];
    simpl.
  - split; [|rewrite updateMetrics_wasm; exact Hw].
    apply Inv_after_allocate.
    apply (wf_reuse _ _ _ _ _ b (tracked (MemoryBlock.ptr b) C len label now) Hinv Hbest);
      [nia|reflexivity|reflexivity].
  - split; assumption.
  - split; [|rewrite updateMetrics_wasm; exact Hw].
    apply Inv_after_allocate.
    pose proof (ensureCapacity_normal _ _ _ _ (wf_inst _ _ _ Hinv) Hw Hens)
      as (_ & Hheap & Hok1 & Havail & _).
    apply (wf_bump _ _ _ _ (len * BYTES_PER_ELEMENT C)
             (tracked (Wat.heap_ptr (instance w)) C len label now) Hinv Hok1 Hheap);
      [nia|reflexivity|reflexivity].
Qed.

Lemma deallocate_tracked p m b :
  allocations m !! p = Some b ->
  deallocate p m
  = (updateMetrics op_deallocate (MemoryBlock.size b)
       (set_allocations (delete p (allocations m))
          (set_freeList (freeList m ++ [b]) m)), false).
Proof. intros H. unfold deallocate. rewrite H. reflexivity. Qed.

Lemma deallocate_unknown p m :
  allocations m !! p = None -> deallocate p m = (m, true).
Proof. intros H. unfold deallocate. rewrite H. reflexivity. Qed.

Lemma Inv_deallocate p w :
  Inv w -> Inv (set_manager (fst (deallocate p (manager w))) w).
Proof.
  intros Hinv. destruct (allocations (manager w) !! p) as [b|] eqn:Hb.
  - rewrite (deallocate_tracked _ _ _ Hb). unfold Inv. simpl.
    rewrite updateMetrics_allocations, updateMetrics_freeList. simpl.
    apply wf_dealloc; assumption.
  - rewrite (deallocate_unknown _ _ Hb). simpl. rewrite set_manager_id. exact Hinv.
Qed.

Lemma deallocate_wasm p m : wasm (fst (deallocate p m)) = wasm m.
Proof.
  unfold deallocate. destruct (allocations m !! p); [|reflexivity].
  simpl. rewrite updateMetrics_wasm. reflexivity.
Qed.

Lemma reset_bound w :
  wasm (manager w) = true ->
  reset w = Normal tt
              {| instance := Wat.reset_heap (instance w);
                 manager := updateMetrics op_reset 0
                              (set_freeList [] (set_allocations ∅ (manager w))) |}.
Proof. intros Hw. unfold reset, bind, getWasm. rewrite Hw. reflexivity. Qed.

Lemma reachable_Inv w : reachable w -> Inv w /\ wasm (manager w) = true.
Proof.
  induction 1 as [c w0|r w Hr [Hinv Hw] Hvalid].
  - split; [apply Inv_initialize, instantiate_ok|reflexivity].
  - destruct r as [C len label now|p|]; simpl in *.
    + apply Inv_allocate; assumption.
    + split; [apply Inv_deallocate; exact Hinv|].
      rewrite deallocate_wasm. exact Hw.
    + rewrite (reset_bound _ Hw). simpl.
      split; [|rewrite updateMetrics_wasm; exact Hw].
      unfold Inv. simpl. rewrite updateMetrics_allocations, updateMetrics_freeList.
      simpl. eapply wf_reset. exact Hinv.
Qed.

End Runs.

(** ** The sample worlds *)

Section Samples.
Import MemoryManager.

Lemma three_free_reachable : reachable three_free.
Proof.
  unfold three_free.
  repeat (apply reach_perform; [|simpl; first [exact I | lia]]).
  apply reach_initialize.
Qed.

Lemma three_free_list :
  freeList (manager three_free)
  = [MemoryBlock.mk 65536 64 u8 None 1; MemoryBlock.mk 65600 32 u8 None 2;
     MemoryBlock.mk 65632 48 u8 None 3].
Proof. vm_compute. reflexivity. Qed.

End Samples.

(** ** Best-fit reuse (C1) *)

Section BestFitReuse.
Import MemoryManager.

Lemma allocate_hit C len label now w i b :
  Inv w -> wasm (manager w) = true -> 0 <= len ->
  best_fit (len * BYTES_PER_ELEMENT C) (freeList (manager w)) i b ->
  exists v,
    allocate C len label now w
    = Normal (WasmBackedArray.mk (MemoryBlock.ptr b) len v)
        (after_allocate (tracked (MemoryBlock.ptr b) C len label now)
           (instance w) (delete i (freeList (manager w))) w).
Proof.
  intros Hinv Hw Hlen Hbest.
  destruct (allocate_cases C len label now w Hinv Hw Hlen)
    as [(i' & b' & v & Hbest' & H)|[(Hno & _)|(Hno & _)]].
  - destruct (best_fit_unique _ _ _ _ _ _ Hbest Hbest') as [<- <-]. eauto.
  - destruct Hbest as (Hi & Hn & _). specialize (Hno _ _ Hi). lia.
  - destruct Hbest as (Hi & Hn & _). specialize (Hno _ _ Hi). lia.
Qed.

(** What a successful [allocate] leaves behind, whichever path it took. *)
Lemma allocate_normal_shape C len label now w a w1 :
  Inv w -> wasm (manager w) = true -> 0 <= len ->
  allocate C len label now w = Normal a w1 ->
  exists inst1 fl1,
    w1 = after_allocate (tracked (WasmBackedArray.ptr a) C len label now) inst1 fl1 w
    /\ (forall j g, fl1 !! j = Some g -> exists j', freeList (manager w) !! j' = Some g).
Proof.
  intros Hinv Hw Hlen Hrun.
  destruct (allocate_cases C len label now w Hinv Hw Hlen)
    as [(i & b & v & Hbest & H)|[(Hno & e & _ & H)|(Hno & w' & v & _ & H)]];
    rewrite H in Hrun; [|discriminate|]; injection Hrun as <- <-; simpl.
  - eexists _, _. split; [reflexivity|].
    intros j g. rewrite lookup_splice. eauto.
  - eexists _, _. split; [reflexivity|]. eauto.
Qed.

(** C1 (amended).  In every well-formed state of an initialised manager:
    (a) when block [i] of the free list is the best fit for the request
    (the smallest block that is large enough, the first of them in case of
    a tie), [allocate] returns its offset, splices exactly that block out of
    the free list, tracks the offset, and leaves the instance (heap cursor
    and buffer) as it was;
    (b) when the free list holds no block whose size lies between the second
    and the first request, allocating [len1] elements at offset X, releasing
    them and allocating a request that is no larger returns X again, with
    the instance untouched (100 bytes then 50 bytes is one such pair). *)
Theorem allocate_reuses_best_fit (w : World) :
  Inv w -> wasm (manager w) = true ->
  (forall C len label now i b,
      0 <= len ->
      best_fit (len * BYTES_PER_ELEMENT C) (freeList (manager w)) i b ->
      exists a w',
        allocate C len label now w = Normal a w'
        /\ WasmBackedArray.ptr a = MemoryBlock.ptr b
        /\ instance w' = instance w
        /\ freeList (manager w') = delete i (freeList (manager w))
        /\ allocations (manager w')
           = <[MemoryBlock.ptr b := tracked (MemoryBlock.ptr b) C len label now]>
               (allocations (manager w)))
  /\ (forall C1 len1 label1 now1 C2 len2 label2 now2 a w1,
         0 <= len1 -> 0 <= len2 ->
         len2 * BYTES_PER_ELEMENT C2 <= len1 * BYTES_PER_ELEMENT C1 ->
         (forall j g, freeList (manager w) !! j = Some g ->
                      ~ (len2 * BYTES_PER_ELEMENT C2 <= MemoryBlock.size g
                         <= len1 * BYTES_PER_ELEMENT C1)) ->
         allocate C1 len1 label1 now1 w = Normal a w1 ->
         exists a' w3,
           allocate C2 len2 label2 now2 (dispose a w1) = Normal a' w3
           /\ WasmBackedArray.ptr a' = WasmBackedArray.ptr a
           /\ instance w3 = instance w1).
Proof.
  intros Hinv Hw. split.
  - intros C len label now i b Hlen Hbest.
    destruct (allocate_hit C len label now w i b Hinv Hw Hlen Hbest) as [v ->].
    eexists _, _. split; [reflexivity|]. simpl.
    rewrite updateMetrics_freeList, updateMetrics_allocations. simpl. auto.
  - intros C1 len1 label1 now1 C2 len2 label2 now2 a w1 Hlen1 Hlen2 Hle Hgap Hrun.
    destruct (Inv_allocate C1 len1 label1 now1 w Hinv Hw Hlen1) as [Hinv1 Hw1].
    rewrite Hrun in Hinv1, Hw1. simpl in Hinv1, Hw1.
    destruct (allocate_normal_shape _ _ _ _ _ _ _ Hinv Hw Hlen1 Hrun)
      as (inst1 & fl1 & -> & Hsub).
    set (blk := tracked (WasmBackedArray.ptr a) C1 len1 label1 now1) in *.
    set (w1 := after_allocate blk inst1 fl1 w) in *.
    assert (allocations (manager w1) !! WasmBackedArray.ptr a = Some blk) as Hblk.
    { unfold w1, after_allocate. simpl. rewrite updateMetrics_allocations. simpl.
      apply lookup_insert_eq. }
    assert (freeList (manager w1) = fl1) as Hfl1.
    { unfold w1, after_allocate. simpl. rewrite updateMetrics_freeList. reflexivity. }
    pose proof (Inv_deallocate (WasmBackedArray.ptr a) w1 Hinv1) as Hinv2.
    fold (dispose a w1) in Hinv2.
    assert (wasm (manager (dispose a w1)) = true) as Hw2.
    { unfold dispose, set_manager. cbn [manager].
      rewrite deallocate_wasm. exact Hw1. }
    assert (freeList (manager (dispose a w1)) = fl1 ++ [blk]) as Hfl2.
    { unfold dispose, set_manager. cbn [manager].
      rewrite (deallocate_tracked _ _ _ Hblk). cbn [fst].
      rewrite updateMetrics_freeList. cbn [freeList set_allocations set_freeList].
      rewrite Hfl1. reflexivity. }
    assert (best_fit (len2 * BYTES_PER_ELEMENT C2)
              (freeList (manager (dispose a w1))) (length fl1) blk) as Hbest.
    { rewrite Hfl2. split; [apply list_lookup_middle; reflexivity|].
      split; [exact Hle|].
      intros j g Hj Hfit. apply lookup_app_Some in Hj as [Hj|[Hge Hj]].
      - destruct (Hsub _ _ Hj) as [j' Hj']. specialize (Hgap _ _ Hj').
        pose proof (lookup_lt_Some _ _ _ Hj). simpl. lia.
      - apply list_lookup_singleton_Some in Hj as [_ <-]. lia. }
    destruct (allocate_hit C2 len2 label2 now2 _ _ _ Hinv2 Hw2 Hlen2 Hbest) as [v ->].
    eexists _, _. split; [reflexivity|]. split; reflexivity.
Qed.

(** The theorem at work: in [three_free] a request for 40 bytes takes the
    48-byte block (index 2), not the 64-byte one that comes first; and 100
    bytes allocated and released in [fresh] come back for a 50-byte
    request. *)
Lemma allocate_reuses_best_fit_witness :
  (exists a w',
      allocate Uint8Array 40 None 9 three_free = Normal a w'
      /\ WasmBackedArray.ptr a = 65632
      /\ instance w' = instance three_free
      /\ freeList (manager w') = delete 2%nat (freeList (manager three_free))
      /\ allocations (manager w')
         = <[65632 := tracked 65632 Uint8Array 40 None 9]>
             (allocations (manager three_free)))
  /\ (exists a' w3,
         allocate Uint8Array 50 None 2
           (dispose (WasmBackedArray.mk 65536 100
                       {| view_ctor := Uint8Array; view_gen := 0%nat;
                          byteOffset := 65536; view_length := 100 |})
              (final_state (allocate Uint8Array 100 None 1 fresh)))
         = Normal a' w3
         /\ WasmBackedArray.ptr a' = 65536
         /\ instance w3 = instance (final_state (allocate Uint8Array 100 None 1 fresh))).
Proof.
  split.
  - destruct (reachable_Inv _ three_free_reachable) as [Hinv Hw].
    apply (proj1 (allocate_reuses_best_fit three_free Hinv Hw)
             Uint8Array 40 None 9 2%nat (MemoryBlock.mk 65632 48 u8 None 3));
      clear Hinv Hw.
    + lia.
    + rewrite three_free_list. split; [reflexivity|]. split; [simpl; lia|].
      intros j g Hj Hfit.
      destruct j as [|[|[|j]]]; simpl in Hj; try discriminate;
        injection Hj as <-; simpl in Hfit |- *; lia.
  - destruct (reachable_Inv _ (reach_initialize None boot)) as [Hinv Hw].
    apply (proj2 (allocate_reuses_best_fit fresh Hinv Hw)
             Uint8Array 100 None 1 Uint8Array 50 None 2); clear Hinv Hw.
    + lia.
    + lia.
    + simpl. lia.
    + intros j g Hj. destruct j; discriminate Hj.
    + vm_compute. reflexivity.
Defined.

(** C1 as stated fails in a state that already holds a better fit: with a
    freed 64-byte block at 65536, 100 bytes are allocated at X = 65600 and
    released, and the 50-byte request that follows gets 65536, the smaller
    block, not X. *)
Lemma best_fit_prefers_older_block :
  exists a wa a' wb,
    allocate Uint8Array 100 None 2 one_free = Normal a wa
    /\ allocate Uint8Array 50 None 3 (dispose a wa) = Normal a' wb
    /\ WasmBackedArray.ptr a = 65600
    /\ WasmBackedArray.ptr a' = 65536
    /\ WasmBackedArray.ptr a' <> WasmBackedArray.ptr a.
Proof.
  eexists _, _, _, _.
  split; [vm_compute; reflexivity|].
  split; [vm_compute; reflexivity|].
  simpl. repeat split; lia.
Qed.

End BestFitReuse.

(** ** Offsets and live ranges (C2) *)

Section LiveRanges.
Import MemoryManager.

(** Along every run of calls with lengths that are not negative, the
    blocks tracked in the allocations map have pairwise disjoint byte
    ranges [[ptr, ptr + size)]; and whenever [allocate] returns, the
    offset is a multiple of 8, lies at or above the 65536 reserved bytes,
    and is the key under which the requested range is now tracked.  This
    is a statement about the map, not about the arrays a client holds: an
    array whose key was taken over by a later allocation is no longer
    tracked (see [zero_length_dispose_aliases_live_array]). *)
Lemma tracked_ranges_disjoint (w : World) :
  reachable w ->
  (forall p q b1 b2,
      p <> q ->
      allocations (manager w) !! p = Some b1 ->
      allocations (manager w) !! q = Some b2 ->
      ~ overlap b1 b2)
  /\ (forall C len label now a w',
         0 <= len ->
         allocate C len label now w = Normal a w' ->
         WasmBackedArray.ptr a mod 8 = 0
         /\ RESERVED_BYTES <= WasmBackedArray.ptr a
         /\ allocations (manager w') !! WasmBackedArray.ptr a
            = Some (tracked (WasmBackedArray.ptr a) C len label now)
         /\ reachable w').
Proof.
  intros Hreach. destruct (reachable_Inv w Hreach) as [Hinv Hw]. split.
  - intros p q b1 b2 Hne H1 H2. apply apart_no_overlap.
    exact (wf_aa _ _ _ Hinv _ _ _ _ Hne H1 H2).
  - intros C len label now a w' Hlen Hrun.
    assert (reachable w') as Hreach'.
    { replace w' with (perform (req_allocate C len label now) w)
        by (simpl; rewrite Hrun; reflexivity).
      apply reach_perform; [exact Hreach|exact Hlen]. }
    destruct (reachable_Inv w' Hreach') as [Hinv' _].
    destruct (allocate_normal_shape _ _ _ _ _ _ _ Hinv Hw Hlen Hrun)
      as (inst1 & fl1 & -> & _).
    assert (allocations (manager (after_allocate
              (tracked (WasmBackedArray.ptr a) C len label now) inst1 fl1 w))
            !! WasmBackedArray.ptr a
            = Some (tracked (WasmBackedArray.ptr a) C len label now)) as Hblk.
    { unfold after_allocate. simpl. rewrite updateMetrics_allocations. simpl.
      apply lookup_insert_eq. }
    destruct (wf_alloc _ _ _ Hinv' _ _ Hblk) as (Hlo & Hal & _).
    simpl in Hlo, Hal. auto.
Qed.

(** C2 fails on the code for a zero-length array.  On a freshly
    initialised manager, [z = allocate(Uint8Array, 0)] and
    [a = allocateFloat64(4)] are both handed the offset 65536, because the
    zero-length request does not advance the heap pointer and [a] takes
    over the key of [z] in the allocations map.  [z.dispose()] then moves
    the block of [a] to the free list, and [b = allocateFloat64(4)] is
    handed it.  [a] was never released, yet [a] and [b] have the same byte
    range [[65536, 65568)]: only [b] is tracked, and a value written
    through the view of [b] is read through the view of [a]. *)
Theorem zero_length_dispose_aliases_live_array :
  exists z w1 a w2 b w3,
    allocate Uint8Array 0 None 1 fresh = Normal z w1
    /\ allocateFloat64 4 None 2 w1 = Normal a w2
    /\ allocateFloat64 4 None 3 (dispose z w2) = Normal b w3
    /\ WasmBackedArray.ptr z = 65536
    /\ (WasmBackedArray.ptr a = 65536 /\ WasmBackedArray.length a = 4)
    /\ (WasmBackedArray.ptr b = 65536 /\ WasmBackedArray.length b = 4)
    /\ overlap (tracked 65536 Float64Array 4 None 2)
         (tracked 65536 Float64Array 4 None 3)
    /\ allocations (manager w3) !! 65536
       = Some (tracked 65536 Float64Array 4 None 3)
    /\ freeList (manager w3) = []
    /\ view_get (WasmBackedArray.view a) 0
         (view_put (WasmBackedArray.view b) 0 9%float
            (Wat.memory (instance w3)))
       = Some 9%float.
Proof.
  do 6 eexists.
  split; [vm_compute; reflexivity|].
  split; [vm_compute; reflexivity|].
  split; [vm_compute; reflexivity|].
  split; [reflexivity|].
  split; [split; reflexivity|].
  split; [split; reflexivity|].
  split; [exists 65536; vm_compute; repeat split; discriminate|].
  split; [vm_compute; reflexivity|].
  split; [vm_compute; reflexivity|].
  vm_compute. reflexivity.
Qed.

(** With a positive size the offset [allocate] returns was not tracked
    before the call, provided every tracked or free block has a positive
    size too (as in any run whose requests all have a positive size): the
    new view never shares its key with a view that is still live. *)
Lemma allocate_fresh_key C len label now w a w' :
  reachable w -> 0 < len ->
  (forall p b, allocations (manager w) !! p = Some b -> 0 < MemoryBlock.size b) ->
  (forall i b, freeList (manager w) !! i = Some b -> 0 < MemoryBlock.size b) ->
  allocate C len label now w = Normal a w' ->
  allocations (manager w) !! WasmBackedArray.ptr a = None.
Proof.
  intros Hreach Hlen Hpos Hfpos Hrun.
  destruct (reachable_Inv w Hreach) as [Hinv Hw].
  pose proof (bytes_per_element_pos C) as Hbpe.
  destruct (allocate_cases C len label now w Hinv Hw ltac:(lia))
    as [(i & b & v & Hbest & H)|[(Hno & e & _ & H)|(Hno & w1 & v & _ & H)]];
    rewrite H in Hrun; [|discriminate|]; injection Hrun as <- <-; simpl.
  - destruct (allocations (manager w) !! MemoryBlock.ptr b) as [x|] eqn:Hx; [|reflexivity].
    destruct Hbest as (Hi & _).
    pose proof (wf_key _ _ _ Hinv _ _ Hx) as Hk.
    pose proof (Hpos _ _ Hx). pose proof (Hfpos _ _ Hi).
    destruct (wf_af _ _ _ Hinv _ _ _ _ Hx Hi) as [Hap|Hap]; lia.
  - destruct (allocations (manager w) !! Wat.heap_ptr (instance w)) as [x|] eqn:Hx;
      [|reflexivity].
    pose proof (wf_key _ _ _ Hinv _ _ Hx) as Hk.
    pose proof (Hpos _ _ Hx).
    destruct (wf_alloc _ _ _ Hinv _ _ Hx) as (_ & _ & _ & Hend). lia.
Qed.

End LiveRanges.

(** ** Growth and exhaustion (C3) *)

Section Growth.
Import MemoryManager.




End Growth.

(** ** [deallocate] (C4) *)

Section Deallocate.
Import MemoryManager.

(** C4 (amended).  For a pointer that is not tracked, [deallocate] returns
    the manager it was given, unchanged in every field, having only logged
    its warning; it cannot throw.  For a tracked pointer it removes exactly
    that entry from the allocations map and appends exactly that block to
    the free list; with [enableTracking] on, [totalDeallocations] goes up by
    one and the current usage down by the block's size (not below 0); with
    [enableTracking] off the metrics are left as they were. *)
Theorem deallocate_spec (m : WasmMemoryManager) (p : Z) :
  (allocations m !! p = None -> deallocate p m = (m, true))
  /\ (forall b,
         allocations m !! p = Some b ->
         let m' := fst (deallocate p m) in
         snd (deallocate p m) = false
         /\ allocations m' = delete p (allocations m)
         /\ freeList m' = freeList m ++ [b]
         /\ wasm m' = wasm m
         /\ config m' = config m
         /\ (enableTracking (config m) = true ->
             _metrics m'
             = {| totalAllocations := totalAllocations (_metrics m);
                  totalDeallocations := totalDeallocations (_metrics m) + 1;
                  peakMemoryUsage := peakMemoryUsage (_metrics m);
                  currentMemoryUsage :=
                    Z.max 0 (currentMemoryUsage (_metrics m) - MemoryBlock.size b);
                  totalComputeTimeMs := totalComputeTimeMs (_metrics m);
                  operationCounts := operationCounts (_metrics m) |})
         /\ (enableTracking (config m) = false -> _metrics m' = _metrics m)).
Proof.
  split.
  - apply deallocate_unknown.
  - intros b Hb m'. unfold m'. rewrite (deallocate_tracked _ _ _ Hb). cbn [fst snd].
    rewrite updateMetrics_allocations, updateMetrics_freeList,
      updateMetrics_wasm, updateMetrics_config.
    repeat (split; [reflexivity|]).
    unfold updateMetrics. cbn [config set_allocations set_freeList].
    split; intros ->; reflexivity.
Qed.

(** The theorem at work: in [three_free] nothing is tracked any more, so a
    second release of 65536 is ignored; in [fresh] after one allocation the
    release moves the block and counts it. *)
Lemma deallocate_spec_witness :
  deallocate 65536 (manager three_free) = (manager three_free, true)
  /\ totalDeallocations
       (_metrics (fst (deallocate 65536
                         (manager (perform (req_allocate Uint8Array 64 None 1) fresh)))))
     = 1.
Proof.
  split.
  - apply (proj1 (deallocate_spec (manager three_free) 65536)).
    vm_compute. reflexivity.
  - destruct (proj2 (deallocate_spec
                       (manager (perform (req_allocate Uint8Array 64 None 1) fresh))
                       65536) (MemoryBlock.mk 65536 64 u8 None 1)
                ltac:(vm_compute; reflexivity)) as (_ & _ & _ & _ & _ & Hon & _).
    rewrite (Hon ltac:(reflexivity)). reflexivity.
Defined.

(** C4 as stated fails with [enableTracking] off: in [untracked] the
    pointer 65536 is tracked, [deallocate] moves its block to the free list,
    and [totalDeallocations] stays 0. *)
Lemma deallocate_untracked_no_count :
  is_Some (allocations (manager untracked) !! 65536)
  /\ allocations (fst (deallocate 65536 (manager untracked))) !! 65536 = None
  /\ length (freeList (fst (deallocate 65536 (manager untracked)))) = 1%nat
  /\ totalDeallocations (_metrics (manager untracked)) = 0
  /\ totalDeallocations (_metrics (fst (deallocate 65536 (manager untracked)))) = 0.
Proof.
  split; [eexists; vm_compute; reflexivity|].
  repeat split; vm_compute; reflexivity.
Qed.

End Deallocate.

(** ** Disposed views (C10, C6) *)

Section Disposal.
Import MemoryManager Engine.

(** C10.  [dispose()] of a vector or of a matrix returns normally and
    leaves the view disposed; only a call on a view that was not yet
    disposed reaches the manager (through the array's [dispose] closure,
    that is [deallocate] of its pointer, once); any later [dispose()], in
    whatever state the manager then is, changes neither the manager nor the
    view.  Two calls in a row therefore add at most one block to the free
    list and at most one to [totalDeallocations]. *)
Theorem dispose_idempotent :
  (forall (w : World) (v : WasmVector.t),
      exists v1,
        WasmVector.dispose (w, v)
        = Normal tt ((if WasmVector._disposed v then w
                      else dispose (WasmVector.allocated v) w), v1)
        /\ WasmVector._disposed v1 = true
        /\ WasmVector.allocated v1 = WasmVector.allocated v
        /\ (forall w', WasmVector.dispose (w', v1) = Normal tt (w', v1))
        /\ (forall w2 v2,
               final_state (WasmVector.dispose
                              (final_state (WasmVector.dispose (w, v)))) = (w2, v2) ->
               (length (freeList (manager w2)) <= S (length (freeList (manager w))))%nat
               /\ totalDeallocations (_metrics (manager w2))
                  <= totalDeallocations (_metrics (manager w)) + 1))
  /\ (forall (w : World) (x : WasmMatrix.t),
         exists x1,
           WasmMatrix.dispose (w, x)
           = Normal tt ((if WasmMatrix._disposed x then w
                         else dispose (WasmMatrix.allocated x) w), x1)
           /\ WasmMatrix._disposed x1 = true
           /\ WasmMatrix.allocated x1 = WasmMatrix.allocated x
           /\ (forall w', WasmMatrix.dispose (w', x1) = Normal tt (w', x1))
           /\ (forall w2 x2,
                  final_state (WasmMatrix.dispose
                                 (final_state (WasmMatrix.dispose (w, x)))) = (w2, x2) ->
                  (length (freeList (manager w2)) <= S (length (freeList (manager w))))%nat
                  /\ totalDeallocations (_metrics (manager w2))
                     <= totalDeallocations (_metrics (manager w)) + 1)).
Proof.
  assert (forall a w,
             (length (freeList (manager (dispose a w)))
              <= S (length (freeList (manager w))))%nat
             /\ totalDeallocations (_metrics (manager (dispose a w)))
                <= totalDeallocations (_metrics (manager w)) + 1) as Hone.
  { intros a w. unfold dispose, set_manager. cbn [manager].
    destruct (allocations (manager w) !! WasmBackedArray.ptr a) as [b|] eqn:Hb.
    - rewrite (deallocate_tracked _ _ _ Hb). cbn [fst].
      rewrite updateMetrics_freeList. cbn [freeList set_allocations set_freeList].
      rewrite length_app. simpl. split; [lia|].
      unfold updateMetrics. cbn [config set_allocations set_freeList].
      destruct (enableTracking (config (manager w))); simpl; lia.
    - rewrite (deallocate_unknown _ _ Hb). simpl. split; lia. }
  split.
  - intros w [a d disposed]. unfold WasmVector.dispose. simpl.
    destruct disposed; simpl.
    + eexists. split; [reflexivity|]. split; [reflexivity|]. split; [reflexivity|].
      split; [reflexivity|]. intros w2 v2 [= <- <-]. split; lia.
    + eexists. split; [reflexivity|]. split; [reflexivity|]. split; [reflexivity|].
      split; [reflexivity|]. intros w2 v2 [= <- <-]. apply Hone.
  - intros w [a dims d disposed]. unfold WasmMatrix.dispose. simpl.
    destruct disposed; simpl.
    + eexists. split; [reflexivity|]. split; [reflexivity|]. split; [reflexivity|].
      split; [reflexivity|]. intros w2 v2 [= <- <-]. split; lia.
    + eexists. split; [reflexivity|]. split; [reflexivity|]. split; [reflexivity|].
      split; [reflexivity|]. intros w2 v2 [= <- <-]. apply Hone.
Qed.

(** C6 (amended).  Once [dispose()] has returned, every call that changes
    the view ([set], [setAt], [fill], [normalize], [scale], [add] of a
    vector; [setAt], [set], [fill], [setIdentity] of a matrix) throws a
    [WasmError] with code DISPOSED at once, in whatever state the world then
    is, and leaves the world and the view as they were. *)
Theorem mutators_throw_after_dispose :
  (forall (w : World) (v : WasmVector.t) (u : unit) (s : World * WasmVector.t)
          (op : VectorMutator) (w' : World),
      WasmVector.dispose (w, v) = Normal u s ->
      vector_mutate op (w', snd s) = Throw (WasmError DISPOSED) (w', snd s))
  /\ (forall (w : World) (x : WasmMatrix.t) (u : unit) (s : World * WasmMatrix.t)
             (op : MatrixMutator) (w' : World),
         WasmMatrix.dispose (w, x) = Normal u s ->
         matrix_mutate op (w', snd s) = Throw (WasmError DISPOSED) (w', snd s)).
Proof.
  split.
  - intros w v u s op w' Hd.
    assert (WasmVector._disposed (snd s) = true) as Hflag.
    { unfold WasmVector.dispose in Hd. simpl in Hd.
      destruct (WasmVector._disposed v) eqn:E; simpl in Hd;
        injection Hd as _ <-; simpl; [exact E|reflexivity]. }
    destruct op; simpl;
      unfold WasmVector.set, WasmVector.setAt, WasmVector.fill,
        WasmVector.normalize, WasmVector.scale, WasmVector.add, bind,
        WasmVector.ensureNotDisposed; simpl; rewrite Hflag; reflexivity.
  - intros w x u s op w' Hd.
    assert (WasmMatrix._disposed (snd s) = true) as Hflag.
    { unfold WasmMatrix.dispose in Hd. simpl in Hd.
      destruct (WasmMatrix._disposed x) eqn:E; simpl in Hd;
        injection Hd as _ <-; simpl; [exact E|reflexivity]. }
    destruct op; simpl;
      unfold WasmMatrix.setAt, WasmMatrix.set, WasmMatrix.fill,
        WasmMatrix.setIdentity, bind, WasmMatrix.ensureNotDisposed; simpl;
        rewrite Hflag; reflexivity.
Qed.

(** The theorem at work: scaling the disposed vector [3; 4]. *)
Lemma mutators_throw_after_dispose_witness :
  vector_mutate (vec_scale 2%float) vector34_disposed
  = Throw (WasmError DISPOSED) vector34_disposed.
Proof.
  exact (proj1 mutators_throw_after_dispose (fst vector34) (snd vector34) tt
           vector34_disposed (vec_scale 2%float) (fst vector34_disposed)
           ltac:(vm_compute; reflexivity)).
Defined.

(** C6 as stated fails for the calls that only read: on the disposed vector
    [3; 4], [magnitude()] returns 5 and [getAt(0)] returns 3; neither
    throws. *)
Lemma readers_return_after_dispose :
  WasmVector._disposed (snd vector34_disposed) = true
  /\ WasmVector.magnitude vector34_disposed = Normal 5%float vector34_disposed
  /\ WasmVector.getAt 0 vector34_disposed
     = Normal (Some 3%float) vector34_disposed.
Proof. repeat split; vm_compute; reflexivity. Qed.

End Disposal.

(** ** The worker pool: choosing a worker *)

Section LeastBusy.
Import WorkerPool.

Lemma busy_state_step pre w best bestCount :
  busy_state pre best bestCount ->
  if match bestCount with None => true | Some c => (load w <? c)%nat end
  then busy_state (pre ++ [w]) (Some (length pre)) (Some (load w))
  else busy_state (pre ++ [w]) best bestCount.
Proof.
  intros [(-> & -> & ->)|(i & c & -> & -> & (x & Hi & Hc) & Hmin)].
  - right. exists 0%nat, (load w). split; [reflexivity|]. split; [reflexivity|].
    split; [exists w; split; reflexivity|].
    intros j w' Hj. destruct j; [|discriminate Hj].
    injection Hj as <-. split; lia.
  - pose proof (lookup_lt_Some _ _ _ Hi) as Hlt.
    destruct (Nat.ltb_spec (load w) c) as [Hless|Hge].
    + right. exists (length pre), (load w).
      split; [reflexivity|]. split; [reflexivity|].
      split; [exists w; split; [apply list_lookup_middle|]; reflexivity|].
      intros j w' Hj. apply lookup_app_Some in Hj as [Hj|[Hge Hj]].
      * destruct (Hmin _ _ Hj). lia.
      * apply list_lookup_singleton_Some in Hj as [_ <-]. lia.
    + right. exists i, c. split; [reflexivity|]. split; [reflexivity|].
      split; [exists x; split; [apply lookup_app_l_Some|]; assumption|].
      intros j w' Hj. apply lookup_app_Some in Hj as [Hj|[Hge' Hj]].
      * exact (Hmin _ _ Hj).
      * apply list_lookup_singleton_Some in Hj as [_ <-]. lia.
Qed.

Lemma least_busy_invariant rest : forall pre best bestCount,
  busy_state pre best bestCount ->
  busy_state (pre ++ rest) (fst (least_busy rest (length pre) best bestCount))
    (snd (least_busy rest (length pre) best bestCount)).
Proof.
  induction rest as [|w rest IH]; intros pre best bestCount Hst; simpl.
  - rewrite app_nil_r. exact Hst.
  - pose proof (busy_state_step pre w best bestCount Hst) as Hstep.
    fold (load w).
    replace (S (length pre)) with (length (pre ++ [w]))
      by (rewrite length_app; simpl; lia).
    replace (pre ++ w :: rest) with ((pre ++ [w]) ++ rest)
      by (rewrite <- app_assoc; reflexivity).
    destruct (match bestCount with None => true | Some c => (load w <? c)%nat end);
      apply IH; exact Hstep.
Qed.

Lemma least_busy_spec ws :
  ws <> [] ->
  exists i c, least_busy ws 0 None None = (Some i, Some c) /\ first_least ws i c.
Proof.
  intros Hne.
  pose proof (least_busy_invariant ws [] None None) as H. simpl in H.
  destruct H as [(_ & _ & Hnil)|(i & c & Hb & Hc & Hfl)].
  - left. auto.
  - contradiction.
  - exists i, c. split; [|exact Hfl].
    destruct (least_busy ws 0 None None) as [b bc]. simpl in *. congruence.
Qed.




End LeastBusy.

(** ** The worker pool: dispatching *)

Section Dispatch.
Import WorkerPool.

Ltac pool_cbn :=
  cbn [workers retired initialized taskIdCounter taskQueue _activeWorkers
       _queuedTasks _totalTasksCompleted _averageTaskTimeMs promises
       set_workers set_retired set_initialized set_taskIdCounter set_taskQueue
       set_activeWorkers set_stats set_promises updateActiveWorkerCount
       updateStats lookup_worker store_worker new_promise generateTaskId
       fst snd] in *.

Lemma sendToWorker_in_pool i m now p w :
  workers p !! i = Some w ->
  exists p',
    sendToWorker (in_pool i) m now p = (length (promises p), p')
    /\ workers p' = <[i := sent m (length (promises p)) now w]> (workers p)
    /\ promises p' = promises p ++ [fresh_promise]
    /\ taskQueue p' = taskQueue p
    /\ _queuedTasks p' = _queuedTasks p
    /\ initialized p' = initialized p
    /\ taskIdCounter p' = taskIdCounter p
    /\ retired p' = retired p
    /\ _totalTasksCompleted p' = _totalTasksCompleted p.
Proof.
  intros Hw. pose proof (lookup_lt_Some _ _ _ Hw) as Hlt.
  unfold sendToWorker. pool_cbn. rewrite Hw. pool_cbn.
  rewrite list_lookup_insert_eq by exact Hlt.
  eexists. split; [reflexivity|]. pool_cbn.
  rewrite list_insert_insert_eq. repeat split; reflexivity.
Qed.

Lemma getAvailableWorker_workers p p' :
  workers p' = workers p -> getAvailableWorker p' = getAvailableWorker p.
Proof. intros H. unfold getAvailableWorker. rewrite H. reflexivity. Qed.

Lemma submit_dispatch r p i w :
  initialized p = true -> getAvailableWorker p = Some i ->
  workers p !! i = Some w ->
  exists p',
    submit r p = (length (promises p), p')
    /\ workers p'
       = <[i := sent (request_message r p) (length (promises p)) (sub_now_ms r) w]>
           (workers p)
    /\ promises p' = promises p ++ [fresh_promise]
    /\ taskQueue p' = taskQueue p
    /\ initialized p' = true
    /\ taskIdCounter p' = taskIdCounter p + 1.
Proof.
  intros Hinit Hav Hw. unfold submit, compute. rewrite Hinit. pool_cbn.
  rewrite (getAvailableWorker_workers p (set_taskIdCounter (taskIdCounter p + 1) p))
    by reflexivity.
  rewrite Hav.
  destruct (sendToWorker_in_pool i (request_message r p) (sub_now_ms r)
              (set_taskIdCounter (taskIdCounter p + 1) p) w Hw)
    as (p' & Hsend & Hws & Hps & Hq & _ & Hi & Hc & _).
  exists p'. split; [exact Hsend|]. pool_cbn.
  repeat split; try assumption. congruence.
Qed.

Lemma submit_queue r p :
  initialized p = true -> getAvailableWorker p = None ->
  exists p',
    submit r p = (length (promises p), p')
    /\ workers p' = workers p
    /\ promises p' = promises p ++ [fresh_promise]
    /\ taskQueue p'
       = taskQueue p ++ [{| message := request_message r p;
                            queued_promise := length (promises p) |}]
    /\ initialized p' = true
    /\ taskIdCounter p' = taskIdCounter p + 1
    /\ retired p' = retired p.
Proof.
  intros Hinit Hav. unfold submit, compute. rewrite Hinit. pool_cbn.
  rewrite (getAvailableWorker_workers p (set_taskIdCounter (taskIdCounter p + 1) p))
    by reflexivity.
  rewrite Hav. eexists. split; [reflexivity|]. pool_cbn.
  repeat split; assumption || reflexivity.
Qed.

End Dispatch.

(** ** The worker pool: filling the workers *)

Section Saturation.
Import WorkerPool.






End Saturation.

(** ** The worker pool: answers and the overflow queue *)

Section Answers.
Import WorkerPool.

Ltac pool_cbn :=
  cbn [workers retired initialized taskIdCounter taskQueue _activeWorkers
       _queuedTasks _totalTasksCompleted _averageTaskTimeMs promises
       set_workers set_retired set_initialized set_taskIdCounter set_taskQueue
       set_activeWorkers set_stats set_promises updateActiveWorkerCount
       updateStats lookup_worker store_worker new_promise generateTaskId
       fst snd] in *.






Lemma chain_old ps k k' :
  (k' < length ps)%nat ->
  chain (length ps) k (ps ++ [fresh_promise]) !! k' = ps !! k'.
Proof.
  intros Hlt. unfold chain. rewrite list_lookup_middle by reflexivity.
  rewrite list_lookup_insert_ne by lia. apply lookup_app_l. exact Hlt.
Qed.

Lemma handleWorkerMessage_known i m now p w task :
  workers p !! i = Some w -> pendingTasks w !! id m = Some task ->
  exists p',
    handleWorkerMessage (in_pool i) m now p = (processQueue now p', false)
    /\ workers p' = <[i := completed m w]> (workers p)
    /\ promises p' = verdict m (promise task) (promises p)
    /\ taskQueue p' = taskQueue p
    /\ taskIdCounter p' = taskIdCounter p.
Proof.
  intros Hw Htask. unfold handleWorkerMessage. pool_cbn.
  rewrite Hw, Htask. eexists. split; [reflexivity|].
  unfold verdict. destruct (type m); pool_cbn; repeat split; reflexivity.
Qed.




End Answers.

(** ** The overflow queue (C8) *)

Section Overflow.
Import WorkerPool.




End Overflow.

Section OverflowExamples.
Import WorkerPool.



End OverflowExamples.

(** ** [terminate()] (C9) *)

Section Terminate.
Import WorkerPool.

(** C9 fails on the code for a queued request.  In [saturated], promise 11
    is the one [compute] returned for the queued request.  [terminate()]
    rejects the ten promises of the pending requests with "Worker pool
    terminated" and empties the queue, but leaves promise 11 pending; after
    it, promise 11 is the promise of no task, the target of no chain, and
    on no queue: nothing in the pool can settle it any more. *)
Theorem terminate_leaves_queued_pending :
  map queued_promise (taskQueue saturated) = [11%nat]
  /\ state <$> promises saturated !! 11%nat = Some Pending
  /\ state <$> promises (terminate saturated) !! 11%nat = Some Pending
  /\ Forall (fun k => state <$> promises (terminate saturated) !! k
                      = Some (Rejected (PlainError "Worker pool terminated")))
       (seq 1 10)
  /\ taskQueue (terminate saturated) = []
  /\ workers (terminate saturated) = []
  /\ ~ held_by 11 (retired (terminate saturated))
  /\ Forall (fun pr => chained pr = None) (promises (terminate saturated)).
Proof.
  split; [vm_compute; reflexivity|].
  split; [vm_compute; reflexivity|].
  split; [vm_compute; reflexivity|].
  split; [repeat constructor|].
  split; [vm_compute; reflexivity|].
  split; [vm_compute; reflexivity|].
  split.
  - intros (w & tid & task & Hw & Htask & Hk).
    assert (forallb
              (fun w => forallb (fun kt => negb (promise (snd kt) =? 11)%nat)
                          (map_to_list (pendingTasks w)))
              (retired (terminate saturated)) = true) as Hall
        by (vm_compute; reflexivity).
    rewrite forallb_forall in Hall.
    apply list_elem_of_In in Hw. specialize (Hall _ Hw).
    rewrite forallb_forall in Hall.
    apply elem_of_map_to_list, list_elem_of_In in Htask.
    specialize (Hall _ Htask). simpl in Hall. rewrite Hk in Hall. discriminate Hall.
  - vm_compute. repeat constructor.
Qed.

(** [terminate()] does not clear the [pendingTasks] of the workers it
    drops ([handleWorkerError] does): were an answer of a terminated worker
    still delivered to its [onmessage] handler, [handleWorkerMessage] would
    find the task and count the request as completed. *)
Lemma late_answer_is_counted :
  snd (handleWorkerMessage (dropped 0) (answer (2, 2000)) 5%float
         (terminate saturated)) = false
  /\ _totalTasksCompleted (terminate saturated) = 1
  /\ _totalTasksCompleted
       (fst (handleWorkerMessage (dropped 0) (answer (2, 2000)) 5%float
               (terminate saturated))) = 2.
Proof. repeat split; vm_compute; reflexivity. Qed.

End Terminate.

(** ** Binary64 facts used for the statistics kernels *)

Section FloatFacts.
Import PrimFloat.






(** A finite double minus itself is [+0]. *)
Lemma sub_diag c : is_finite c = true -> (c - c = 0)%float.
Proof.
  intros Hfin. apply Prim2SF_inj. rewrite FloatAxioms.sub_spec.
  unfold is_finite, is_nan, is_infinity in Hfin.
  rewrite !FloatAxioms.eqb_spec, FloatAxioms.abs_spec in Hfin.
  destruct (Prim2SF c) as [s| s | |s m e] eqn:E.
  - unfold SF64sub, SFsub. destruct s; reflexivity.
  - destruct s; vm_compute in Hfin; discriminate.
  - vm_compute in Hfin. discriminate.
  - unfold SF64sub, SFsub.
    replace (cond_Zopp s (Z.pos (fst (shl_align m e (Z.min e e)))) -
             cond_Zopp s (Z.pos (fst (shl_align m e (Z.min e e))))) with 0 by lia.
    reflexivity.
Qed.

End FloatFacts.

(** ** Vectors in memory and the statistics kernels (C5) *)

Section Statistics.
Import Wat.

Lemma element_address ptr i :
  0 <= ptr -> 0 <= i -> ptr + 8 * i < 2 ^ 32 ->
  i32_add ptr (i32_shl i 3) = ptr + 8 * i.
Proof.
  intros Hp Hi Hb. unfold i32_add, i32_shl.
  rewrite Z.shiftl_mul_pow2 by lia. change (2 ^ 3) with 8.
  rewrite (wrap32_small (i * 8)) by lia. rewrite wrap32_small by lia. lia.
Qed.

Lemma next_index i : 0 <= i -> i + 1 < 2 ^ 32 -> i32_add i (i32_const 1) = i + 1.
Proof.
  intros Hi Hb. unfold i32_add, i32_const.
  rewrite (wrap32_small 1) by lia. apply wrap32_small. lia.
Qed.

Lemma load_in_bounds m addr :
  0 <= addr -> addr mod 8 = 0 -> addr + 8 <= byteLength m ->
  f64_load m addr = Done (cell m addr).
Proof.
  intros Ha Hal Hb. unfold f64_load, check_access.
  replace (byteLength m <? addr + 8) with false by (symmetry; apply Z.ltb_ge; lia).
  rewrite Hal. reflexivity.
Qed.

Lemma aligned_offset ptr k : ptr mod 8 = 0 -> (ptr + 8 * k) mod 8 = 0.
Proof.
  intros H. rewrite Z.add_mod, H by lia.
  replace (8 * k) with (k * 8) by lia. rewrite Z.mod_mul by lia. reflexivity.
Qed.

Lemma holds_load m ptr xs k x :
  holds m ptr xs -> xs !! k = Some x ->
  f64_load m (ptr + 8 * Z.of_nat k) = Done x.
Proof.
  intros [Hlo Hal Hhi Hmem Hcells] Hk.
  pose proof (lookup_lt_Some _ _ _ Hk) as Hlt.
  rewrite load_in_bounds; [rewrite (Hcells _ _ Hk); reflexivity|lia| |lia].
  apply aligned_offset. exact Hal.
Qed.

(** The three reading loops, over the elements from index [i] on. *)
Lemma sum_loop_spec m ptr xs : forall rest i acc,
  holds m ptr xs -> drop i xs = rest ->
  sum_loop m ptr (length rest) (Z.of_nat i) acc
  = Done (fold_left PrimFloat.add rest acc).
Proof.
  induction rest as [|x rest IH]; intros i acc Hholds Hdrop; [reflexivity|].
  assert (xs !! i = Some x) as Hi
      by (rewrite <- (Nat.add_0_r i), <- lookup_drop, Hdrop; reflexivity).
  pose proof (lookup_lt_Some _ _ _ Hi) as Hlt.
  pose proof Hholds as [Hlo Hal Hhi Hmem _].
  simpl. rewrite element_address by lia.
  rewrite (holds_load _ _ _ _ _ Hholds Hi). simpl.
  rewrite next_index by lia.
  replace (Z.of_nat i + 1) with (Z.of_nat (S i)) by lia.
  apply IH; [exact Hholds|].
  replace (S i) with (i + 1)%nat by lia.
  rewrite <- drop_drop, Hdrop. reflexivity.
Qed.





End Statistics.

Section StatisticsClaims.
Import Wat.

Lemma write_cells_byteLength xs : forall m p,
  byteLength (write_cells m p xs) = byteLength m.
Proof. induction xs as [|x xs IH]; intros m p; simpl; [reflexivity|]. rewrite IH. reflexivity. Qed.

Lemma write_cells_cell xs : forall m p k x,
  xs !! k = Some x -> cell (write_cells m p xs) (p + 8 * Z.of_nat k) = x.
Proof.
  assert (forall ys m p a, a < p -> cell (write_cells m p ys) a = cell m a) as Hbelow.
  { induction ys as [|y ys IH]; intros m p a Ha; simpl; [reflexivity|].
    rewrite IH by lia. unfold cell, set_cell. simpl.
    rewrite lookup_insert_ne by lia. reflexivity. }
  induction xs as [|y xs IH]; intros m p k x Hk; [discriminate Hk|].
  destruct k as [|k]; simpl in Hk; cbn [write_cells].
  - injection Hk as <-. rewrite Hbelow by lia.
    replace (p + 8 * Z.of_nat 0) with p by lia.
    unfold cell, set_cell. simpl. rewrite lookup_insert_eq. reflexivity.
  - replace (p + 8 * Z.of_nat (S k)) with (p + 8 + 8 * Z.of_nat k) by lia.
    apply IH. exact Hk.
Qed.

(** A vector of fewer than two million doubles written at the start of
    the heap of a fresh instance is held there. *)
Lemma heap_with_holds xs :
  Z.of_nat (length xs) <= 2000000 -> holds (heap_with xs) 65536 xs.
Proof.
  intros Hlen. unfold heap_with. split.
  - lia.
  - reflexivity.
  - rewrite write_cells_byteLength. change (byteLength (memory instantiate)) with 16777216. lia.
  - rewrite write_cells_byteLength. change (byteLength (memory instantiate)) with 16777216. lia.
  - intros k x Hk. apply write_cells_cell. exact Hk.
Qed.




End StatisticsClaims.

(** ** [mat_transpose] (C7) *)

Section Transpose.
Import Wat.

Lemma store_in_bounds m addr v :
  0 <= addr -> addr mod 8 = 0 -> addr + 8 <= byteLength m ->
  f64_store m addr v = Done (set_cell m addr v).
Proof.
  intros Ha Hal Hb. unfold f64_store, check_access.
  replace (byteLength m <? addr + 8) with false by (symmetry; apply Z.ltb_ge; lia).
  rewrite Hal. reflexivity.
Qed.

Lemma cell_set_eq m addr v : cell (set_cell m addr v) addr = v.
Proof. unfold cell, set_cell. simpl. rewrite lookup_insert_eq. reflexivity. Qed.

Lemma cell_set_ne m addr v addr' :
  addr <> addr' -> cell (set_cell m addr v) addr' = cell m addr'.
Proof. intros H. unfold cell, set_cell. simpl. rewrite lookup_insert_ne by exact H. reflexivity. Qed.

Section Kernel.

Variables (m : Memory) (a b rows cols : Z).
Hypothesis Hrows : 0 <= rows < 2 ^ 32.
Hypothesis Hcols : 0 <= cols < 2 ^ 32.
Hypothesis Hmem : byteLength m <= 2 ^ 32.
Hypothesis Ha : region m a (rows * cols).
Hypothesis Hb : region m b (rows * cols).
Hypothesis Hsep : separate a b (rows * cols).

Local Notation progress := (transposing m a b rows cols).

Lemma index_bound i j n k : 0 <= i < n -> 0 <= j < k -> 0 <= i * k + j < n * k.
Proof. intros Hi Hj. nia. Qed.

Lemma index_inj i j i' j' n :
  0 <= i < n -> 0 <= i' < n -> j * n + i = j' * n + i' -> i = i' /\ j = j'.
Proof.
  intros Hi Hi' Heq.
  destruct (Z.lt_trichotomy j j') as [Hlt|[->|Hgt]]; [exfalso|lia|exfalso].
  - assert ((j + 1) * n <= j' * n) by (apply Z.mul_le_mono_nonneg_r; lia). lia.
  - assert ((j' + 1) * n <= j * n) by (apply Z.mul_le_mono_nonneg_r; lia). lia.
Qed.






End Kernel.



End Transpose.

(** ** The vector kernels: [vec_dot], [vec_add], [vec_scale], [vec_normalize] *)

Section FloatAlgebra.
Import PrimFloat.

Lemma mul_comm (x y : float) : (x * y = y * x)%float.
Proof.
  apply Prim2SF_inj. rewrite !FloatAxioms.mul_spec.
  unfold SF64mul, SFmul.
  destruct (Prim2SF x) as [sx|sx| |sx mx ex], (Prim2SF y) as [sy|sy| |sy my ey];
    try reflexivity; try (rewrite xorb_comm; reflexivity).
  rewrite xorb_comm, Pos.mul_comm, Z.add_comm. reflexivity.
Qed.

End FloatAlgebra.

Section Kernels.
Import Wat.

Lemma magnitude_loop_dot m ptr : forall left i sum,
  magnitude_loop m ptr left i sum = dot_loop m ptr ptr left i sum.
Proof.
  induction left as [|left IH]; intros i sum; [reflexivity|].
  cbn [magnitude_loop dot_loop].
  destruct (f64_load m (i32_add ptr (i32_shl i 3))) as [v|f mf]; [|reflexivity].
  cbn [ebind]. apply IH.
Qed.

(** X1.  Whatever the pointer, the length and the memory,
    [vec_magnitude] is the square root of [vec_dot] of the vector with
    itself, with the same outcome when an access faults, and
    [mat_frobenius_norm] of a matrix is [vec_magnitude] of its [size]
    elements. *)
Theorem magnitude_is_root_of_dot (ptr len : Z) (m : Memory) :
  vec_magnitude ptr len m
  = (s <- vec_dot ptr ptr len m ;;; Done (PrimFloat.sqrt s))
  /\ mat_frobenius_norm ptr len m = vec_magnitude ptr len m.
Proof.
  split; [|reflexivity].
  unfold vec_magnitude, vec_dot. rewrite magnitude_loop_dot. reflexivity.
Qed.

Lemma dot_loop_spec m a b xs ys : 
  holds m a xs -> holds m b ys ->
  forall rest i acc,
  drop i (zip xs ys) = rest ->
  dot_loop m a b (length rest) (Z.of_nat i) acc
  = Done (fold_left (fun acc p => (acc + fst p * snd p)%float) rest acc).
Proof.
  intros Ha Hb.
  induction rest as [|[x y] rest IH]; intros i acc Hdrop; [reflexivity|].
  assert (zip xs ys !! i = Some (x, y)) as Hi
      by (rewrite <- (Nat.add_0_r i), <- lookup_drop, Hdrop; reflexivity).
  apply lookup_zip_with_Some in Hi as (x' & y' & [= <- <-] & Hx & Hy).
  pose proof (lookup_lt_Some _ _ _ Hx) as Hltx.
  pose proof (lookup_lt_Some _ _ _ Hy) as Hlty.
  pose proof Ha as [Hlo Hal Hhi Hmem _].
  pose proof Hb as [Hlo' Hal' Hhi' _ _].
  cbn [dot_loop length]. rewrite !element_address by lia.
  rewrite (holds_load _ _ _ _ _ Ha Hx), (holds_load _ _ _ _ _ Hb Hy).
  cbn [ebind]. rewrite next_index by lia.
  replace (Z.of_nat i + 1) with (Z.of_nat (S i)) by lia.
  apply IH.
  replace (S i) with (i + 1)%nat by lia.
  rewrite <- drop_drop, Hdrop. reflexivity.
Qed.

Lemma dot_product_comm xs : forall ys acc,
  fold_left (fun acc p => (acc + fst p * snd p)%float) (zip xs ys) acc
  = fold_left (fun acc p => (acc + fst p * snd p)%float) (zip ys xs) acc.
Proof.
  induction xs as [|x xs IH]; intros [|y ys] acc; try reflexivity.
  simpl. rewrite (mul_comm x y). apply IH.
Qed.

(** X2.  For two vectors of the same length held in memory, [vec_dot]
    returns the sum of the products of their elements, accumulated in
    binary64 from the first element on, and it returns the same number
    with the two pointers exchanged. *)
Theorem vec_dot_spec (m : Memory) (a b : Z) (xs ys : list float) :
  holds m a xs -> holds m b ys -> length xs = length ys ->
  vec_dot a b (Z.of_nat (length xs)) m = Done (dot_product xs ys)
  /\ vec_dot b a (Z.of_nat (length xs)) m = Done (dot_product xs ys).
Proof.
  intros Ha Hb Hlen.
  assert (length (zip xs ys) = length xs) as Hzip
      by (rewrite length_zip_with; lia).
  assert (length (zip ys xs) = length xs) as Hzip'
      by (rewrite length_zip_with; lia).
  unfold vec_dot, dot_product. rewrite Nat2Z.id.
  change (i32_const 0) with (Z.of_nat 0). split.
  - rewrite <- Hzip at 1.
    apply (dot_loop_spec m a b xs ys Ha Hb (zip xs ys) 0%nat 0%float (drop_0 _)).
  - rewrite <- Hzip' at 1.
    rewrite (dot_loop_spec m b a ys xs Hb Ha (zip ys xs) 0%nat 0%float (drop_0 _)).
    rewrite dot_product_comm. reflexivity.
Qed.

End Kernels.

Section Pointwise.
Import Wat.

Lemma pointwise_start m a out xs zs :
  holds m a xs -> pointwise m a out xs zs 0 m.
Proof.
  intros [_ _ _ _ Hcells]. split; try reflexivity.
  - intros k z Hk. lia.
  - intros k x _ Hx. apply Hcells. exact Hx.
Qed.

Lemma pointwise_step m a out xs zs i mc z :
  pointwise m a out xs zs i mc ->
  same_or_apart out a (Z.of_nat (length xs)) ->
  (i < length xs)%nat -> zs !! i = Some z ->
  pointwise m a out xs zs (S i) (set_cell mc (out + 8 * Z.of_nat i) z).
Proof.
  intros [Hsize Hdone Htodo Hrest] Hsep Hi Hz. split.
  - exact Hsize.
  - intros k z' Hk Hz'. destruct (decide (k = i)) as [->|Hne].
    + rewrite cell_set_eq. congruence.
    + rewrite cell_set_ne by lia. apply Hdone; [lia|exact Hz'].
  - intros k x Hk Hx. pose proof (lookup_lt_Some _ _ _ Hx) as Hlt.
    rewrite cell_set_ne; [apply Htodo; [lia|exact Hx]|].
    destruct Hsep as [->|[?|?]]; lia.
  - intros addr Hout. rewrite cell_set_ne by lia. apply Hrest. exact Hout.
Qed.

Lemma pointwise_finish m a out xs zs mc :
  pointwise m a out xs zs (length xs) mc ->
  region m out (Z.of_nat (length xs)) -> byteLength m <= 2 ^ 32 ->
  length zs = length xs ->
  holds mc out zs /\ wrote_only m mc out (Z.of_nat (length xs)).
Proof.
  intros [Hsize Hdone Htodo Hrest] [Hlo Hal Hhi] Hmem Hlen. split; split;
    try assumption; try lia.
  intros k z Hz. apply Hdone; [|exact Hz].
  apply lookup_lt_Some in Hz. lia.
Qed.

(** What one iteration needs of the addresses. *)
Lemma store_at m out n i v :
  region m out n -> byteLength m <= 2 ^ 32 -> 0 <= i < n ->
  forall mc, byteLength mc = byteLength m ->
  f64_store mc (i32_add out (i32_shl i 3)) v = Done (set_cell mc (out + 8 * i) v).
Proof.
  intros [Hlo Hal Hhi] Hmem Hi mc Hsize.
  rewrite element_address by lia.
  apply store_in_bounds; [lia|apply aligned_offset; exact Hal|lia].
Qed.

Lemma load_at m a xs i x :
  holds m a xs -> xs !! i = Some x ->
  forall mc, byteLength mc = byteLength m ->
  cell mc (a + 8 * Z.of_nat i) = x ->
  f64_load mc (i32_add a (i32_shl (Z.of_nat i) 3)) = Done x.
Proof.
  intros [Hlo Hal Hhi Hmem _] Hx mc Hsize Hcell.
  pose proof (lookup_lt_Some _ _ _ Hx) as Hlt.
  rewrite element_address by lia.
  rewrite load_in_bounds; [rewrite Hcell; reflexivity|lia| |lia].
  apply aligned_offset. exact Hal.
Qed.

Section Add.
Variables (m : Memory) (a b out : Z) (xs ys : list float).
Hypothesis Ha : holds m a xs.
Hypothesis Hb : holds m b ys.
Hypothesis Hlen : length ys = length xs.
Hypothesis Hout : region m out (Z.of_nat (length xs)).
Hypothesis Hsa : same_or_apart out a (Z.of_nat (length xs)).
Hypothesis Hsb : same_or_apart out b (Z.of_nat (length xs)).

Lemma add_loop_spec : forall left i mc,
  (i + left = length xs)%nat ->
  pointwise m a out xs (zip_with PrimFloat.add xs ys) i mc ->
  pointwise m b out ys (zip_with PrimFloat.add xs ys) i mc ->
  exists m',
    add_loop mc a b out left (Z.of_nat i) = Done m'
    /\ pointwise m a out xs (zip_with PrimFloat.add xs ys) (length xs) m'.
Proof.
  induction left as [|left IH]; intros i mc Hi Hpa Hpb.
  - exists mc. split; [reflexivity|]. replace (length xs) with i by lia. exact Hpa.
  - destruct (lookup_lt_is_Some_2 xs i ltac:(lia)) as [x Hx].
    destruct (lookup_lt_is_Some_2 ys i ltac:(lia)) as [y Hy].
    assert (zip_with PrimFloat.add xs ys !! i = Some (x + y)%float) as Hz
        by (apply lookup_zip_with_Some; eauto).
    cbn [add_loop].
    rewrite (load_at m a xs i x Ha Hx mc (pw_size _ _ _ _ _ _ _ Hpa)
               (pw_todo _ _ _ _ _ _ _ Hpa i x ltac:(lia) Hx)).
    rewrite (load_at m b ys i y Hb Hy mc (pw_size _ _ _ _ _ _ _ Hpa)
               (pw_todo _ _ _ _ _ _ _ Hpb i y ltac:(lia) Hy)).
    cbn [ebind].
    rewrite (store_at m out _ (Z.of_nat i) _ Hout (holds_mem _ _ _ Ha) ltac:(lia)
               mc (pw_size _ _ _ _ _ _ _ Hpa)).
    cbn [ebind]. rewrite next_index by (pose proof Ha as [? ? ? ? ?]; lia).
    replace (Z.of_nat i + 1) with (Z.of_nat (S i)) by lia.
    apply IH; [lia| |].
    + apply pointwise_step; try assumption. lia.
    + apply pointwise_step; try assumption; rewrite Hlen; [assumption|lia].
Qed.

End Add.

(** X3.  [vec_add] on two vectors of the same length held in memory,
    with a result range inside the buffer that is one of the two inputs
    (as [WasmVector.add] calls it) or shares no byte with them: it returns,
    the result range then holds the element-wise sums of the inputs as they
    were before the call, and nothing outside the result range changed. *)
Theorem vec_add_elementwise (m : Memory) (a b out : Z) (xs ys : list float) :
  holds m a xs -> holds m b ys -> length ys = length xs ->
  region m out (Z.of_nat (length xs)) ->
  same_or_apart out a (Z.of_nat (length xs)) ->
  same_or_apart out b (Z.of_nat (length xs)) ->
  exists m',
    vec_add a b out (Z.of_nat (length xs)) m = Done m'
    /\ holds m' out (zip_with PrimFloat.add xs ys)
    /\ wrote_only m m' out (Z.of_nat (length xs)).
Proof.
  intros Ha Hb Hlen Hout Hsa Hsb.
  destruct (add_loop_spec m a b out xs ys Ha Hb Hlen Hout Hsa Hsb
              (length xs) 0%nat m eq_refl) as (m' & Hrun & Hp).
  { apply pointwise_start. exact Ha. }
  { apply pointwise_start. exact Hb. }
  exists m'. split.
  - unfold vec_add. rewrite Nat2Z.id. exact Hrun.
  - apply (pointwise_finish m a out xs); try assumption.
    + exact (holds_mem _ _ _ Ha).
    + rewrite length_zip_with. lia.
Qed.


Lemma scale_loop_spec m v out xs scalar :
  holds m v xs -> region m out (Z.of_nat (length xs)) ->
  same_or_apart out v (Z.of_nat (length xs)) ->
  forall left i mc,
  (i + left = length xs)%nat ->
  pointwise m v out xs (map (fun x => x * scalar)%float xs) i mc ->
  exists m',
    scale_loop mc v out scalar left (Z.of_nat i) = Done m'
    /\ pointwise m v out xs (map (fun x => x * scalar)%float xs) (length xs) m'.
Proof.
  intros Hv Hout Hsep.
  induction left as [|left IH]; intros i mc Hi Hp.
  - exists mc. split; [reflexivity|]. replace (length xs) with i by lia. exact Hp.
  - destruct (lookup_lt_is_Some_2 xs i ltac:(lia)) as [x Hx].
    cbn [scale_loop].
    rewrite (load_at m v xs i x Hv Hx mc (pw_size _ _ _ _ _ _ _ Hp)
               (pw_todo _ _ _ _ _ _ _ Hp i x ltac:(lia) Hx)).
    cbn [ebind].
    rewrite (store_at m out _ (Z.of_nat i) _ Hout (holds_mem _ _ _ Hv) ltac:(lia)
               mc (pw_size _ _ _ _ _ _ _ Hp)).
    cbn [ebind]. rewrite next_index by (pose proof Hv as [? ? ? ? ?]; lia).
    replace (Z.of_nat i + 1) with (Z.of_nat (S i)) by lia.
    apply IH; [lia|].
    apply pointwise_step; try assumption; [lia|].
    rewrite list_lookup_fmap, Hx. reflexivity.
Qed.

(** X4.  [vec_scale] with a result range that is the input itself (as
    [WasmVector.scale] calls it) or shares no byte with it: it returns, the
    result range holds every element times the scalar, and nothing outside
    it changed. *)
Theorem vec_scale_elementwise (m : Memory) (v out : Z) (xs : list float)
  (scalar : float) :
  holds m v xs -> region m out (Z.of_nat (length xs)) ->
  same_or_apart out v (Z.of_nat (length xs)) ->
  exists m',
    vec_scale v out (Z.of_nat (length xs)) scalar m = Done m'
    /\ holds m' out (map (fun x => x * scalar)%float xs)
    /\ wrote_only m m' out (Z.of_nat (length xs)).
Proof.
  intros Hv Hout Hsep.
  destruct (scale_loop_spec m v out xs scalar Hv Hout Hsep (length xs) 0%nat m eq_refl)
    as (m' & Hrun & Hp).
  { apply pointwise_start. exact Hv. }
  exists m'. split.
  - unfold vec_scale. rewrite Nat2Z.id. exact Hrun.
  - apply (pointwise_finish m v out xs); try assumption.
    + exact (holds_mem _ _ _ Hv).
    + apply length_map.
Qed.

Lemma holds_region m p xs : holds m p xs -> region m p (Z.of_nat (length xs)).
Proof. intros [? ? ? ? ?]. split; assumption. Qed.

Lemma normalize_loop_spec m ptr xs mag :
  holds m ptr xs ->
  forall left i mc,
  (i + left = length xs)%nat ->
  pointwise m ptr ptr xs (map (fun x => x / mag)%float xs) i mc ->
  exists m',
    normalize_loop mc ptr mag left (Z.of_nat i) = Done m'
    /\ pointwise m ptr ptr xs (map (fun x => x / mag)%float xs) (length xs) m'.
Proof.
  intros Hv. pose proof (holds_region _ _ _ Hv) as Hout.
  induction left as [|left IH]; intros i mc Hi Hp.
  - exists mc. split; [reflexivity|]. replace (length xs) with i by lia. exact Hp.
  - destruct (lookup_lt_is_Some_2 xs i ltac:(lia)) as [x Hx].
    cbn [normalize_loop].
    rewrite (load_at m ptr xs i x Hv Hx mc (pw_size _ _ _ _ _ _ _ Hp)
               (pw_todo _ _ _ _ _ _ _ Hp i x ltac:(lia) Hx)).
    cbn [ebind].
    rewrite (store_at m ptr _ (Z.of_nat i) _ Hout (holds_mem _ _ _ Hv) ltac:(lia)
               mc (pw_size _ _ _ _ _ _ _ Hp)).
    cbn [ebind]. rewrite next_index by (pose proof Hv as [? ? ? ? ?]; lia).
    replace (Z.of_nat i + 1) with (Z.of_nat (S i)) by lia.
    apply IH; [lia|].
    apply pointwise_step; try assumption; [left; reflexivity|lia|].
    rewrite list_lookup_fmap, Hx. reflexivity.
Qed.

Lemma magnitude_loop_spec m ptr xs : forall rest i acc,
  holds m ptr xs -> drop i xs = rest ->
  magnitude_loop m ptr (length rest) (Z.of_nat i) acc
  = Done (fold_left (fun a x => (a + x * x)%float) rest acc).
Proof.
  induction rest as [|x rest IH]; intros i acc Hholds Hdrop; [reflexivity|].
  assert (xs !! i = Some x) as Hi
      by (rewrite <- (Nat.add_0_r i), <- lookup_drop, Hdrop; reflexivity).
  pose proof (lookup_lt_Some _ _ _ Hi) as Hlt.
  pose proof Hholds as [Hlo Hal Hhi Hmem _].
  simpl. rewrite element_address by lia.
  rewrite (holds_load _ _ _ _ _ Hholds Hi). simpl.
  rewrite next_index by lia.
  replace (Z.of_nat i + 1) with (Z.of_nat (S i)) by lia.
  apply IH; [exact Hholds|].
  replace (S i) with (i + 1)%nat by lia.
  rewrite <- drop_drop, Hdrop. reflexivity.
Qed.

Lemma vec_magnitude_spec m ptr xs :
  holds m ptr xs ->
  vec_magnitude ptr (Z.of_nat (length xs)) m
  = Done (PrimFloat.sqrt (sum_of_squares xs)).
Proof.
  intros H. unfold vec_magnitude. rewrite Nat2Z.id.
  change (i32_const 0) with (Z.of_nat 0).
  rewrite (magnitude_loop_spec m ptr xs xs 0%nat 0%float H (drop_0 _)). reflexivity.
Qed.

Lemma zeros_sum_of_squares n : sum_of_squares (replicate n 0%float) = 0%float.
Proof.
  unfold sum_of_squares. induction n as [|n IH]; [reflexivity|]. exact IH.
Qed.

(** X5.  [vec_normalize] on a vector held in memory returns.  When
    the magnitude (the square root of the sum of the squares) is above
    1e-7, every element is divided by it; otherwise, also when it is NaN,
    the vector is left as it is.  Nothing outside the vector changes, and
    a vector of zeros leaves the whole memory as it was: no NaN appears. *)
Theorem vec_normalize_spec (m : Memory) (ptr : Z) (xs : list float) :
  holds m ptr xs ->
  let mag := PrimFloat.sqrt (sum_of_squares xs) in
  exists m',
    vec_normalize ptr (Z.of_nat (length xs)) m = Done m'
    /\ holds m' ptr (if f64_gt mag 0x1.ad7f29abcaf48p-24%float
                     then map (fun x => x / mag)%float xs else xs)
    /\ wrote_only m m' ptr (Z.of_nat (length xs))
    /\ (xs = replicate (length xs) 0%float -> m' = m).
Proof.
  intros Hv mag. unfold vec_normalize.
  change (vec_magnitude_internal ptr (Z.of_nat (length xs)) m)
    with (vec_magnitude ptr (Z.of_nat (length xs)) m).
  rewrite vec_magnitude_spec by exact Hv. cbn [ebind]. fold mag.
  destruct (f64_gt mag _) eqn:Hgt.
  - rewrite Nat2Z.id.
    destruct (normalize_loop_spec m ptr xs mag Hv (length xs) 0%nat m eq_refl)
      as (m' & Hrun & Hp).
    { apply pointwise_start. exact Hv. }
    exists m'. split; [exact Hrun|].
    destruct (pointwise_finish m ptr ptr xs _ m' Hp (holds_region _ _ _ Hv)
                (holds_mem _ _ _ Hv) (length_map _ _)) as [Hh Hw].
    split; [exact Hh|]. split; [exact Hw|].
    intros Hz. exfalso. unfold mag in Hgt. rewrite Hz, zeros_sum_of_squares in Hgt.
    vm_compute in Hgt. discriminate.
  - exists m. split; [reflexivity|]. split; [exact Hv|].
    split; [split; reflexivity|reflexivity].
Qed.

End Pointwise.


Section Chunks.
Import Wat.

Lemma holds_app m p xs ys :
  holds m p (xs ++ ys) ->
  holds m p xs /\ holds m (p + 8 * Z.of_nat (length xs)) ys.
Proof.
  intros [Hlo Hal Hhi Hmem Hcells]. rewrite length_app in Hhi.
  split; split; try assumption; try lia.
  - intros k x Hk. apply Hcells. apply lookup_app_l_Some. exact Hk.
  - apply aligned_offset. exact Hal.
  - intros k y Hk.
    replace (p + 8 * Z.of_nat (length xs) + 8 * Z.of_nat k)
      with (p + 8 * Z.of_nat (length xs + k)) by lia.
    apply Hcells. rewrite lookup_app_r by lia.
    replace (length xs + k - length xs)%nat with k by lia. exact Hk.
Qed.

Lemma holds_take m p xs n : holds m p xs -> holds m p (take n xs).
Proof.
  intros H. rewrite <- (take_drop n xs) in H. apply holds_app in H as [H _]. exact H.
Qed.

(** X6.  [process_chunk_sum(ptr, start, end)] on a vector held at
    [ptr] returns the sum of the elements from [start] up to [end], first
    to last; with [end <= start] it returns 0 without reading the memory;
    and [stats_mean] of [len > 0] elements is [process_chunk_sum] of the
    whole range divided by [len], faults included. *)
Theorem process_chunk_sum_spec :
  (forall m ptr xs (s e : nat),
      holds m ptr xs -> (s <= e <= length xs)%nat ->
      process_chunk_sum ptr (Z.of_nat s) (Z.of_nat e) m
      = Done (float_sum (take (e - s) (drop s xs))))
  /\ (forall m ptr s e, e <= s -> process_chunk_sum ptr s e m = Done 0%float)
  /\ (forall m ptr len, 0 < len ->
        stats_mean ptr len m
        = (sum <- process_chunk_sum ptr 0 len m ;;;
           Done (sum / f64_convert_i32_u len)%float)).
Proof.
  split; [|split].
  - intros m ptr xs s e Hh [Hs He].
    unfold process_chunk_sum, float_sum.
    pose proof (holds_take m ptr xs e Hh) as Hh'.
    assert (drop s (take e xs) = take (e - s) (drop s xs)) as Hdrop.
    { rewrite take_drop_commute. replace (s + (e - s))%nat with e by lia.
      reflexivity. }
    rewrite <- Hdrop.
    replace (Z.to_nat (Z.of_nat e - Z.of_nat s)) with (length (drop s (take e xs)))
      by (rewrite length_drop, length_take; lia).
    apply (sum_loop_spec m ptr (take e xs)); [exact Hh'|reflexivity].
  - intros m ptr s e Hes. unfold process_chunk_sum.
    replace (Z.to_nat (e - s)) with 0%nat by lia. reflexivity.
  - intros m ptr len Hlen. unfold stats_mean, process_chunk_sum, i32_eqz.
    replace (len =? 0) with false by (symmetry; apply Z.eqb_neq; lia).
    rewrite Z.sub_0_r. reflexivity.
Qed.


Lemma read_cells_length m : forall n p, length (read_cells m p n) = n.
Proof. induction n as [|n IH]; intros p; simpl; [reflexivity|]. rewrite IH. reflexivity. Qed.

Lemma read_cells_lookup m : forall n p k x,
  read_cells m p n !! k = Some x -> cell m (p + 8 * Z.of_nat k) = x.
Proof.
  induction n as [|n IH]; intros p k x Hk; [discriminate Hk|].
  destruct k as [|k]; simpl in Hk.
  - injection Hk as <-. f_equal. lia.
  - replace (p + 8 * Z.of_nat (S k)) with (p + 8 + 8 * Z.of_nat k) by lia.
    apply IH. exact Hk.
Qed.

Lemma region_holds m p n :
  region m p (Z.of_nat n) -> byteLength m <= 2 ^ 32 -> holds m p (read_cells m p n).
Proof.
  intros [Hlo Hal Hhi] Hmem. split; try assumption.
  - rewrite read_cells_length. exact Hhi.
  - apply read_cells_lookup.
Qed.

Lemma fill_loop_spec m ptr xs value :
  holds m ptr xs ->
  forall left i mc,
  (i + left = length xs)%nat ->
  pointwise m ptr ptr xs (replicate (length xs) value) i mc ->
  exists m',
    fill_loop mc ptr value left (Z.of_nat i) = Done m'
    /\ pointwise m ptr ptr xs (replicate (length xs) value) (length xs) m'.
Proof.
  intros Hv. pose proof (holds_region _ _ _ Hv) as Hout.
  induction left as [|left IH]; intros i mc Hi Hp.
  - exists mc. split; [reflexivity|]. assert (i = length xs) as -> by lia. exact Hp.
  - cbn [fill_loop].
    rewrite (store_at m ptr _ (Z.of_nat i) _ Hout (holds_mem _ _ _ Hv) ltac:(lia)
               mc (pw_size _ _ _ _ _ _ _ Hp)).
    cbn [ebind]. rewrite next_index by (pose proof Hv as [? ? ? ? ?]; lia).
    replace (Z.of_nat i + 1) with (Z.of_nat (S i)) by lia.
    apply IH; [lia|].
    apply pointwise_step; try assumption; [left; reflexivity|lia|].
    apply lookup_replicate_2. lia.
Qed.

Lemma mem_fill_over m ptr xs value :
  holds m ptr xs ->
  exists m',
    mem_fill_f64 ptr (Z.of_nat (length xs)) value m = Done m'
    /\ holds m' ptr (replicate (length xs) value)
    /\ wrote_only m m' ptr (Z.of_nat (length xs)).
Proof.
  intros Hh.
  destruct (fill_loop_spec m ptr xs value Hh (length xs) 0%nat m eq_refl)
    as (m' & Hrun & Hp).
  { apply pointwise_start. exact Hh. }
  exists m'. split.
  - unfold mem_fill_f64. rewrite Nat2Z.id. exact Hrun.
  - apply (pointwise_finish m ptr ptr xs); try assumption.
    + apply holds_region. exact Hh.
    + exact (holds_mem _ _ _ Hh).
    + apply length_replicate.
Qed.

(** X7.  [mem_fill_f64] on an aligned range of [n] doubles inside
    the buffer returns, the range then holds [n] copies of the value, and
    nothing outside it changed. *)
Theorem mem_fill_f64_spec (m : Memory) (ptr : Z) (n : nat) (value : float) :
  region m ptr (Z.of_nat n) -> byteLength m <= 2 ^ 32 ->
  exists m',
    mem_fill_f64 ptr (Z.of_nat n) value m = Done m'
    /\ holds m' ptr (replicate n value)
    /\ wrote_only m m' ptr (Z.of_nat n).
Proof.
  intros Hr Hmem.
  pose proof (mem_fill_over m ptr _ value (region_holds m ptr n Hr Hmem)) as H.
  rewrite read_cells_length in H. exact H.
Qed.

End Chunks.

(** ** [mat_multiply] *)

Section Multiply.
Import Wat.

Variables (mem : Memory) (a b c m k n : Z).
Hypothesis Hm : 0 <= m < 2 ^ 32.
Hypothesis Hk : 0 <= k < 2 ^ 32.
Hypothesis Hn : 0 <= n < 2 ^ 32.
Hypothesis Hmem : byteLength mem <= 2 ^ 32.
Hypothesis Ha : region mem a (m * k).
Hypothesis Hb : region mem b (k * n).
Hypothesis Hc : region mem c (m * n).
Hypothesis Hca : disjoint_ranges c (m * n) a (m * k).
Hypothesis Hcb : disjoint_ranges c (m * n) b (k * n).

Local Notation progress := (multiplying mem a b c m k n).

Lemma multiply_dot_spec i j mc :
  0 <= i < m -> 0 <= j < n -> progress i j mc ->
  forall left l acc,
  0 <= l -> l + Z.of_nat left = k ->
  multiply_dot mc a b k n i j left l acc
  = Done (fold_left (fun acc l =>
                       (acc + cell mem (a + 8 * (i * k + l))
                              * cell mem (b + 8 * (l * n + j)))%float)
            (seqZ l (Z.of_nat left)) acc).
Proof.
  intros Hi Hj [Hsize _ Hrest].
  destruct Ha as [Halo Haal Hahi]. destruct Hb as [Hblo Hbal Hbhi].
  induction left as [|left IH]; intros l acc Hl Hleft; [reflexivity|].
  pose proof (index_bound i l m k Hi ltac:(lia)) as Hil.
  pose proof (index_bound l j k n ltac:(lia) Hj) as Hlj.
  pose proof (index_bound i j m n Hi Hj) as Hij.
  cbn [multiply_dot].
  assert (i32_add a (i32_shl (i32_add (i32_mul i k) l) 3) = a + 8 * (i * k + l)) as ->.
  { unfold i32_mul. rewrite wrap32_small by nia.
    unfold i32_add at 2. rewrite wrap32_small by nia.
    apply element_address; nia. }
  assert (i32_add b (i32_shl (i32_add (i32_mul l n) j) 3) = b + 8 * (l * n + j)) as ->.
  { unfold i32_mul. rewrite wrap32_small by nia.
    unfold i32_add at 2. rewrite wrap32_small by nia.
    apply element_address; nia. }
  rewrite load_in_bounds by (try apply aligned_offset; nia || assumption).
  cbn [ebind].
  rewrite load_in_bounds by (try apply aligned_offset; nia || assumption).
  cbn [ebind].
  rewrite next_index by lia.
  rewrite IH by lia.
  rewrite (seqZ_cons l (Z.of_nat (S left))) by lia.
  cbn [fold_left].
  replace (Z.pred (Z.of_nat (S left))) with (Z.of_nat left) by lia.
  replace (Z.succ l) with (l + 1) by lia.
  rewrite !Hrest; [reflexivity| |].
  - destruct Hcb; [right|left]; nia.
  - destruct Hca; [right|left]; nia.
Qed.

Lemma multiply_step i j mc :
  0 <= i < m -> 0 <= j < n -> progress i j mc ->
  exists mc',
    (sum <- multiply_dot mc a b k n i j (Z.to_nat k) (i32_const 0) 0%float ;;;
     f64_store mc (i32_add c (i32_shl (i32_add (i32_mul i n) j) 3)) sum)
    = Done mc'
    /\ progress i (j + 1) mc'.
Proof.
  intros Hi Hj Hp.
  rewrite (multiply_dot_spec i j mc Hi Hj Hp) by (change (i32_const 0) with 0; lia).
  cbn [ebind]. change (i32_const 0) with 0. rewrite Z2Nat.id by lia.
  fold (row_times_column mem a b k n i j).
  destruct Hp as [Hsize Hdone Hrest]. destruct Hc as [Hclo Hcal Hchi].
  pose proof (index_bound i j m n Hi Hj) as Hij.
  assert (i32_add c (i32_shl (i32_add (i32_mul i n) j) 3) = c + 8 * (i * n + j)) as ->.
  { unfold i32_mul. rewrite wrap32_small by nia.
    unfold i32_add at 2. rewrite wrap32_small by nia.
    apply element_address; nia. }
  rewrite store_in_bounds by (try apply aligned_offset; nia || assumption).
  eexists. split; [reflexivity|]. split.
  - exact Hsize.
  - intros i' j' Hi' Hj' Hbefore.
    destruct (Z.eq_dec (i' * n + j') (i * n + j)) as [Heq|Hne].
    + destruct (index_inj j' i' j i n Hj' Hj Heq) as [-> ->].
      rewrite cell_set_eq. reflexivity.
    + rewrite cell_set_ne by lia. apply Hdone; try assumption.
      destruct Hbefore as [?|[-> ?]]; [left; assumption|].
      right. split; [reflexivity|]. assert (j' <> j) by (intros ->; lia). lia.
  - intros addr Hout. rewrite cell_set_ne by (destruct Hout; nia).
    apply Hrest. exact Hout.
Qed.

Lemma multiply_row_spec i : 0 <= i < m ->
  forall left j mc,
    0 <= j -> j + Z.of_nat left = n -> progress i j mc ->
    exists mr,
      multiply_row mc a b c k n i left j = Done mr
      /\ progress i n mr.
Proof.
  intros Hi. induction left as [|left IH]; intros j mc Hj Hleft Hp.
  - simpl. exists mc. split; [reflexivity|].
    assert (j = n) as -> by lia. exact Hp.
  - destruct (multiply_step i j mc Hi ltac:(lia) Hp) as (mc' & Hstep & Hp').
    cbn [multiply_row].
    destruct (multiply_dot mc _ _ _ _ _ _ _ _ _) as [v|f mf] eqn:Hdot;
      [|discriminate Hstep].
    cbn [ebind] in Hstep |- *. rewrite Hstep. cbn [ebind].
    rewrite next_index by lia. apply IH; [lia|lia|exact Hp'].
Qed.

Lemma multiplying_next_row i mc : progress i n mc -> progress (i + 1) 0 mc.
Proof.
  intros [Hsize Hdone Hrest]. split; try assumption.
  intros i' j' Hi' Hj' [Hlt|[-> Hneg]]; [|lia].
  apply Hdone; try assumption. unfold before. lia.
Qed.

Lemma multiply_rows_spec :
  forall left i mc,
    0 <= i -> i + Z.of_nat left = m -> progress i 0 mc ->
    exists mr,
      multiply_rows mc a b c k n left i = Done mr
      /\ progress m 0 mr.
Proof.
  induction left as [|left IH]; intros i mc Hi Hleft Hp.
  - simpl. exists mc. split; [reflexivity|].
    assert (i = m) as -> by lia. exact Hp.
  - cbn [multiply_rows]. change (i32_const 0) with 0.
    destruct (multiply_row_spec i ltac:(lia) (Z.to_nat n) 0 mc
                ltac:(lia) ltac:(lia) Hp) as (mr & -> & Hp').
    cbn [ebind]. rewrite next_index by lia.
    apply IH; [lia|lia|apply multiplying_next_row; exact Hp'].
Qed.

End Multiply.

Section MultiplyClaim.
Import Wat.

(** X8.  [mat_multiply] of an [m] by [k] matrix at [a] and a [k] by
    [n] matrix at [b] into [c], the three ranges inside the buffer and [c]
    sharing no byte with [a] or [b]: it returns, [C[i][j]] is the sum over
    [l] of [A[i][l] * B[l][j]] accumulated from [l = 0] on, and nothing
    outside [c] changed. *)
Theorem mat_multiply_spec (mem : Memory) (a b c m k n : Z) :
  0 <= m < 2 ^ 32 -> 0 <= k < 2 ^ 32 -> 0 <= n < 2 ^ 32 ->
  byteLength mem <= 2 ^ 32 ->
  region mem a (m * k) -> region mem b (k * n) -> region mem c (m * n) ->
  disjoint_ranges c (m * n) a (m * k) -> disjoint_ranges c (m * n) b (k * n) ->
  exists mem',
    mat_multiply a b c m k n mem = Done mem'
    /\ wrote_only mem mem' c (m * n)
    /\ (forall i j, 0 <= i < m -> 0 <= j < n ->
                    cell mem' (c + 8 * (i * n + j))
                    = row_times_column mem a b k n i j).
Proof.
  intros Hm Hk Hn Hmem Ha Hb Hc Hca Hcb.
  unfold mat_multiply. change (i32_const 0) with 0.
  destruct (multiply_rows_spec mem a b c m k n Hm Hk Hn Hmem Ha Hb Hc Hca Hcb
              (Z.to_nat m) 0 mem ltac:(lia) ltac:(lia))
    as (mr & Hrun & [Hsize Hdone Hrest]).
  { split; [reflexivity| |reflexivity]. intros i j Hi Hj [?|[? ?]]; lia. }
  exists mr. split; [exact Hrun|]. split; [split; assumption|].
  intros i j Hi Hj. apply Hdone; try assumption. left. lia.
Qed.

End MultiplyClaim.

(** ** [signal_convolve] *)

Section Convolve.
Import Wat.

Variables (m : Memory) (input kernel output input_len kernel_len : Z).
Hypothesis Hil : 0 <= input_len < 2 ^ 32.
Hypothesis Hkl : 0 <= kernel_len < 2 ^ 32.
Hypothesis Hmem : byteLength m <= 2 ^ 32.
Hypothesis Hi : region m input input_len.
Hypothesis Hk : region m kernel kernel_len.
Hypothesis Ho : region m output input_len.
Hypothesis Hoi : disjoint_ranges output input_len input input_len.
Hypothesis Hok : disjoint_ranges output input_len kernel kernel_len.

Local Notation progress := (convolving m input kernel output input_len kernel_len).

Lemma signed32_wrap t : - 2 ^ 31 <= t < 2 ^ 31 -> signed32 (wrap32 t) = t.
Proof.
  intros Ht. unfold signed32, wrap32.
  destruct (Z.lt_ge_cases t 0) as [Hneg|Hpos].
  - replace (t mod 2 ^ 32) with (t + 2 ^ 32)
      by (apply Z.mod_unique with (-1); lia).
    replace (t + 2 ^ 32 <? 2 ^ 31) with false by (symmetry; apply Z.ltb_ge; lia). lia.
  - rewrite Z.mod_small by lia.
    replace (t <? 2 ^ 31) with true by (symmetry; apply Z.ltb_lt; lia). reflexivity.
Qed.

Lemma input_index i j :
  0 <= i < input_len -> 0 <= j < kernel_len ->
  let t := i + kernel_len / 2 - j in
  let idx := i32_sub (i32_add i (i32_div_u kernel_len (i32_const 2))) j in
  i32_ge_s idx (i32_const 0) && i32_lt_u idx input_len
  = (0 <=? t) && (t <? input_len)
  /\ (0 <= t < input_len -> idx = t).
Proof.
  intros Hi' Hj t idx.
  destruct Hi as [Hilo _ Hihi]. destruct Hk as [Hklo _ Hkhi].
  assert (input_len <= 2 ^ 29) by lia.
  assert (kernel_len <= 2 ^ 29) by lia.
  assert (0 <= kernel_len / 2 <= kernel_len) as Hhalf.
  { split; [apply Z.div_pos; lia|]. apply Z.div_le_upper_bound; lia. }
  assert (idx = wrap32 t) as Hidx.
  { unfold idx, t, i32_sub, i32_add, i32_div_u. change (i32_const 2) with 2.
    rewrite (wrap32_small (i + kernel_len / 2)) by lia. reflexivity. }
  split.
  - unfold i32_ge_s, i32_lt_u. change (i32_const 0) with 0.
    change (signed32 0) with 0. rewrite Hidx, signed32_wrap by lia.
    destruct (Z.leb_spec 0 t) as [Hpos|Hneg]; [|reflexivity]. simpl.
    rewrite wrap32_small by lia. reflexivity.
  - intros Ht. rewrite Hidx. apply wrap32_small. lia.
Qed.

Lemma convolve_dot_spec i mc :
  0 <= i < input_len -> progress i mc ->
  forall left j acc,
  0 <= j -> j + Z.of_nat left = kernel_len ->
  convolve_dot mc input kernel input_len kernel_len i left j acc
  = Done (fold_left (fun acc j =>
                       let t := i + kernel_len / 2 - j in
                       if (0 <=? t) && (t <? input_len)
                       then (acc + cell m (input + 8 * t) * cell m (kernel + 8 * j))%float
                       else acc)
            (seqZ j (Z.of_nat left)) acc).
Proof.
  intros Hi' [Hsize _ Hrest].
  destruct Hi as [Hilo Hial Hihi]. destruct Hk as [Hklo Hkal Hkhi].
  induction left as [|left IH]; intros j acc Hj Hleft; [reflexivity|].
  destruct (input_index i j Hi' ltac:(lia)) as [Hcheck Hidx].
  cbn [convolve_dot]. cbv zeta in Hcheck, Hidx. rewrite Hcheck.
  rewrite (seqZ_cons j (Z.of_nat (S left))) by lia.
  cbn [fold_left].
  replace (Z.pred (Z.of_nat (S left))) with (Z.of_nat left) by lia.
  replace (Z.succ j) with (j + 1) by lia.
  destruct ((0 <=? i + kernel_len / 2 - j) && (i + kernel_len / 2 - j <? input_len))
    eqn:Hin.
  - apply andb_true_iff in Hin as [H0 H1].
    apply Z.leb_le in H0. apply Z.ltb_lt in H1.
    rewrite Hidx by lia.
    rewrite !element_address by lia.
    rewrite load_in_bounds by (try apply aligned_offset; lia || assumption).
    cbn [ebind].
    rewrite load_in_bounds by (try apply aligned_offset; lia || assumption).
    cbn [ebind].
    rewrite next_index by lia. rewrite IH by lia.
    rewrite !Hrest; [reflexivity| |].
    + destruct Hok; [right|left]; lia.
    + destruct Hoi; [right|left]; lia.
  - cbn [ebind]. rewrite next_index by lia. apply IH; lia.
Qed.

Lemma convolve_loop_spec :
  forall left i mc,
    0 <= i -> i + Z.of_nat left = input_len -> progress i mc ->
    exists mr,
      convolve_loop mc input kernel output input_len kernel_len left i = Done mr
      /\ progress input_len mr.
Proof.
  destruct Ho as [Holo Hoal Hohi].
  induction left as [|left IH]; intros i mc Hi' Hleft Hp.
  - simpl. exists mc. split; [reflexivity|].
    assert (i = input_len) as -> by lia. exact Hp.
  - cbn [convolve_loop].
    rewrite (convolve_dot_spec i mc ltac:(lia) Hp) by (change (i32_const 0) with 0; lia).
    cbn [ebind]. change (i32_const 0) with 0. rewrite Z2Nat.id by lia.
    fold (convolution_at m input kernel input_len kernel_len i).
    destruct Hp as [Hsize Hdone Hrest].
    rewrite element_address by lia.
    rewrite store_in_bounds by (try apply aligned_offset; lia || assumption).
    cbn [ebind]. rewrite next_index by lia.
    apply IH; [lia|lia|]. split.
    + exact Hsize.
    + intros i' Hi''. destruct (Z.eq_dec i' i) as [->|Hne].
      * rewrite cell_set_eq. reflexivity.
      * rewrite cell_set_ne by lia. apply Hdone. lia.
    + intros addr Hout. rewrite cell_set_ne by lia. apply Hrest. exact Hout.
Qed.

End Convolve.

Section ConvolveClaim.
Import Wat.

(** X9.  [signal_convolve] with the input, the kernel and the output
    inside the buffer, the output sharing no byte with the other two: it
    returns without an access outside the three ranges, [output[i]] is the
    sum of [input[i + kernel_len / 2 - j] * kernel[j]] over the [j] whose
    input index lies in the input, and nothing outside the output
    changed. *)
Theorem signal_convolve_spec (m : Memory)
  (input kernel output input_len kernel_len : Z) :
  0 <= input_len < 2 ^ 32 -> 0 <= kernel_len < 2 ^ 32 ->
  byteLength m <= 2 ^ 32 ->
  region m input input_len -> region m kernel kernel_len ->
  region m output input_len ->
  disjoint_ranges output input_len input input_len ->
  disjoint_ranges output input_len kernel kernel_len ->
  exists m',
    signal_convolve input kernel output input_len kernel_len m = Done m'
    /\ wrote_only m m' output input_len
    /\ (forall i, 0 <= i < input_len ->
                  cell m' (output + 8 * i)
                  = convolution_at m input kernel input_len kernel_len i).
Proof.
  intros Hil Hkl Hmem Hi Hk Ho Hoi Hok.
  unfold signal_convolve. change (i32_const 0) with 0.
  destruct (convolve_loop_spec m input kernel output input_len kernel_len
              Hkl Hmem Hi Hk Ho Hoi Hok (Z.to_nat input_len) 0 m
              ltac:(lia) ltac:(lia))
    as (mr & Hrun & [Hsize Hdone Hrest]).
  { split; [reflexivity| |reflexivity]. intros i Hi'. lia. }
  exists mr. split; [exact Hrun|]. split; [split; assumption|].
  intros i Hi'. apply Hdone. exact Hi'.
Qed.

End ConvolveClaim.

(** ** The kernels at work *)

Section KernelExamples.
Import Wat.

Lemma heap_region xs p n :
  65536 <= p -> p mod 8 = 0 -> p + 8 * n <= 16777216 ->
  region (heap_with xs) p n.
Proof.
  intros Hlo Hal Hhi. split; [lia|exact Hal|].
  unfold heap_with. rewrite write_cells_byteLength.
  change (byteLength (memory instantiate)) with 16777216. exact Hhi.
Qed.

Lemma heap_size xs : byteLength (heap_with xs) <= 2 ^ 32.
Proof.
  unfold heap_with. rewrite write_cells_byteLength.
  change (byteLength (memory instantiate)) with 16777216. lia.
Qed.

(** [1; 2; 3] at 65536 and [4; 5; 6] at 65560. *)
Lemma two_vectors :
  holds (heap_with [1; 2; 3; 4; 5; 6]%float) 65536 [1; 2; 3]%float
  /\ holds (heap_with [1; 2; 3; 4; 5; 6]%float) 65560 [4; 5; 6]%float.
Proof.
  apply (holds_app _ 65536 [1; 2; 3]%float [4; 5; 6]%float).
  apply (heap_with_holds [1; 2; 3; 4; 5; 6]%float). simpl. lia.
Qed.

Lemma vec_dot_spec_witness :
  vec_dot 65536 65560 3 (heap_with [1; 2; 3; 4; 5; 6]%float) = Done 32%float
  /\ vec_dot 65560 65536 3 (heap_with [1; 2; 3; 4; 5; 6]%float) = Done 32%float.
Proof.
  exact (vec_dot_spec _ 65536 65560 [1; 2; 3]%float [4; 5; 6]%float
           (proj1 two_vectors) (proj2 two_vectors) eq_refl).
Defined.

(** In place, as [WasmVector.add] calls it. *)
Lemma vec_add_elementwise_witness :
  exists m',
    vec_add 65536 65560 65536 3 (heap_with [1; 2; 3; 4; 5; 6]%float) = Done m'
    /\ holds m' 65536 [5; 7; 9]%float
    /\ wrote_only (heap_with [1; 2; 3; 4; 5; 6]%float) m' 65536 3.
Proof.
  apply (vec_add_elementwise _ 65536 65560 65536 [1; 2; 3]%float [4; 5; 6]%float
           (proj1 two_vectors) (proj2 two_vectors) eq_refl).
  - apply heap_region; [lia|reflexivity|simpl; lia].
  - left. reflexivity.
  - right. left. simpl. lia.
Defined.

Lemma vec_scale_elementwise_witness :
  exists m',
    vec_scale 65536 65536 3 2%float (heap_with [1; 2; 3; 4; 5; 6]%float) = Done m'
    /\ holds m' 65536 [2; 4; 6]%float
    /\ wrote_only (heap_with [1; 2; 3; 4; 5; 6]%float) m' 65536 3.
Proof.
  apply (vec_scale_elementwise _ 65536 65536 [1; 2; 3]%float 2%float
           (proj1 two_vectors)).
  - apply heap_region; [lia|reflexivity|simpl; lia].
  - left. reflexivity.
Defined.

(** [3; 4] has magnitude 5: it becomes [0.6; 0.8], rounded. *)
Lemma vec_normalize_spec_witness :
  exists m',
    vec_normalize 65536 2 (heap_with [3; 4]%float) = Done m'
    /\ holds m' 65536 [0x1.3333333333333p-1; 0x1.999999999999ap-1]%float.
Proof.
  destruct (vec_normalize_spec (heap_with [3; 4]%float) 65536 [3; 4]%float
              (heap_with_holds [3; 4]%float ltac:(simpl; lia)))
    as (m' & Hrun & Hh & _).
  exists m'. split; [exact Hrun|exact Hh].
Defined.

Lemma mem_fill_f64_spec_witness :
  exists m',
    mem_fill_f64 65536 3 7%float (memory instantiate) = Done m'
    /\ holds m' 65536 [7; 7; 7]%float
    /\ wrote_only (memory instantiate) m' 65536 3.
Proof.
  apply (mem_fill_f64_spec (memory instantiate) 65536 3 7%float).
  - apply (heap_region [] 65536 3); [lia|reflexivity|lia].
  - apply (heap_size []).
Defined.

(** [[1 2; 3 4] * [5 6; 7 8] = [19 22; 43 50]], written behind the two. *)
Lemma mat_multiply_spec_witness :
  exists mem',
    mat_multiply 65536 65568 65600 2 2 2
      (heap_with [1; 2; 3; 4; 5; 6; 7; 8]%float) = Done mem'
    /\ cell mem' 65600 = 19%float /\ cell mem' 65608 = 22%float
    /\ cell mem' 65616 = 43%float /\ cell mem' 65624 = 50%float.
Proof.
  destruct (mat_multiply_spec (heap_with [1; 2; 3; 4; 5; 6; 7; 8]%float)
              65536 65568 65600 2 2 2
              ltac:(lia) ltac:(lia) ltac:(lia) (heap_size _)
              (heap_region _ 65536 (2 * 2) ltac:(lia) eq_refl ltac:(lia))
              (heap_region _ 65568 (2 * 2) ltac:(lia) eq_refl ltac:(lia))
              (heap_region _ 65600 (2 * 2) ltac:(lia) eq_refl ltac:(lia))
              ltac:(right; lia) ltac:(right; lia))
    as (mem' & Hrun & _ & Hcells).
  exists mem'. split; [exact Hrun|].
  repeat split.
  - exact (Hcells 0 0 ltac:(lia) ltac:(lia)).
  - exact (Hcells 0 1 ltac:(lia) ltac:(lia)).
  - exact (Hcells 1 0 ltac:(lia) ltac:(lia)).
  - exact (Hcells 1 1 ltac:(lia) ltac:(lia)).
Defined.

(** The running sum of three neighbours of [1; 2; 3; 4], the kernel
    [1; 1; 1] behind it: [3; 6; 9; 7]. *)
Lemma signal_convolve_spec_witness :
  exists m',
    signal_convolve 65536 65568 65592 4 3
      (heap_with [1; 2; 3; 4; 1; 1; 1]%float) = Done m'
    /\ cell m' 65592 = 3%float /\ cell m' 65600 = 6%float
    /\ cell m' 65608 = 9%float /\ cell m' 65616 = 7%float.
Proof.
  destruct (signal_convolve_spec (heap_with [1; 2; 3; 4; 1; 1; 1]%float)
              65536 65568 65592 4 3
              ltac:(lia) ltac:(lia) (heap_size _)
              (heap_region _ 65536 4 ltac:(lia) eq_refl ltac:(lia))
              (heap_region _ 65568 3 ltac:(lia) eq_refl ltac:(lia))
              (heap_region _ 65592 4 ltac:(lia) eq_refl ltac:(lia))
              ltac:(right; lia) ltac:(right; lia))
    as (m' & Hrun & _ & Hcells).
  exists m'. split; [exact Hrun|].
  repeat split.
  - exact (Hcells 0 ltac:(lia)).
  - exact (Hcells 1 ltac:(lia)).
  - exact (Hcells 2 ltac:(lia)).
  - exact (Hcells 3 ltac:(lia)).
Defined.

End KernelExamples.

(** ** The allocator: statistics, metrics, zero-length blocks, reset *)

Section ManagerStatistics.
Import MemoryManager.

(** X10.  In every state the manager reaches from [initialize] by calls
    of [allocate] with a length that is not negative, of [deallocate] and
    of [reset], [getStats()] returns: [usedBytes] and [freeBytes] are not
    negative and add up, with the reserved 64 KiB, to [totalBytes]; and
    every tracked block and every free block lies inside the used part of
    the heap, [[65536, 65536 + usedBytes)].  A negative length breaks
    this: [allocate(Float64Array, -1)] on a freshly initialised manager
    throws the [RangeError] of the typed-array constructor after the heap
    pointer has moved back by 8 bytes, and [getStats()] then reports
    [usedBytes = -8]. *)
Theorem getStats_consistent :
  (forall w,
     reachable w ->
     exists st,
       getStats w = Normal st w
       /\ 0 <= Stats.usedBytes st /\ 0 <= Stats.freeBytes st
       /\ Stats.usedBytes st + Stats.freeBytes st + RESERVED_BYTES
          = Stats.totalBytes st
       /\ (forall p b, allocations (manager w) !! p = Some b ->
             RESERVED_BYTES <= MemoryBlock.ptr b
             /\ MemoryBlock.ptr b + MemoryBlock.size b
                <= RESERVED_BYTES + Stats.usedBytes st)
       /\ (forall i b, freeList (manager w) !! i = Some b ->
             RESERVED_BYTES <= MemoryBlock.ptr b
             /\ MemoryBlock.ptr b + MemoryBlock.size b
                <= RESERVED_BYTES + Stats.usedBytes st))
  /\ (exists w' st,
        allocate Float64Array (-1) None 1 fresh = Throw RangeError w'
        /\ getStats w' = Normal st w'
        /\ Stats.usedBytes st = -8
        /\ Stats.totalBytes st = 16777216 /\ Stats.freeBytes st = 16711688).
Proof.
  split.
  - intros w Hr. destruct (reachable_Inv w Hr) as [Hinv Hw].
    destruct Hinv as [Hok _ Halloc Hfree _ _ _].
    pose proof (heap_usage_ok _ Hok) as Hu.
    pose proof Hok as [Hlo _ Hhi _ _].
    eexists. split.
    { unfold getStats, bind, getWasm. rewrite Hw. reflexivity. }
    cbn [Stats.usedBytes Stats.freeBytes Stats.totalBytes]. rewrite Hu.
    split; [lia|]. split; [lia|]. split; [lia|]. split.
    + intros p b Hb. destruct (Halloc p b Hb) as (H1 & _ & _ & H2). lia.
    + intros i b Hb. destruct (Hfree i b Hb) as (H1 & _ & _ & H2). lia.
  - do 2 eexists. split; [vm_compute; reflexivity|].
    split; [vm_compute; reflexivity|].
    repeat split; reflexivity.
Qed.

Lemma getStats_consistent_witness :
  exists st,
    getStats three_free = Normal st three_free
    /\ Stats.usedBytes st = 144 /\ Stats.freeBytes st = 16711536
    /\ Stats.allocations st = 0 /\ Stats.freeBlocks st = 3.
Proof.
  destruct (proj1 getStats_consistent three_free three_free_reachable)
    as (st & Hrun & _).
  exists st. split; [exact Hrun|].
  assert (Normal st three_free = getStats three_free) as H by (symmetry; exact Hrun).
  vm_compute in H. injection H as ->. vm_compute. repeat split; reflexivity.
Defined.

Lemma live_bytes_empty : live_bytes ∅ = 0.
Proof. unfold live_bytes. apply map_fold_empty. Qed.

Lemma live_bytes_delete al p b :
  al !! p = Some b -> live_bytes al = MemoryBlock.size b + live_bytes (delete p al).
Proof.
  intros H. unfold live_bytes.
  apply (map_fold_delete_L (fun _ b acc => MemoryBlock.size b + acc)); [|exact H].
  intros. lia.
Qed.

Lemma live_bytes_fresh al p b :
  al !! p = None -> live_bytes (<[p := b]> al) = MemoryBlock.size b + live_bytes al.
Proof.
  intros H. unfold live_bytes.
  apply (map_fold_insert_L (fun _ b acc => MemoryBlock.size b + acc)); [|exact H].
  intros. lia.
Qed.

Lemma live_bytes_nonneg al :
  (forall p b, al !! p = Some b -> 0 <= MemoryBlock.size b) -> 0 <= live_bytes al.
Proof.
  induction al as [|p b al Hp IH] using map_ind; intros Hsize.
  - rewrite live_bytes_empty. lia.
  - rewrite live_bytes_fresh by exact Hp.
    pose proof (Hsize p b (lookup_insert_eq _ _ _)).
    assert (0 <= live_bytes al); [|lia].
    apply IH. intros q c Hq. apply (Hsize q c).
    rewrite lookup_insert_ne; [exact Hq|]. intros ->. congruence.
Qed.

Lemma live_bytes_insert al p b :
  (forall q c, al !! q = Some c -> 0 <= MemoryBlock.size c) ->
  live_bytes (<[p := b]> al) <= MemoryBlock.size b + live_bytes al.
Proof.
  intros Hsize. destruct (al !! p) as [old|] eqn:E.
  - rewrite <- insert_delete_eq.
    rewrite live_bytes_fresh by apply lookup_delete_eq.
    rewrite (live_bytes_delete al p old E).
    pose proof (Hsize p old E). lia.
  - rewrite live_bytes_fresh by exact E. lia.
Qed.

(** The counters the invariant is about. *)
Lemma metrics_allocate n m :
  enableTracking (config m) = true ->
  _metrics (updateMetrics op_allocate n m)
  = {| totalAllocations := totalAllocations (_metrics m) + 1;
       totalDeallocations := totalDeallocations (_metrics m);
       peakMemoryUsage := Z.max (peakMemoryUsage (_metrics m))
                            (currentMemoryUsage (_metrics m) + n);
       currentMemoryUsage := currentMemoryUsage (_metrics m) + n;
       totalComputeTimeMs := totalComputeTimeMs (_metrics m);
       operationCounts := operationCounts (_metrics m) |}.
Proof. intros H. unfold updateMetrics. rewrite H. reflexivity. Qed.

Lemma Inv_sizes w p b :
  Inv w -> allocations (manager w) !! p = Some b -> 0 <= MemoryBlock.size b.
Proof. intros [_ _ Ha _ _ _ _] H. destruct (Ha p b H) as (_ & _ & ? & _). assumption. Qed.

Lemma perform_config r w :
  reachable w -> valid r ->
  config (manager (perform r w)) = config (manager w).
Proof.
  intros Hr Hvalid. destruct (reachable_Inv w Hr) as [Hinv Hw].
  destruct r as [C len label now|p|]; simpl in Hvalid |- *.
  - destruct (allocate_cases C len label now w Hinv Hw Hvalid)
      as [(i & b & v & _ & ->)|[(_ & e & _ & ->)|(_ & w1 & v & _ & ->)]];
      cbn [final_state]; try reflexivity;
      unfold after_allocate; cbn [manager]; rewrite updateMetrics_config; reflexivity.
  - destruct (allocations (manager w) !! p) as [b|] eqn:E.
    + rewrite (deallocate_tracked p _ b E). cbn [fst].
      rewrite updateMetrics_config. reflexivity.
    + rewrite (deallocate_unknown p _ E). reflexivity.
  - rewrite (reset_bound w Hw). cbn [final_state manager].
    rewrite updateMetrics_config. reflexivity.
Qed.

Lemma metrics_after_allocate w p C len label now inst fl :
  Inv w -> enableTracking (config (manager w)) = true ->
  let w' := after_allocate (tracked p C len label now) inst fl w in
  live_bytes (allocations (manager w)) <= currentMemoryUsage (_metrics (manager w))
  /\ currentMemoryUsage (_metrics (manager w)) <= peakMemoryUsage (_metrics (manager w))
  /\ totalDeallocations (_metrics (manager w))
     + Z.of_nat (size (allocations (manager w)))
     <= totalAllocations (_metrics (manager w))
  /\ 0 <= totalDeallocations (_metrics (manager w)) ->
  live_bytes (allocations (manager w')) <= currentMemoryUsage (_metrics (manager w'))
  /\ currentMemoryUsage (_metrics (manager w')) <= peakMemoryUsage (_metrics (manager w'))
  /\ totalDeallocations (_metrics (manager w'))
     + Z.of_nat (size (allocations (manager w')))
     <= totalAllocations (_metrics (manager w'))
  /\ 0 <= totalDeallocations (_metrics (manager w')).
Proof.
  intros Hinv Ht w' IH. unfold w', after_allocate. cbn [manager].
  rewrite updateMetrics_allocations, metrics_allocate by exact Ht.
  cbn [allocations set_allocations set_freeList _metrics totalAllocations
       totalDeallocations peakMemoryUsage currentMemoryUsage tracked
       MemoryBlock.ptr MemoryBlock.size].
  pose proof (live_bytes_insert (allocations (manager w)) p
                (tracked p C len label now)
                (fun q c => Inv_sizes w q c Hinv)) as Hle.
  cbn [tracked MemoryBlock.size] in Hle.
  pose proof (map_size_insert p (tracked p C len label now)
                (allocations (manager w))) as Hsz.
  cbn [tracked] in Hsz.
  destruct (allocations (manager w) !! p); simpl in Hsz; lia.
Qed.

(** X11.  With tracking enabled, in every state the manager reaches:
    [currentMemoryUsage] is at least the bytes of the tracked blocks and at
    most [peakMemoryUsage], and [totalDeallocations] plus the number of
    tracked blocks is at most [totalAllocations]. *)
Theorem metrics_bound (w : World) :
  reachable w -> enableTracking (config (manager w)) = true ->
  live_bytes (allocations (manager w)) <= currentMemoryUsage (_metrics (manager w))
  /\ currentMemoryUsage (_metrics (manager w)) <= peakMemoryUsage (_metrics (manager w))
  /\ totalDeallocations (_metrics (manager w))
     + Z.of_nat (size (allocations (manager w)))
     <= totalAllocations (_metrics (manager w))
  /\ 0 <= totalDeallocations (_metrics (manager w)).
Proof.
  induction 1 as [c w0|r w Hr IH Hvalid]; intros Ht.
  - simpl. rewrite live_bytes_empty, map_size_empty. lia.
  - rewrite (perform_config r w Hr Hvalid) in Ht. specialize (IH Ht).
    destruct (reachable_Inv w Hr) as [Hinv Hw].
    destruct r as [C len label now|p|]; simpl in Hvalid |- *.
    + destruct (allocate_cases C len label now w Hinv Hw Hvalid)
        as [(i & b & v & _ & ->)|[(_ & e & _ & ->)|(_ & w1 & v & _ & ->)]];
        cbn [final_state]; try exact IH;
        apply metrics_after_allocate; assumption.
    + destruct (allocations (manager w) !! p) as [b|] eqn:E.
      * rewrite (deallocate_tracked p _ b E). cbn [fst manager set_manager].
        rewrite updateMetrics_allocations. unfold updateMetrics.
        cbn [config set_allocations set_freeList]. rewrite Ht.
        cbn [negb set_metrics _metrics allocations set_allocations set_freeList
             totalAllocations totalDeallocations peakMemoryUsage currentMemoryUsage].
        pose proof (live_bytes_delete _ p b E) as Hd.
        pose proof (map_size_delete_Some p (allocations (manager w))
                      (ex_intro _ b E)) as Hsz.
        pose proof (Inv_sizes w p b Hinv E).
        assert (size (allocations (manager w)) <> 0%nat).
        { intros H0. apply map_size_empty_inv in H0. rewrite H0 in E.
          rewrite lookup_empty in E. discriminate. }
        assert (0 <= live_bytes (delete p (allocations (manager w)))).
        { apply live_bytes_nonneg. intros q c Hq.
          apply lookup_delete_Some in Hq as [_ Hq]. exact (Inv_sizes w q c Hinv Hq). }
        lia.
      * rewrite (deallocate_unknown p _ E). exact IH.
    + rewrite (reset_bound w Hw). cbn [final_state manager].
      rewrite updateMetrics_allocations. unfold updateMetrics.
      cbn [config set_allocations set_freeList]. rewrite Ht.
      cbn [negb set_metrics _metrics allocations set_allocations set_freeList
           totalAllocations totalDeallocations peakMemoryUsage currentMemoryUsage].
      rewrite live_bytes_empty, map_size_empty.
      pose proof (live_bytes_nonneg _ (fun p b => Inv_sizes w p b Hinv)). lia.
Qed.

Lemma metrics_bound_witness :
  live_bytes (allocations (manager three_free))
  <= currentMemoryUsage (_metrics (manager three_free))
  /\ currentMemoryUsage (_metrics (manager three_free))
     <= peakMemoryUsage (_metrics (manager three_free))
  /\ totalDeallocations (_metrics (manager three_free))
     + Z.of_nat (size (allocations (manager three_free)))
     <= totalAllocations (_metrics (manager three_free))
  /\ 0 <= totalDeallocations (_metrics (manager three_free)).
Proof.
  apply (metrics_bound three_free three_free_reachable). vm_compute. reflexivity.
Defined.

Lemma set_heap_ptr_same inst : Wat.set_heap_ptr (Wat.heap_ptr inst) inst = inst.
Proof. destruct inst. reflexivity. Qed.

Lemma no_fit_nil n : no_fit n [].
Proof. intros i b H. discriminate H. Qed.

Lemma ensureCapacity_fits bytes w :
  instance_ok (instance w) -> wasm (manager w) = true ->
  bytes <= available (instance w) ->
  ensureCapacity bytes w = Normal tt w.
Proof.
  intros Hok Hw Hfit. rewrite ensureCapacity_unfold by assumption.
  replace (available (instance w) <? bytes) with false
    by (symmetry; apply Z.ltb_ge; exact Hfit).
  reflexivity.
Qed.

(** X12.  A zero-length allocation returns the current heap offset
    without reserving it.  With an empty free list, the next allocation
    from the heap gets the same offset and replaces the zero-length block
    in the allocations map; disposing the zero-length array then moves the
    other array's block to the free list although that array is still in
    use. *)
Theorem zero_length_allocation_shares_offset (w : World)
  (C : TypedArrayConstructor) (label label' : option string) (now now' n : Z) :
  Inv w -> wasm (manager w) = true -> freeList (manager w) = [] ->
  0 < n -> 8 * n <= available (instance w) ->
  let heap := Wat.heap_ptr (instance w) in
  let block := tracked heap Float64Array n label' now' in
  exists a1 w1 a2 w2,
    allocate C 0 label now w = Normal a1 w1
    /\ allocateFloat64 n label' now' w1 = Normal a2 w2
    /\ WasmBackedArray.ptr a1 = heap /\ WasmBackedArray.ptr a2 = heap
    /\ allocations (manager w2) !! heap = Some block
    /\ freeList (manager (dispose a1 w2)) = [block]
    /\ allocations (manager (dispose a1 w2)) !! heap = None.
Proof.
  intros Hinv Hw Hfl Hn Hfit heap block. subst heap block.
  pose proof Hinv as [Hok _ _ _ _ _ _].
  pose proof Hok as [Hlo Hal Hhi _ _].
  assert (0 <= available (instance w)) as Hav by (unfold available; lia).
  pose proof (allocate_bump C 0 label now w w Hok Hw ltac:(lia)
                ltac:(rewrite Hfl; apply no_fit_nil)
                (ensureCapacity_fits (0 * BYTES_PER_ELEMENT C) w Hok Hw
                   ltac:(rewrite Z.mul_0_l; exact Hav))) as H1.
  cbv zeta in H1. rewrite Z.mul_0_l in H1.
  change (align8 0) with 0 in H1. rewrite Z.add_0_r, set_heap_ptr_same, Hfl in H1.
  set (w1 := after_allocate (tracked (Wat.heap_ptr (instance w)) C 0 label now)
               (instance w) [] w) in *.
  pose proof (Inv_allocate C 0 label now w Hinv Hw ltac:(lia)) as [Hinv1 Hw1].
  rewrite H1 in Hinv1, Hw1. cbn [final_state] in Hinv1, Hw1.
  assert (instance w1 = instance w) as Hi1 by reflexivity.
  assert (freeList (manager w1) = []) as Hfl1.
  { unfold w1, after_allocate. cbn [manager].
    rewrite updateMetrics_freeList. reflexivity. }
  pose proof (allocate_bump Float64Array n label' now' w1 w1
                ltac:(rewrite Hi1; exact Hok) Hw1 ltac:(lia)
                ltac:(rewrite Hfl1; apply no_fit_nil)
                (ensureCapacity_fits (n * BYTES_PER_ELEMENT Float64Array) w1
                   ltac:(rewrite Hi1; exact Hok) Hw1
                   ltac:(rewrite Hi1; change (BYTES_PER_ELEMENT Float64Array) with 8; lia))) as H2.
  cbv zeta in H2. rewrite Hi1, Hfl1 in H2.
  eexists _, w1, _, _. split; [exact H1|]. split; [exact H2|].
  split; [reflexivity|]. split; [reflexivity|].
  assert (allocations
            (manager
               (after_allocate (tracked (Wat.heap_ptr (instance w)) Float64Array n label' now')
                  (Wat.set_heap_ptr
                     (Wat.heap_ptr (instance w)
                      + align8 (n * BYTES_PER_ELEMENT Float64Array)) (instance w))
                  [] w1)) !! Wat.heap_ptr (instance w)
          = Some (tracked (Wat.heap_ptr (instance w)) Float64Array n label' now')) as Hlook.
  { unfold after_allocate. cbn [manager]. rewrite updateMetrics_allocations.
    cbn [allocations set_allocations tracked MemoryBlock.ptr].
    apply lookup_insert_eq. }
  split; [exact Hlook|].
  unfold dispose. cbn [WasmBackedArray.ptr set_manager manager].
  rewrite (deallocate_tracked _ _ _ Hlook). cbn [fst].
  rewrite updateMetrics_freeList, updateMetrics_allocations.
  cbn [freeList allocations set_allocations set_freeList].
  split; [|apply lookup_delete_eq].
  unfold after_allocate. cbn [manager]. rewrite updateMetrics_freeList. reflexivity.
Qed.

Lemma zero_length_allocation_shares_offset_witness :
  exists a1 w1 a2 w2,
    allocate Uint8Array 0 None 1 fresh = Normal a1 w1
    /\ allocateFloat64 4 None 2 w1 = Normal a2 w2
    /\ WasmBackedArray.ptr a1 = 65536 /\ WasmBackedArray.ptr a2 = 65536
    /\ freeList (manager (dispose a1 w2)) = [MemoryBlock.mk 65536 32 f64 None 2].
Proof.
  destruct (zero_length_allocation_shares_offset fresh Uint8Array None None 1 2 4)
    as (a1 & w1 & a2 & w2 & H1 & H2 & H3 & H4 & _ & H6 & _).
  - apply reachable_Inv. apply reach_initialize.
  - reflexivity.
  - reflexivity.
  - lia.
  - vm_compute. discriminate.
  - exists a1, w1, a2, w2. repeat split; assumption.
Defined.

(** X13.  [reset()] in a state the manager reaches forgets every
    tracked and every free block and keeps the buffer; the next allocation
    that fits the buffer is handed the first offset after the reserved
    prefix, 65536, and is then the only tracked block. *)
Theorem reset_starts_over (w : World) (C : TypedArrayConstructor) (len : Z)
  (label : option string) (now : Z) :
  reachable w -> 0 <= len ->
  len * BYTES_PER_ELEMENT C
  <= Wat.byteLength (Wat.memory (instance w)) - RESERVED_BYTES ->
  exists w1 a w2,
    reset w = Normal tt w1
    /\ allocations (manager w1) = ∅ /\ freeList (manager w1) = []
    /\ Wat.memory (instance w1) = Wat.memory (instance w)
    /\ allocate C len label now w1 = Normal a w2
    /\ WasmBackedArray.ptr a = RESERVED_BYTES
    /\ allocations (manager w2)
       = {[ RESERVED_BYTES := tracked RESERVED_BYTES C len label now ]}.
Proof.
  intros Hr Hlen Hfit. destruct (reachable_Inv w Hr) as [Hinv Hw].
  assert (reachable (perform req_reset w)) as Hr1 by (apply reach_perform; [exact Hr|exact I]).
  destruct (reachable_Inv _ Hr1) as [Hinv1 Hw1].
  cbn [perform] in Hinv1, Hw1. rewrite (reset_bound w Hw) in Hinv1, Hw1 |- *.
  cbn [final_state] in Hinv1, Hw1.
  set (w1 := {| instance := Wat.reset_heap (instance w);
                manager := updateMetrics op_reset 0
                             (set_freeList [] (set_allocations ∅ (manager w))) |}) in *.
  assert (allocations (manager w1) = ∅) as Hal
      by (unfold w1; cbn [manager]; rewrite updateMetrics_allocations; reflexivity).
  assert (freeList (manager w1) = []) as Hfl
      by (unfold w1; cbn [manager]; rewrite updateMetrics_freeList; reflexivity).
  pose proof Hinv1 as [Hok1 _ _ _ _ _ _].
  assert (Wat.heap_ptr (instance w1) = RESERVED_BYTES) as Hheap by reflexivity.
  pose proof (allocate_bump C len label now w1 w1 Hok1 Hw1 Hlen
                ltac:(rewrite Hfl; apply no_fit_nil)
                (ensureCapacity_fits (len * BYTES_PER_ELEMENT C) w1 Hok1 Hw1
                   ltac:(unfold available; rewrite Hheap; exact Hfit))) as H2.
  cbv zeta in H2. rewrite Hheap, Hfl in H2.
  eexists w1, _, _. split; [reflexivity|]. split; [exact Hal|]. split; [exact Hfl|].
  split; [reflexivity|]. split; [exact H2|]. split; [reflexivity|].
  unfold after_allocate. cbn [manager]. rewrite updateMetrics_allocations.
  cbn [allocations set_allocations set_freeList tracked MemoryBlock.ptr].
  rewrite Hal. reflexivity.
Qed.

Lemma reset_starts_over_witness :
  exists w1 a w2,
    reset three_free = Normal tt w1
    /\ allocate Float64Array 4 None 9 w1 = Normal a w2
    /\ WasmBackedArray.ptr a = 65536.
Proof.
  destruct (reset_starts_over three_free Float64Array 4 None 9 three_free_reachable)
    as (w1 & a & w2 & H1 & _ & _ & _ & H2 & H3 & _).
  - lia.
  - vm_compute. discriminate.
  - exists w1, a, w2. repeat split; assumption.
Defined.

End ManagerStatistics.

(** ** Copying through views: [copyFromJS], [copyToJS], [getView], [allocateFrom] *)

Section Copying.
Import MemoryManager Copy.

(** [slice()] with no argument, [slice(0, length)], takes the whole
    view. *)
Lemma slice_index_whole len :
  0 <= len -> slice_index len 0 = 0 /\ slice_index len len = len.
Proof.
  intros H. unfold slice_index.
  replace (len <? 0) with false by (symmetry; apply Z.ltb_ge; lia).
  change (0 <? 0) with false. cbv iota. lia.
Qed.

Lemma read_write_cells data : forall m p,
  read_cells (write_cells m p data) p (length data) = data.
Proof.
  assert (forall ys m p a, a < p -> Wat.cell (write_cells m p ys) a = Wat.cell m a) as Hbelow.
  { induction ys as [|y ys IH]; intros m p a Ha; simpl; [reflexivity|].
    rewrite IH by lia. apply cell_set_ne. lia. }
  induction data as [|x data IH]; intros m p; [reflexivity|].
  cbn [write_cells read_cells length]. rewrite IH.
  rewrite Hbelow by lia. rewrite cell_set_eq. reflexivity.
Qed.

Lemma write_cells_gen data : forall m p,
  Wat.mem_gen (write_cells m p data) = Wat.mem_gen m.
Proof. induction data as [|x data IH]; intros m p; simpl; [reflexivity|]. rewrite IH. reflexivity. Qed.

Lemma validatePointer_ok ptr size w :
  wasm (manager w) = true ->
  0 <= ptr -> ptr + size <= Wat.byteLength (Wat.memory (instance w)) ->
  validatePointer ptr size w = Normal tt w.
Proof.
  intros Hw Hlo Hhi. unfold validatePointer, bind, getWasm. rewrite Hw.
  replace (ptr <? 0) with false by (symmetry; apply Z.ltb_ge; lia).
  replace (_ <? ptr + size) with false by (symmetry; apply Z.ltb_ge; lia).
  reflexivity.
Qed.

Lemma validatePointer_bad ptr size w :
  wasm (manager w) = true ->
  ptr < 0 \/ Wat.byteLength (Wat.memory (instance w)) < ptr + size ->
  validatePointer ptr size w = Throw (WasmError INVALID_POINTER) w.
Proof.
  intros Hw Hbad. unfold validatePointer, bind, getWasm. rewrite Hw.
  replace ((ptr <? 0) || (_ <? ptr + size)) with true; [reflexivity|].
  symmetry. apply orb_true_iff.
  destruct Hbad; [left; apply Z.ltb_lt|right; apply Z.ltb_lt]; assumption.
Qed.

(** X14.  [copyFromJS(data, ptr)] at an aligned pointer whose range
    lies in the buffer returns, and [copyToJS] of the same range then
    returns [data]; neither consults or changes the allocator (the manager
    and the heap pointer are as before, whether or not the range is
    allocated). *)
Theorem copy_round_trip (w : World) (data : list float) (ptr : Z) :
  wasm (manager w) = true ->
  0 <= ptr -> ptr mod 8 = 0 ->
  ptr + 8 * Z.of_nat (length data) <= Wat.byteLength (Wat.memory (instance w)) ->
  exists w',
    copyFromJS data ptr w = Normal tt w'
    /\ copyToJS ptr (Z.of_nat (length data)) w' = Normal data w'
    /\ manager w' = manager w
    /\ Wat.heap_ptr (instance w') = Wat.heap_ptr (instance w).
Proof.
  intros Hw Hlo Hal Hhi.
  assert (forall m, Wat.byteLength m = Wat.byteLength (Wat.memory (instance w)) ->
            new_view Float64Array m ptr (Z.of_nat (length data))
            = Some {| view_ctor := Float64Array; view_gen := Wat.mem_gen m;
                      byteOffset := ptr; view_length := Z.of_nat (length data) |}) as Hv.
  { intros m Hm. apply new_view_some; try lia; try assumption.
    rewrite Hm. change (BYTES_PER_ELEMENT Float64Array) with 8. lia. }
  exists (set_instance
            (Wat.set_memory (write_cells (Wat.memory (instance w)) ptr data) (instance w)) w).
  split; [|split; [|split; reflexivity]].
  - unfold copyFromJS, bind, getWasm. rewrite Hw.
    rewrite validatePointer_ok
      by (try assumption; change (BYTES_PER_ELEMENT Float64Array) with 8; lia).
    rewrite (Hv _ eq_refl). unfold view_set, attached. cbn [view_gen view_length].
    rewrite Nat.eqb_refl. cbn [negb].
    replace (_ <? _) with false by (symmetry; apply Z.ltb_ge; lia).
    reflexivity.
  - unfold copyToJS, getView, bind, getWasm. cbn [manager set_instance]. rewrite Hw.
    cbn [instance Wat.memory Wat.set_memory].
    rewrite validatePointer_ok;
      [|exact Hw|exact Hlo|
       cbn [instance set_instance Wat.memory Wat.set_memory];
       rewrite write_cells_byteLength;
       change (BYTES_PER_ELEMENT Float64Array) with 8; lia].
    cbn [instance set_instance Wat.memory Wat.set_memory].
    rewrite (Hv _ (write_cells_byteLength _ _ _)).
    unfold ret. cbn [instance set_instance Wat.memory Wat.set_memory].
    unfold view_slice, attached. cbn [view_gen view_length byteOffset].
    rewrite Nat.eqb_refl. cbn [negb].
    destruct (slice_index_whole (Z.of_nat (length data)) ltac:(lia)) as [-> ->].
    rewrite Z.sub_0_r, Nat2Z.id, Z.mul_0_r, Z.add_0_r.
    rewrite read_write_cells. reflexivity.
Qed.

(** X15.  [getView] on an initialised manager: a negative pointer or a
    range that ends beyond the buffer is an [INVALID_POINTER] error; a
    range inside the buffer with a negative length or a pointer that is
    not a multiple of the element size passes [validatePointer] and fails
    in the typed-array constructor with a [RangeError]; otherwise the view
    is returned.  The world is unchanged in every case. *)
Theorem pointer_errors (w : World) (C : TypedArrayConstructor) (ptr len : Z) :
  wasm (manager w) = true ->
  (ptr < 0 \/ Wat.byteLength (Wat.memory (instance w)) < ptr + len * BYTES_PER_ELEMENT C ->
   getView C ptr len w = Throw (WasmError INVALID_POINTER) w)
  /\ (0 <= ptr -> ptr + len * BYTES_PER_ELEMENT C <= Wat.byteLength (Wat.memory (instance w)) ->
      len < 0 \/ ptr mod BYTES_PER_ELEMENT C <> 0 ->
      getView C ptr len w = Throw RangeError w)
  /\ (0 <= ptr -> ptr + len * BYTES_PER_ELEMENT C <= Wat.byteLength (Wat.memory (instance w)) ->
      0 <= len -> ptr mod BYTES_PER_ELEMENT C = 0 ->
      getView C ptr len w
      = Normal {| view_ctor := C; view_gen := Wat.mem_gen (Wat.memory (instance w));
                  byteOffset := ptr; view_length := len |} w).
Proof.
  intros Hw. split; [|split].
  - intros Hbad. unfold getView, bind, getWasm. rewrite Hw.
    rewrite validatePointer_bad by assumption. reflexivity.
  - intros Hlo Hhi Hbad. unfold getView, bind, getWasm. rewrite Hw.
    rewrite validatePointer_ok by assumption.
    unfold new_view.
    replace ((ptr <? 0) || (len <? 0) || negb (ptr mod BYTES_PER_ELEMENT C =? 0)
             || (Wat.byteLength (Wat.memory (instance w))
                 <? ptr + len * BYTES_PER_ELEMENT C)) with true; [reflexivity|].
    symmetry. destruct Hbad as [Hneg|Hmis].
    + replace (len <? 0) with true by (symmetry; apply Z.ltb_lt; exact Hneg).
      rewrite orb_true_r. reflexivity.
    + replace (ptr mod BYTES_PER_ELEMENT C =? 0) with false
        by (symmetry; apply Z.eqb_neq; exact Hmis).
      cbn [negb]. rewrite orb_true_r. reflexivity.
  - intros Hlo Hhi Hlen Hal. unfold getView, bind, getWasm. rewrite Hw.
    rewrite validatePointer_ok by assumption.
    unfold new_view.
    replace (ptr <? 0) with false by (symmetry; apply Z.ltb_ge; lia).
    replace (len <? 0) with false by (symmetry; apply Z.ltb_ge; lia).
    rewrite Hal.
    replace (_ <? ptr + _) with false by (symmetry; apply Z.ltb_ge; lia).
    reflexivity.
Qed.

Lemma copy_round_trip_witness :
  exists w',
    copyFromJS [1; 2; 3]%float 65536 fresh = Normal tt w'
    /\ copyToJS 65536 3 w' = Normal [1; 2; 3]%float w'.
Proof.
  destruct (copy_round_trip fresh [1; 2; 3]%float 65536) as (w' & H1 & H2 & _).
  - reflexivity.
  - lia.
  - reflexivity.
  - vm_compute. discriminate.
  - exists w'. split; assumption.
Defined.

Lemma pointer_errors_witness :
  getView Float64Array (-8) 1 fresh = Throw (WasmError INVALID_POINTER) fresh
  /\ getView Float64Array 65540 1 fresh = Throw RangeError fresh.
Proof.
  split.
  - apply (proj1 (pointer_errors fresh Float64Array (-8) 1 eq_refl)). left. lia.
  - apply (proj1 (proj2 (pointer_errors fresh Float64Array 65540 1 eq_refl))).
    + lia.
    + vm_compute. discriminate.
    + right. vm_compute. discriminate.
Defined.

Lemma allocate_returns C len label now w a w1 :
  allocate C len label now w = Normal a w1 ->
  new_view C (Wat.memory (instance w1)) (WasmBackedArray.ptr a) len
  = Some (WasmBackedArray.view a)
  /\ WasmBackedArray.length a = len.
Proof.
  unfold allocate, bind, getWasm.
  destruct (wasm (manager w)); [|discriminate].
  destruct (findFreeBlock _ (manager w)) as [p m'].
  destruct (p =? -1).
  - unfold ensureCapacity, bind, getWasm. cbn [manager set_manager].
    destruct (wasm m'); [|discriminate].
    match goal with
    | |- context [if ?c then _ else Normal tt ?s] => destruct c
    end.
    + destruct (negb _); [discriminate|].
      destruct (_ <? _); [discriminate|].
      destruct (memory_grow _ _) as [mem'|]; [|discriminate].
      destruct (js_allocate _ _) as [q i'].
      destruct ((q =? 0) && _); [discriminate|].
      unfold ret, modify. cbn [instance set_instance].
      destruct (new_view C _ q len) as [v|] eqn:Hv; [|discriminate].
      intros [= <- <-]. cbn. split; [exact Hv|reflexivity].
    + destruct (js_allocate _ _) as [q i'].
      destruct ((q =? 0) && _); [discriminate|].
      unfold ret, modify. cbn [instance set_instance].
      destruct (new_view C _ q len) as [v|] eqn:Hv; [|discriminate].
      intros [= <- <-]. cbn. split; [exact Hv|reflexivity].
  - unfold ret, modify. cbn [instance set_manager].
    destruct (new_view C _ p len) as [v|] eqn:Hv; [|discriminate].
    intros [= <- <-]. cbn. split; [exact Hv|reflexivity].
Qed.

Lemma new_view_fields C m p len v :
  new_view C m p len = Some v ->
  view_gen v = Wat.mem_gen m /\ byteOffset v = p /\ view_length v = len /\ 0 <= len.
Proof.
  unfold new_view. destruct (_ || _) eqn:E; [discriminate|].
  intros [= <-]. cbn. repeat split.
  apply orb_false_iff in E as [E _]. apply orb_false_iff in E as [E _].
  apply orb_false_iff in E as [_ E]. apply Z.ltb_ge in E. exact E.
Qed.

(** Reading back what [view.set] or [view.fill] wrote through a view
    created on the current buffer. *)
Lemma slice_after_write v m data :
  view_gen v = Wat.mem_gen m -> view_length v = Z.of_nat (length data) ->
  view_slice v 0 (view_length v) (write_cells m (byteOffset v) data) = inr data.
Proof.
  intros Hgen Hlen. unfold view_slice, attached.
  rewrite write_cells_gen, Hgen, Nat.eqb_refl. cbn [negb].
  destruct (slice_index_whole (view_length v) ltac:(lia)) as [-> ->].
  rewrite Z.sub_0_r, Z.mul_0_r, Z.add_0_r, Hlen, Nat2Z.id.
  rewrite read_write_cells. reflexivity.
Qed.

(** X16.  When [allocateFrom(data)] returns, the array has the length
    of [data] and its view reads [data] back, element by element and as a
    whole. *)
Theorem allocateFrom_round_trip (w w' : World) (data : list float)
  (label : option string) (now : Z) (a : WasmBackedArray) :
  allocateFrom data label now w = Normal a w' ->
  WasmBackedArray.length a = Z.of_nat (length data)
  /\ view_slice (WasmBackedArray.view a) 0 (view_length (WasmBackedArray.view a))
       (Wat.memory (instance w')) = inr data
  /\ (forall k x, data !! k = Some x ->
        view_get (WasmBackedArray.view a) (Z.of_nat k) (Wat.memory (instance w'))
        = Some x).
Proof.
  unfold allocateFrom, bind.
  destruct (allocate Float64Array _ label now w) as [a0 w1|] eqn:Hrun; [|discriminate].
  destruct (allocate_returns _ _ _ _ _ _ _ Hrun) as [Hv Hlen].
  destruct (new_view_fields _ _ _ _ _ Hv) as (Hgen & Hoff & Hvl & _).
  unfold view_set, attached. rewrite Hgen, Nat.eqb_refl. cbn [negb].
  rewrite Hvl, Z.ltb_irrefl. unfold ret.
  intros [= <- <-]. cbn [instance set_instance Wat.memory Wat.set_memory].
  split; [exact Hlen|]. split.
  - apply slice_after_write; assumption.
  - intros k x Hk. unfold view_get, attached, in_view.
    rewrite write_cells_gen, Hgen, Nat.eqb_refl, Hvl.
    pose proof (lookup_lt_Some _ _ _ Hk) as Hlt.
    replace (0 <=? Z.of_nat k) with true by (symmetry; apply Z.leb_le; lia).
    replace (Z.of_nat k <? _) with true by (symmetry; apply Z.ltb_lt; lia).
    cbn [andb]. f_equal. apply write_cells_cell. exact Hk.
Qed.

Lemma allocateFrom_round_trip_witness :
  exists a w',
    allocateFrom [1; 2; 3]%float None 1 fresh = Normal a w'
    /\ view_slice (WasmBackedArray.view a) 0 (view_length (WasmBackedArray.view a))
         (Wat.memory (instance w')) = inr [1; 2; 3]%float.
Proof.
  destruct (allocateFrom [1; 2; 3]%float None 1 fresh) as [a w'|e w'] eqn:E.
  - exists a, w'. split; [reflexivity|].
    apply (allocateFrom_round_trip fresh w' _ None 1 a E).
  - vm_compute in E. discriminate E.
Defined.

End Copying.

(** ** Vectors: element access, creation, and what growth does to views *)

Section Vectors.
Import MemoryManager Engine.

Lemma set_world_memory_same w : set_world_memory (Wat.memory (instance w)) w = w.
Proof. destruct w as [[h s m] mg]. reflexivity. Qed.

Lemma vector_eta v :
  {| WasmVector.allocated := WasmVector.allocated v;
     WasmVector._data := WasmVector._data v;
     WasmVector._disposed := WasmVector._disposed v |} = v.
Proof. destruct v. reflexivity. Qed.

Lemma new_view_set_cell C m a x p len :
  new_view C (Wat.set_cell m a x) p len = new_view C m p len.
Proof. reflexivity. Qed.

(** X17.  On a usable vector that is not disposed, [setAt(i, x)]
    returns and leaves the allocator as it was; when [i] is an index of
    the vector, [getAt(i)] then returns [x]; every other index reads what
    it read before; and when [i] is not an index of the vector the call
    changes nothing, without an error. *)
Theorem setAt_getAt (w : World) (v : WasmVector.t) (i : Z) (x : float) :
  vector_ok w v -> WasmVector._disposed v = false ->
  exists w',
    WasmVector.setAt i x (w, v) = Normal tt (w', v)
    /\ vector_ok w' v
    /\ manager w' = manager w
    /\ (0 <= i < WasmVector.length v ->
        WasmVector.getAt i (w', v) = Normal (Some x) (w', v))
    /\ (forall j, j <> i ->
        WasmVector.getAt j (w', v)
        = Normal (view_get (WasmVector._data v) j (Wat.memory (instance w))) (w', v))
    /\ (~ 0 <= i < WasmVector.length v -> w' = w).
Proof.
  intros [Hview Hdata] Hlive. rewrite <- Hdata in Hview.
  destruct (new_view_fields _ _ _ _ _ Hview) as (Hgen & Hoff & Hlen & Hnn).
  exists (set_world_memory
            (view_put (WasmVector._data v) i x (Wat.memory (instance w))) w).
  assert (new_view Float64Array
            (view_put (WasmVector._data v) i x (Wat.memory (instance w)))
            (WasmVector.ptr v) (WasmVector.length v) = Some (WasmVector._data v))
    as Hview'.
  { unfold view_put. destruct (_ && _); exact Hview. }
  assert (Wat.mem_gen (view_put (WasmVector._data v) i x (Wat.memory (instance w)))
          = Wat.mem_gen (Wat.memory (instance w))) as Hgen'.
  { unfold view_put. destruct (_ && _); reflexivity. }
  split; [|split; [|split; [|split; [|split]]]].
  - unfold WasmVector.setAt, bind, WasmVector.ensureNotDisposed, this, lift, modify,
      WasmVector.notifyChange.
    cbn [fst snd]. rewrite Hlive.
    cbn [fst snd instance set_world_memory set_instance Wat.memory Wat.set_memory].
    rewrite <- Hdata, Hview'. f_equal. f_equal. apply vector_eta.
  - split; [|exact Hdata]. rewrite <- Hdata. exact Hview'.
  - reflexivity.
  - intros Hi. unfold WasmVector.getAt, bind, this, lift. cbn [fst snd].
    cbn [instance set_world_memory set_instance Wat.memory Wat.set_memory].
    unfold view_get, view_put, attached, in_view.
    rewrite Hgen, Nat.eqb_refl, Hlen.
    replace ((0 <=? i) && (i <? WasmVector.length v)) with true
      by (symmetry; apply andb_true_iff; split; [apply Z.leb_le|apply Z.ltb_lt]; lia).
    cbn [andb Wat.set_cell Wat.mem_gen]. rewrite Nat.eqb_refl.
    rewrite cell_set_eq. reflexivity.
  - intros j Hj. unfold WasmVector.getAt, bind, this, lift. cbn [fst snd].
    cbn [instance set_world_memory set_instance Wat.memory Wat.set_memory].
    f_equal.
    unfold view_get. unfold attached at 1. rewrite Hgen'.
    fold (attached (WasmVector._data v) (Wat.memory (instance w))).
    destruct (attached (WasmVector._data v) _ && in_view (WasmVector._data v) j);
      [|reflexivity].
    f_equal. unfold view_put. destruct (_ && _); [|reflexivity].
    apply cell_set_ne. lia.
  - intros Hout. unfold view_put, in_view. rewrite Hlen.
    replace ((0 <=? i) && (i <? WasmVector.length v)) with false.
    + rewrite andb_false_r. apply set_world_memory_same.
    + symmetry. apply andb_false_iff.
      destruct (Z.leb_spec 0 i); [|left; reflexivity].
      right. apply Z.ltb_ge. lia.
Qed.

Lemma new_view_write_cells C m p data q len :
  new_view C (write_cells m p data) q len
  = match new_view C m q len with
    | Some v => Some v
    | None => None
    end.
Proof.
  unfold new_view. rewrite write_cells_byteLength, write_cells_gen.
  destruct (_ || _); reflexivity.
Qed.

(** X18.  When [createVectorSignal(n, initialValue)] returns, the
    vector is usable, not disposed and of length [n]; [toArray()] gives [n]
    copies of the number it was given, or the array it was given when
    that has [n] elements. *)
Theorem createVectorSignal_round_trip (s s' : World * WasmSignalEngine.t)
  (n now : Z) (init : float + list float) (v : WasmVector.t) :
  WasmSignalEngine.createVectorSignal n (Some init) now s = Normal v s' ->
  vector_ok (fst s') v
  /\ WasmVector._disposed v = false
  /\ WasmVector.length v = n
  /\ match init with
     | inl x =>
         WasmVector.toArray (fst s', v)
         = Normal (replicate (Z.to_nat n) x) (fst s', v)
     | inr data =>
         Z.of_nat (length data) = n ->
         WasmVector.toArray (fst s', v) = Normal data (fst s', v)
     end.
Proof.
  unfold WasmSignalEngine.createVectorSignal, bind.
  destruct (WasmSignalEngine.getWasm s) as [[] s0|] eqn:Hg; [|discriminate].
  assert (s0 = s) as ->.
  { unfold WasmSignalEngine.getWasm in Hg.
    destruct (WasmSignalEngine._state (snd s)); try discriminate.
    destruct (WasmSignalEngine.wasm (snd s)); [|discriminate].
    injection Hg as <-. reflexivity. }
  unfold lift at 1. unfold allocateFloat64.
  destruct (allocate Float64Array n (Some "vector") now (fst s)) as [a w1|] eqn:Hrun;
    [|discriminate].
  destruct (allocate_returns _ _ _ _ _ _ _ Hrun) as [Hv Hlen].
  destruct (new_view_fields _ _ _ _ _ Hv) as (Hgen & Hoff & Hvl & Hnn).
  unfold lift, WasmSignalEngine.initialise, on_memory. cbn [fst snd].
  destruct init as [x|data].
  - unfold view_fill, attached. rewrite Hgen, Nat.eqb_refl. cbn [negb]. unfold ret.
    intros [= <- <-]. cbn [fst].
    split; [split; [|reflexivity]|split; [reflexivity|split; [exact Hlen|]]].
    + cbn [instance set_world_memory set_instance Wat.memory Wat.set_memory].
      unfold WasmVector.ptr, WasmVector.length, WasmVector.new.
      cbn [WasmVector.allocated].
      rewrite Hlen, new_view_write_cells, Hv. reflexivity.
    + unfold WasmVector.toArray, bind, this, lift.
      cbn [fst snd WasmVector.new WasmVector._data instance set_world_memory
           set_instance Wat.memory Wat.set_memory].
      rewrite slice_after_write; [rewrite Hvl; reflexivity|exact Hgen|].
      rewrite length_replicate, Hvl. lia.
  - unfold view_set, attached. rewrite Hgen, Nat.eqb_refl. cbn [negb].
    destruct (view_length _ <? _) eqn:Hfit; [discriminate|]. unfold ret.
    intros [= <- <-]. cbn [fst].
    split; [split; [|reflexivity]|split; [reflexivity|split; [exact Hlen|]]].
    + cbn [instance set_world_memory set_instance Wat.memory Wat.set_memory].
      unfold WasmVector.ptr, WasmVector.length, WasmVector.new.
      cbn [WasmVector.allocated].
      rewrite Hlen, new_view_write_cells, Hv. reflexivity.
    + intros Hd. unfold WasmVector.toArray, bind, this, lift.
      cbn [fst snd WasmVector.new WasmVector._data instance set_world_memory
           set_instance Wat.memory Wat.set_memory].
      rewrite slice_after_write; [reflexivity|exact Hgen|].
      rewrite Hvl. lia.
Qed.

Lemma allocate_memory C len label now w a w1 :
  Inv w -> wasm (manager w) = true -> 0 <= len ->
  allocate C len label now w = Normal a w1 ->
  Wat.memory (instance w1) = Wat.memory (instance w)
  \/ exists k, memory_grow k (Wat.memory (instance w)) = Some (Wat.memory (instance w1)).
Proof.
  intros Hinv Hw Hlen Hrun. pose proof Hinv as [Hok _ _ _ _ _ _].
  destruct (allocate_cases C len label now w Hinv Hw Hlen)
    as [(i & b & v & _ & H)|[(_ & e & _ & H)|(_ & w' & v & Hcap & H)]];
    rewrite H in Hrun; try discriminate; injection Hrun as <- <-.
  - left. reflexivity.
  - destruct (ensureCapacity_normal _ _ _ _ Hok Hw Hcap)
      as (_ & _ & _ & _ & [Hsame|(k & mem' & Hgrow & Hinst)]).
    + left. unfold after_allocate. cbn [instance Wat.memory Wat.set_heap_ptr].
      rewrite Hsame. reflexivity.
    + right. exists k. unfold after_allocate. cbn [instance Wat.memory Wat.set_heap_ptr].
      rewrite Hinst. exact Hgrow.
Qed.

Lemma memory_grow_fields k m m' :
  memory_grow k m = Some m' ->
  Wat.mem_gen m' = S (Wat.mem_gen m)
  /\ Wat.byteLength m <= Wat.byteLength m'
  /\ Wat.mem_cells m' = Wat.mem_cells m.
Proof.
  unfold memory_grow. destruct (_ || _) eqn:E; [discriminate|].
  intros [= <-]. apply orb_false_iff in E as [E _]. apply Z.ltb_ge in E.
  unfold Wat.byteLength, Wat.PAGE_SIZE. cbn. repeat split. lia.
Qed.

(** X19.  An allocation that grows the buffer detaches the views of
    every vector created before it.  For such a vector, in the state the
    allocation leaves: [getAt] returns [undefined] at every index, and
    [fill] and [set] throw a [TypeError], changing nothing.  [setAt(i, x)]
    returns normally but stores nothing: the memory is as before the call
    and only the view the vector's signal holds is created anew, on the
    grown buffer.  From then on [getAt] returns at every index, [i]
    included, what the vector held before the growth, not [x]; the
    vector's own array view stays detached, so every later [setAt] again
    stores nothing and [fill] and [set] still throw. *)
Theorem growth_detaches_views (w w1 : World) (v : WasmVector.t)
  (C : TypedArrayConstructor) (len : Z) (label : option string) (now : Z)
  (a : WasmBackedArray) :
  Inv w -> wasm (manager w) = true -> 0 <= len ->
  vector_ok w v -> WasmVector._disposed v = false ->
  allocate C len label now w = Normal a w1 ->
  Wat.byteLength (Wat.memory (instance w1)) <> Wat.byteLength (Wat.memory (instance w)) ->
  (forall i, WasmVector.getAt i (w1, v) = Normal None (w1, v))
  /\ (forall x, WasmVector.fill x (w1, v) = Throw TypeError (w1, v))
  /\ (forall data, WasmVector.set data (w1, v) = Throw TypeError (w1, v))
  /\ exists v',
       WasmVector.allocated v' = WasmVector.allocated v
       /\ WasmVector._disposed v' = false
       /\ (forall i x, WasmVector.setAt i x (w1, v) = Normal tt (w1, v'))
       /\ (forall j,
             WasmVector.getAt j (w1, v')
             = Normal (view_get (WasmVector._data v) j (Wat.memory (instance w)))
                 (w1, v'))
       /\ (forall i x, WasmVector.setAt i x (w1, v') = Normal tt (w1, v'))
       /\ (forall x, WasmVector.fill x (w1, v') = Throw TypeError (w1, v'))
       /\ (forall data, WasmVector.set data (w1, v') = Throw TypeError (w1, v')).
Proof.
  intros Hinv Hw Hlen [Hview Hdata] Hlive Hrun Hgrew.
  destruct (new_view_fields _ _ _ _ _ Hview) as (Hgen & Hoff & Hvl & Hnn).
  destruct (new_view_inv _ _ _ _ _ Hview) as (Hlo & _ & Hhi).
  destruct (allocate_memory _ _ _ _ _ _ _ Hinv Hw Hlen Hrun) as [Hsame|[k Hgrow]];
    [rewrite Hsame in Hgrew; contradiction|].
  destruct (memory_grow_fields _ _ _ Hgrow) as (Hgen1 & Hbig & Hcells).
  assert (attached (WasmBackedArray.view (WasmVector.allocated v))
            (Wat.memory (instance w1)) = false) as Hdet.
  { unfold attached. rewrite Hgen, Hgen1. apply Nat.eqb_neq. lia. }
  assert (exists view', new_view Float64Array (Wat.memory (instance w1))
                          (WasmVector.ptr v) (WasmVector.length v) = Some view')
    as [view' Hview'].
  { unfold new_view in Hview |- *.
    destruct ((WasmVector.ptr v <? 0) || (WasmVector.length v <? 0)
              || negb (WasmVector.ptr v mod BYTES_PER_ELEMENT Float64Array =? 0))
      eqn:E; [discriminate Hview|].
    cbn [orb].
    replace (Wat.byteLength (Wat.memory (instance w1)) <? _) with false
      by (symmetry; apply Z.ltb_ge; lia).
    eauto. }
  destruct (new_view_fields _ _ _ _ _ Hview') as (Hgen' & Hoff' & Hvl' & _).
  split; [|split; [|split]].
  - intros i. unfold WasmVector.getAt, bind, this, lift. cbn [fst snd].
    unfold view_get. rewrite Hdata, Hdet. reflexivity.
  - intros x. unfold WasmVector.fill, bind, WasmVector.ensureNotDisposed, this, lift,
      on_memory. cbn [fst snd]. rewrite Hlive. cbn [fst snd].
    unfold view_fill. rewrite Hdet. reflexivity.
  - intros data. unfold WasmVector.set, bind, WasmVector.ensureNotDisposed, this, lift,
      on_memory. cbn [fst snd]. rewrite Hlive. cbn [fst snd].
    unfold view_set. rewrite Hdet. reflexivity.
  - exists {| WasmVector.allocated := WasmVector.allocated v;
              WasmVector._data := view';
              WasmVector._disposed := false |}.
    split; [reflexivity|]. split; [reflexivity|].
    split; [|split; [|split; [|split]]].
    + intros i x.
      unfold WasmVector.setAt, bind, WasmVector.ensureNotDisposed, this, lift, modify,
        WasmVector.notifyChange.
      cbn [fst snd]. rewrite Hlive. cbn [fst snd].
      unfold view_put. rewrite Hdet. cbn [andb].
      rewrite set_world_memory_same, Hview', ?Hlive. reflexivity.
    + intros j. unfold WasmVector.getAt, bind, this, lift.
      cbn [fst snd WasmVector._data]. f_equal.
      unfold view_get, attached, in_view, Wat.cell.
      rewrite Hgen', Nat.eqb_refl, Hoff', Hvl', Hcells.
      rewrite Hdata, Hgen, Nat.eqb_refl, Hoff, Hvl. reflexivity.
    + intros i x.
      unfold WasmVector.setAt, bind, WasmVector.ensureNotDisposed, this, lift, modify,
        WasmVector.notifyChange.
      cbn [fst snd WasmVector._disposed WasmVector.allocated].
      unfold view_put. rewrite Hdet. cbn [andb].
      rewrite set_world_memory_same.
      change (WasmVector.ptr {| WasmVector.allocated := WasmVector.allocated v;
                                WasmVector._data := view';
                                WasmVector._disposed := false |})
        with (WasmVector.ptr v).
      change (WasmVector.length {| WasmVector.allocated := WasmVector.allocated v;
                                   WasmVector._data := view';
                                   WasmVector._disposed := false |})
        with (WasmVector.length v).
      rewrite Hview'. reflexivity.
    + intros x. unfold WasmVector.fill, bind, WasmVector.ensureNotDisposed, this, lift,
        on_memory. cbn [fst snd WasmVector._disposed WasmVector.allocated].
      unfold view_fill. rewrite Hdet. reflexivity.
    + intros data. unfold WasmVector.set, bind, WasmVector.ensureNotDisposed, this, lift,
        on_memory. cbn [fst snd WasmVector._disposed WasmVector.allocated].
      unfold view_set. rewrite Hdet. reflexivity.
Qed.

(** The allocator invariant does not look at the cells. *)
Lemma Inv_set_world_memory w m :
  Inv w -> Wat.mem_pages m = Wat.mem_pages (Wat.memory (instance w)) ->
  Wat.mem_max m = Wat.mem_max (Wat.memory (instance w)) ->
  Inv (set_world_memory m w).
Proof.
  intros [[Hlo Hal Hhi Hp Hmax] Hk Ha Hf Haa Haf Hff] Hpages Hmm.
  split; try assumption.
  split; cbn [instance set_world_memory set_instance Wat.memory Wat.set_memory
              Wat.heap_ptr]; try assumption.
  - unfold Wat.byteLength in *. rewrite Hpages. exact Hhi.
  - rewrite Hpages, Hmm. exact Hp.
  - rewrite Hmm. exact Hmax.
Qed.

Lemma vector34_ok : vector_ok (fst vector34) (snd vector34).
Proof. split; vm_compute; reflexivity. Qed.

Lemma vector34_Inv : Inv (fst vector34) /\ wasm (manager (fst vector34)) = true.
Proof.
  assert (reachable (perform (req_allocate Float64Array 2 (Some "vector") 1) fresh))
    as Hr by (apply reach_perform; [apply reach_initialize|simpl; lia]).
  destruct (reachable_Inv _ Hr) as [Hinv Hw].
  assert (fst vector34
          = set_world_memory (Wat.memory (instance (fst vector34)))
              (perform (req_allocate Float64Array 2 (Some "vector") 1) fresh)) as ->
      by (vm_compute; reflexivity).
  split; [|exact Hw].
  apply Inv_set_world_memory; [exact Hinv|vm_compute; reflexivity..].
Qed.

Lemma setAt_getAt_witness :
  exists w',
    WasmVector.setAt 1 7%float vector34 = Normal tt (w', snd vector34)
    /\ WasmVector.getAt 1 (w', snd vector34) = Normal (Some 7%float) (w', snd vector34)
    /\ WasmVector.getAt 0 (w', snd vector34) = Normal (Some 3%float) (w', snd vector34).
Proof.
  destruct (setAt_getAt (fst vector34) (snd vector34) 1 7%float vector34_ok eq_refl)
    as (w' & Hset & _ & _ & Hget & Hother & _).
  exists w'. split; [exact Hset|]. split.
  - apply Hget. split; [lia|]. vm_compute. reflexivity.
  - exact (Hother 0 ltac:(lia)).
Defined.

Lemma createVectorSignal_round_trip_witness :
  exists v s',
    WasmSignalEngine.createVectorSignal 3 (Some (inr [1; 2; 3]%float)) 1
      (fresh, WasmSignalEngine.after_init) = Normal v s'
    /\ WasmVector.toArray (fst s', v) = Normal [1; 2; 3]%float (fst s', v).
Proof.
  destruct (WasmSignalEngine.createVectorSignal 3 (Some (inr [1; 2; 3]%float)) 1
              (fresh, WasmSignalEngine.after_init)) as [v s'|e s'] eqn:E.
  - exists v, s'. split; [reflexivity|].
    destruct (createVectorSignal_round_trip _ _ _ _ _ _ E) as (_ & _ & _ & H).
    apply H. reflexivity.
  - vm_compute in E. discriminate E.
Defined.

(** Three million doubles do not fit the 16 MiB the module starts with:
    the allocation grows the buffer, and the vector [3; 4] created before
    reads [undefined]; [setAt(0, 9)] then returns, after which index 0
    reads 3 again, not 9. *)
Lemma growth_detaches_views_witness :
  exists a w1 v',
    allocate Float64Array 3000000 None 2 (fst vector34) = Normal a w1
    /\ WasmVector.getAt 0 (w1, snd vector34) = Normal None (w1, snd vector34)
    /\ WasmVector.fill 0%float (w1, snd vector34) = Throw TypeError (w1, snd vector34)
    /\ WasmVector.setAt 0 9%float (w1, snd vector34) = Normal tt (w1, v')
    /\ WasmVector.getAt 0 (w1, v') = Normal (Some 3%float) (w1, v').
Proof.
  destruct (allocate Float64Array 3000000 None 2 (fst vector34)) as [a w1|e w1] eqn:E.
  - destruct (growth_detaches_views (fst vector34) w1 (snd vector34)
                Float64Array 3000000 None 2 a
                (proj1 vector34_Inv) (proj2 vector34_Inv) ltac:(lia)
                vector34_ok eq_refl E)
      as (Hget & Hfill & _ & v' & _ & _ & Hset & Hold & _).
    + vm_compute in E. injection E as _ <-. vm_compute. discriminate.
    + exists a, w1, v'. split; [reflexivity|].
      split; [apply Hget|]. split; [apply Hfill|]. split; [apply Hset|].
      rewrite (Hold 0). reflexivity.
  - vm_compute in E. discriminate E.
Defined.

End Vectors.

(** ** Matrices of the engine *)

Section Matrices.
Import MemoryManager Engine.

Lemma matrix_eta x :
  {| WasmMatrix.allocated := WasmMatrix.allocated x;
     WasmMatrix.dimensions := WasmMatrix.dimensions x;
     WasmMatrix._data := WasmMatrix._data x;
     WasmMatrix._disposed := WasmMatrix._disposed x |} = x.
Proof. destruct x. reflexivity. Qed.

Lemma view_put_fields v k x m :
  Wat.mem_gen (view_put v k x m) = Wat.mem_gen m
  /\ Wat.byteLength (view_put v k x m) = Wat.byteLength m.
Proof. unfold view_put. destruct (_ && _); split; reflexivity. Qed.

(** The loop of [setIdentity] on a view of [n * n] elements: the diagonal
    elements of the rows it visits become 1, every other element keeps its
    value. *)
Lemma identity_loop_spec v n : forall left d m,
  view_gen v = Wat.mem_gen m -> view_length v = n * n ->
  0 <= d -> d + Z.of_nat left <= n ->
  Wat.mem_gen (WasmMatrix.identity_loop v n left d m) = Wat.mem_gen m
  /\ Wat.byteLength (WasmMatrix.identity_loop v n left d m) = Wat.byteLength m
  /\ forall r c, 0 <= r < n -> 0 <= c < n ->
       Wat.cell (WasmMatrix.identity_loop v n left d m) (byteOffset v + 8 * (r * n + c))
       = if (r =? c) && (d <=? r) && (r <? d + Z.of_nat left) then 1%float
         else Wat.cell m (byteOffset v + 8 * (r * n + c)).
Proof.
  induction left as [|left IH]; intros d m Hgen Hlen Hd Hn.
  - simpl. split; [reflexivity|]. split; [reflexivity|]. intros r c Hr Hc.
    replace (d + Z.of_nat 0) with d by lia.
    destruct (r =? c); [|reflexivity]. cbn [andb].
    destruct (Z.leb_spec d r), (Z.ltb_spec r d); cbn [andb]; try reflexivity; lia.
  - cbn [WasmMatrix.identity_loop].
    destruct (view_put_fields v (d * n + d) 1%float m) as [Hg1 Hb1].
    destruct (IH (d + 1) (view_put v (d * n + d) 1%float m)) as (Hg & Hb & Hcell);
      [congruence|exact Hlen|lia|lia|].
    split; [congruence|]. split; [congruence|].
    intros r c Hr Hc. rewrite (Hcell r c Hr Hc).
    pose proof (index_bound d d n n ltac:(lia) ltac:(lia)) as Hdd.
    unfold view_put, attached, in_view. rewrite Hgen, Nat.eqb_refl, Hlen.
    replace (0 <=? d * n + d) with true by (symmetry; apply Z.leb_le; lia).
    replace (d * n + d <? n * n) with true by (symmetry; apply Z.ltb_lt; lia).
    cbn [andb].
    destruct (Z.eqb_spec r c) as [->|Hrc]; cbn [andb].
    + destruct (Z.eq_dec c d) as [->|Hcd].
      * rewrite cell_set_eq.
        replace (d <=? d) with true by (symmetry; apply Z.leb_le; lia).
        replace (d <? d + Z.of_nat (S left)) with true
          by (symmetry; apply Z.ltb_lt; lia).
        destruct (_ && _); reflexivity.
      * rewrite cell_set_ne.
        2:{ intros Heq. apply Hcd.
            destruct (index_inj c c d d n ltac:(lia) ltac:(lia) ltac:(lia)) as [H _].
            exact H. }
        destruct (Z.leb_spec (d + 1) c), (Z.ltb_spec c (d + 1 + Z.of_nat left)),
                 (Z.leb_spec d c), (Z.ltb_spec c (d + Z.of_nat (S left)));
          cbn [andb]; try reflexivity; lia.
    + rewrite cell_set_ne; [reflexivity|].
      intros Heq. apply Hrc.
      destruct (index_inj d d c r n ltac:(lia) ltac:(lia) ltac:(lia)) as [H1 H2].
      lia.
Qed.

Lemma replicate_cells m p k x idx :
  0 <= idx < Z.of_nat k ->
  Wat.cell (write_cells m p (replicate k x)) (p + 8 * idx) = x.
Proof.
  intros Hi. replace idx with (Z.of_nat (Z.to_nat idx)) by lia.
  apply write_cells_cell. apply lookup_replicate_2. lia.
Qed.

Lemma matrix_fill_ok (w : World) (x : WasmMatrix.t) (value : float) :
  matrix_ok w x -> WasmMatrix._disposed x = false ->
  WasmMatrix.fill value (w, x)
  = Normal tt
      (set_world_memory
         (write_cells (Wat.memory (instance w)) (WasmMatrix.ptr x)
            (replicate (Z.to_nat (WasmMatrix.size x)) value)) w, x).
Proof.
  intros [Hview Hdata Hrows Hcols] Hlive.
  destruct (new_view_fields _ _ _ _ _ Hview) as (Hgen & Hoff & Hlen & Hnn).
  unfold WasmMatrix.fill, bind, WasmMatrix.ensureNotDisposed, this, lift, on_memory,
    WasmMatrix.notifyChange.
  cbn [fst snd]. rewrite Hlive. cbn [fst snd].
  unfold view_fill, attached. rewrite Hgen, Nat.eqb_refl, Hoff, Hlen. cbn [negb].
  cbn [fst snd instance set_world_memory set_instance Wat.memory Wat.set_memory].
  rewrite new_view_write_cells, Hview. f_equal. f_equal.
  rewrite <- Hdata. apply matrix_eta.
Qed.

(** X20.  On a usable matrix that is not disposed,
    [setIdentity()] throws "Identity matrix requires square dimensions"
    and changes nothing when the matrix is not square; on a square matrix
    it returns, leaves the allocator as it was, and afterwards
    [getAt(i, j)] is 1 when [i = j] and 0 otherwise, for every row [i] and
    column [j] of the matrix. *)
Theorem setIdentity_spec (w : World) (x : WasmMatrix.t) :
  matrix_ok w x -> WasmMatrix._disposed x = false ->
  (WasmMatrix.rows (WasmMatrix.dimensions x) <> WasmMatrix.cols (WasmMatrix.dimensions x) ->
   WasmMatrix.setIdentity (w, x)
   = Throw (PlainError "Identity matrix requires square dimensions") (w, x))
  /\ (WasmMatrix.rows (WasmMatrix.dimensions x) = WasmMatrix.cols (WasmMatrix.dimensions x) ->
      exists w',
        WasmMatrix.setIdentity (w, x) = Normal tt (w', x)
        /\ matrix_ok w' x /\ manager w' = manager w
        /\ forall i j,
             0 <= i < WasmMatrix.rows (WasmMatrix.dimensions x) ->
             0 <= j < WasmMatrix.cols (WasmMatrix.dimensions x) ->
             WasmMatrix.getAt i j (w', x)
             = Normal (Some (if i =? j then 1%float else 0%float)) (w', x)).
Proof.
  intros Hok Hlive. pose proof Hok as [Hview Hdata Hrows Hcols].
  split.
  - intros Hne. unfold WasmMatrix.setIdentity, bind, WasmMatrix.ensureNotDisposed, this.
    cbn [fst snd]. rewrite Hlive.
    replace (_ =? _) with false by (symmetry; apply Z.eqb_neq; exact Hne).
    reflexivity.
  - intros Hsq.
    destruct (new_view_fields _ _ _ _ _ Hview) as (Hgen & Hoff & Hlen & Hnn).
    assert (WasmMatrix.size x
            = WasmMatrix.cols (WasmMatrix.dimensions x)
              * WasmMatrix.cols (WasmMatrix.dimensions x)) as Hsize
        by (unfold WasmMatrix.size; rewrite Hsq; reflexivity).
    pose proof (write_cells_gen (replicate (Z.to_nat (WasmMatrix.size x)) 0%float)
                  (Wat.memory (instance w)) (WasmMatrix.ptr x)) as Hg1.
    destruct (identity_loop_spec (WasmBackedArray.view (WasmMatrix.allocated x))
                (WasmMatrix.cols (WasmMatrix.dimensions x))
                (Z.to_nat (WasmMatrix.rows (WasmMatrix.dimensions x))) 0
                (write_cells (Wat.memory (instance w)) (WasmMatrix.ptr x)
                   (replicate (Z.to_nat (WasmMatrix.size x)) 0%float)))
      as (Hg2 & Hb2 & Hcell); [congruence|congruence|lia|lia|].
    assert (new_view Float64Array
              (WasmMatrix.identity_loop (WasmBackedArray.view (WasmMatrix.allocated x))
                 (WasmMatrix.cols (WasmMatrix.dimensions x))
                 (Z.to_nat (WasmMatrix.rows (WasmMatrix.dimensions x))) 0
                 (write_cells (Wat.memory (instance w)) (WasmMatrix.ptr x)
                    (replicate (Z.to_nat (WasmMatrix.size x)) 0%float)))
              (WasmMatrix.ptr x) (WasmMatrix.size x)
            = Some (WasmBackedArray.view (WasmMatrix.allocated x))) as Hview2.
    { rewrite <- Hview. unfold new_view.
      rewrite Hb2, Hg2, write_cells_byteLength, write_cells_gen. reflexivity. }
    eexists. split; [|split; [|split]].
    + unfold WasmMatrix.setIdentity, bind, WasmMatrix.ensureNotDisposed, this, ret.
      cbn [fst snd]. rewrite Hlive. cbn [fst snd].
      replace (_ =? _) with true by (symmetry; apply Z.eqb_eq; exact Hsq).
      cbn [negb].
      rewrite (matrix_fill_ok w x 0%float Hok Hlive).
      unfold lift, modify, WasmMatrix.notifyChange.
      cbn [fst snd instance set_world_memory set_instance Wat.memory Wat.set_memory].
      rewrite Hview2. f_equal. f_equal.
      rewrite <- Hdata. apply matrix_eta.
    + split; [exact Hview2|exact Hdata|exact Hrows|exact Hcols].
    + reflexivity.
    + intros i j Hi Hj. unfold WasmMatrix.getAt, bind, this, lift. cbn [fst snd].
      cbn [instance set_world_memory set_instance Wat.memory Wat.set_memory].
      f_equal. rewrite Hdata.
      rewrite Hsq in Hi.
      pose proof (index_bound i j _ _ Hi Hj) as Hij.
      unfold view_get, attached, in_view. rewrite Hgen, Hg2, Hg1, Nat.eqb_refl, Hlen.
      replace (0 <=? _) with true by (symmetry; apply Z.leb_le; lia).
      replace (_ <? _) with true by (symmetry; apply Z.ltb_lt; lia).
      cbn [andb]. f_equal. rewrite (Hcell i j Hi Hj).
      replace (0 <=? i) with true by (symmetry; apply Z.leb_le; lia).
      replace (i <? 0 + _) with true by (symmetry; apply Z.ltb_lt; lia).
      rewrite !andb_true_r.
      destruct (i =? j); [reflexivity|].
      rewrite Hoff. apply replicate_cells. lia.
Qed.

End Matrices.

Section MatrixExamples.
Import MemoryManager Engine.

Lemma matrix22_ok : matrix_ok (fst matrix22) (snd matrix22).
Proof. split; [vm_compute; reflexivity..| |]; vm_compute; discriminate. Qed.

Lemma setIdentity_spec_witness :
  exists w',
    WasmMatrix.setIdentity matrix22 = Normal tt (w', snd matrix22)
    /\ WasmMatrix.getAt 0 0 (w', snd matrix22) = Normal (Some 1%float) (w', snd matrix22)
    /\ WasmMatrix.getAt 0 1 (w', snd matrix22) = Normal (Some 0%float) (w', snd matrix22)
    /\ WasmMatrix.getAt 1 0 (w', snd matrix22) = Normal (Some 0%float) (w', snd matrix22)
    /\ WasmMatrix.getAt 1 1 (w', snd matrix22) = Normal (Some 1%float) (w', snd matrix22).
Proof.
  destruct (proj2 (setIdentity_spec (fst matrix22) (snd matrix22) matrix22_ok eq_refl)
              eq_refl) as (w' & Hrun & _ & _ & Hget).
  exists w'. split; [exact Hrun|].
  assert (forall i, 0 <= i < 2 ->
            0 <= i < WasmMatrix.rows (WasmMatrix.dimensions (snd matrix22))) as Hr
      by (intros i Hi; exact Hi).
  assert (forall j, 0 <= j < 2 ->
            0 <= j < WasmMatrix.cols (WasmMatrix.dimensions (snd matrix22))) as Hc
      by (intros j Hj; exact Hj).
  split; [exact (Hget 0 0 (Hr 0 ltac:(lia)) (Hc 0 ltac:(lia)))|].
  split; [exact (Hget 0 1 (Hr 0 ltac:(lia)) (Hc 1 ltac:(lia)))|].
  split; [exact (Hget 1 0 (Hr 1 ltac:(lia)) (Hc 0 ltac:(lia)))|].
  exact (Hget 1 1 (Hr 1 ltac:(lia)) (Hc 1 ltac:(lia))).
Defined.

End MatrixExamples.

(** ** The worker pool: dispatch, replies, errors and termination *)

Section PoolChoice.
Import WorkerPool.

(** The worker [getAvailableWorker] returns is the first of the least
    loaded ones, and has fewer than ten pending requests; it returns none
    only when every worker has at least ten. *)
Lemma getAvailableWorker_spec (p : WasmWorkerPool) :
  match getAvailableWorker p with
  | Some i => exists c, first_least (workers p) i c /\ (c < 10)%nat
  | None => forall j w, workers p !! j = Some w -> (10 <= load w)%nat
  end.
Proof.
  unfold getAvailableWorker.
  destruct (workers p) as [|w0 ws] eqn:Hws.
  - simpl. intros j w H. discriminate H.
  - destruct (least_busy_spec (w0 :: ws) ltac:(discriminate)) as (i & c & -> & Hfirst).
    destruct (Nat.ltb_spec c 10) as [Hlt|Hge].
    + exists c. split; assumption.
    + intros j w Hj. destruct Hfirst as [_ Hall].
      destruct (Hall j w Hj) as [Hle _]. lia.
Qed.

Lemma getAvailableWorker_in_range p i :
  getAvailableWorker p = Some i -> is_Some (workers p !! i).
Proof.
  intros H. pose proof (getAvailableWorker_spec p) as Hs. rewrite H in Hs.
  destruct Hs as (c & [(w & Hw & _) _] & _). eauto.
Qed.

Lemma chain_length q k ps : length (chain q k ps) = length ps.
Proof. unfold chain. destruct (ps !! q); [apply length_insert|reflexivity]. Qed.

(** A pending request stays pending when another request is sent. *)
Lemma sent_keeps m k now w tid :
  is_Some (pendingTasks w !! tid) -> is_Some (pendingTasks (sent m k now w) !! tid).
Proof.
  intros H. unfold sent. cbn [pendingTasks].
  destruct (decide (id m = tid)) as [->|Hne].
  - rewrite lookup_insert_eq. eauto.
  - rewrite lookup_insert_ne by exact Hne. exact H.
Qed.

Lemma sent_pending m k now w : is_Some (pendingTasks (sent m k now w) !! id m).
Proof. unfold sent. cbn [pendingTasks]. rewrite lookup_insert_eq. eauto. Qed.

Lemma processQueue_loop_spec now : forall queue p,
  taskQueue p = queue ->
  let p' := processQueue_loop queue now p in
  exists done,
    queue = done ++ taskQueue p'
    /\ (taskQueue p' = [] \/ getAvailableWorker p' = None)
    /\ length (workers p') = length (workers p)
    /\ length (promises p') = (length (promises p) + length done)%nat
    /\ initialized p' = initialized p
    /\ ((done = [] /\ p' = p)
        \/ _queuedTasks p' = Z.of_nat (length (taskQueue p')))
    /\ (forall j w tid, workers p !! j = Some w -> is_Some (pendingTasks w !! tid) ->
          exists w', workers p' !! j = Some w' /\ is_Some (pendingTasks w' !! tid))
    /\ (forall q, q ∈ done ->
          exists j w', workers p' !! j = Some w'
                       /\ is_Some (pendingTasks w' !! id (message q))).
Proof.
  induction queue as [|q rest IH]; intros p Hq p'.
  - exists []. unfold p'. simpl. rewrite Hq.
    split; [reflexivity|]. split; [left; reflexivity|].
    split; [reflexivity|]. split; [lia|].
    split; [reflexivity|]. split; [left; split; reflexivity|].
    split; [eauto|]. intros q Hin. apply elem_of_nil in Hin. contradiction.
  - unfold p'. cbn [processQueue_loop].
    destruct (getAvailableWorker p) as [i|] eqn:Hav.
    + destruct (getAvailableWorker_in_range p i Hav) as [w Hw].
      set (p1 := set_taskQueue rest (Z.of_nat (length rest)) p).
      destruct (sendToWorker_in_pool i (message q) now p1 w Hw)
        as (p2 & Hsend & Hws & Hps & Htq & Hqt & Hinit & Hctr & _).
      rewrite Hsend.
      set (p3 := set_promises (chain _ _ (promises p2)) p2).
      assert (taskQueue p3 = rest) as Hq3 by (change (taskQueue p3) with (taskQueue p2);
                                              rewrite Htq; reflexivity).
      assert (_queuedTasks p3 = Z.of_nat (length (taskQueue p3))) as Hn3.
      { rewrite Hq3. change (_queuedTasks p3) with (_queuedTasks p2).
        rewrite Hqt. reflexivity. }
      assert (workers p3 = <[i := sent (message q) (length (promises p1)) now w]> (workers p))
        as Hws3 by exact Hws.
      destruct (IH p3 Hq3) as (done & Hdone & Hstop & Hlen & Hpl & Hi & Hqn & Hkeep & Hsent).
      exists (q :: done). split; [simpl; rewrite <- Hdone; reflexivity|].
      split; [exact Hstop|]. split.
      { rewrite Hlen, Hws3, length_insert. reflexivity. }
      split.
      { rewrite Hpl. change (promises p3)
          with (chain (length (promises p1)) (queued_promise q) (promises p2)).
        rewrite chain_length, Hps, length_app. simpl.
        change (promises p1) with (promises p). lia. }
      split; [rewrite Hi; change (initialized p3) with (initialized p2);
              rewrite Hinit; reflexivity|].
      split; [right; destruct Hqn as [[_ ->]|Hqn]; [exact Hn3|exact Hqn]|].
      assert (forall j w0 tid, workers p !! j = Some w0 -> is_Some (pendingTasks w0 !! tid) ->
                exists w', workers p3 !! j = Some w' /\ is_Some (pendingTasks w' !! tid))
        as Hstep.
      { intros j w0 tid Hj Htid. rewrite Hws3.
        destruct (decide (j = i)) as [->|Hne].
        - rewrite list_lookup_insert_eq by (apply lookup_lt_Some in Hw; exact Hw).
          eexists. split; [reflexivity|].
          assert (w0 = w) as -> by congruence. apply sent_keeps. exact Htid.
        - rewrite list_lookup_insert_ne by congruence. eauto. }
      split.
      * intros j w0 tid Hj Htid.
        destruct (Hstep j w0 tid Hj Htid) as (w1 & Hj1 & Htid1).
        exact (Hkeep j w1 tid Hj1 Htid1).
      * intros q' Hin. apply elem_of_cons in Hin as [->|Hin]; [|exact (Hsent q' Hin)].
        exists i.
        apply (Hkeep i (sent (message q) (length (promises p1)) now w)).
        -- rewrite Hws3. apply list_lookup_insert_eq. apply lookup_lt_Some in Hw. exact Hw.
        -- apply sent_pending.
    + exists []. rewrite Hq.
      split; [reflexivity|]. split; [right; exact Hav|].
      split; [reflexivity|]. split; [simpl; lia|].
      split; [reflexivity|]. split; [left; split; reflexivity|].
      split; [eauto|]. intros q' Hin. apply elem_of_nil in Hin. contradiction.
Qed.

(** X21.  [processQueue()] hands queued requests to workers oldest
    first, each to a worker of the pool on which it is then pending, and
    stops only when the queue is empty or no worker has fewer than ten
    pending requests.  It creates one promise for each request it hands
    over, keeps the number of workers, and sets the [queuedTasks] signal
    to the length of what is left of the queue whenever it hands over a
    request. *)
Theorem processQueue_drains (now : float) (p : WasmWorkerPool) :
  let p' := processQueue now p in
  exists done,
    taskQueue p = done ++ taskQueue p'
    /\ (taskQueue p' = []
        \/ forall j w, workers p' !! j = Some w -> (10 <= load w)%nat)
    /\ length (workers p') = length (workers p)
    /\ length (promises p') = (length (promises p) + length done)%nat
    /\ ((done = [] /\ p' = p)
        \/ _queuedTasks p' = Z.of_nat (length (taskQueue p')))
    /\ (forall q, q ∈ done ->
          exists j w', workers p' !! j = Some w'
                       /\ is_Some (pendingTasks w' !! id (message q))).
Proof.
  intros p'. destruct (processQueue_loop_spec now (taskQueue p) p eq_refl)
    as (done & H1 & H2 & H3 & H4 & _ & H6 & _ & H8).
  exists done. split; [exact H1|]. split.
  { destruct H2 as [H2|H2]; [left; exact H2|right].
    pose proof (getAvailableWorker_spec (processQueue_loop (taskQueue p) now p))
      as Hs.
    rewrite H2 in Hs. exact Hs. }
  repeat split; assumption.
Qed.

End PoolChoice.

Section Rejection.
Import WorkerPool.

Lemma settled_with_refl s ps : settled_with s ps ps.
Proof. split; [reflexivity|]. intros j pr H. exists pr. auto. Qed.

Lemma settled_with_trans s ps1 ps2 ps3 :
  settled_with s ps1 ps2 -> settled_with s ps2 ps3 -> settled_with s ps1 ps3.
Proof.
  intros [Hl1 H1] [Hl2 H2]. split; [congruence|].
  intros j pr Hj. destruct (H1 j pr Hj) as (pr2 & Hj2 & Hc2 & Hs2).
  destruct (H2 j pr2 Hj2) as (pr3 & Hj3 & Hc3 & Hs3).
  exists pr3. split; [exact Hj3|]. split; [congruence|].
  destruct Hs2 as [Hs2|[Hp Hs2]], Hs3 as [Hs3|[Hp3 Hs3]].
  - left. congruence.
  - right. split; congruence.
  - right. split; congruence.
  - rewrite Hs2 in Hp3. right. split; congruence.
Qed.

Lemma settled_with_one k s ps : settled_with s ps (settle_one k s ps).
Proof.
  unfold settle_one. destruct (ps !! k) as [pr|] eqn:Hk; [|apply settled_with_refl].
  destruct (is_pending (state pr)) eqn:Hp; [|apply settled_with_refl].
  split; [apply length_insert|].
  intros j pr0 Hj. destruct (decide (j = k)) as [->|Hne].
  - rewrite list_lookup_insert_eq by (apply lookup_lt_Some in Hk; exact Hk).
    eexists. split; [reflexivity|]. assert (pr0 = pr) as -> by congruence.
    split; [reflexivity|]. right. split; [|reflexivity].
    destruct (state pr); try discriminate. reflexivity.
  - rewrite list_lookup_insert_ne by congruence. exists pr0. auto.
Qed.

Lemma settled_with_settle k s ps : settled_with s ps (settle k s ps).
Proof.
  unfold settle. destruct (ps !! k) as [pr|] eqn:Hk; [|apply settled_with_refl].
  destruct (is_pending (state pr)) eqn:Hp; [|apply settled_with_refl].
  assert (settled_with s ps (<[k := {| state := s; chained := chained pr |}]> ps)) as H1.
  { pose proof (settled_with_one k s ps) as H. unfold settle_one in H.
    rewrite Hk, Hp in H. exact H. }
  destruct (chained pr) as [target|]; [|exact H1].
  eapply settled_with_trans; [exact H1|apply settled_with_one].
Qed.

(** After [settle k (Rejected e)], promise [k] is not pending. *)
Lemma settle_done k e ps pr :
  ps !! k = Some pr ->
  exists pr', settle k (Rejected e) ps !! k = Some pr'
              /\ state pr' = rejected_from e (state pr).
Proof.
  intros Hk. unfold settle, rejected_from. rewrite Hk.
  destruct (is_pending (state pr)) eqn:Hp; [|eauto].
  assert (<[k := {| state := Rejected e; chained := chained pr |}]> ps !! k
          = Some {| state := Rejected e; chained := chained pr |}) as Hnew
      by (apply list_lookup_insert_eq; apply lookup_lt_Some in Hk; exact Hk).
  destruct (chained pr) as [target|]; [|eauto].
  unfold settle_one. destruct (_ !! target) as [pt|] eqn:Ht; [|eauto].
  destruct (is_pending (state pt)) eqn:Hpt; [|eauto].
  destruct (decide (target = k)) as [->|Hne].
  - rewrite Hnew in Ht. injection Ht as <-. discriminate Hpt.
  - rewrite list_lookup_insert_ne by congruence. eauto.
Qed.

Lemma rejected_from_stays e pr pr' :
  state pr' = state pr \/ (state pr = Pending /\ state pr' = Rejected e) ->
  rejected_from e (state pr') = rejected_from e (state pr).
Proof.
  intros [->|[Hp ->]]; [reflexivity|]. rewrite Hp. reflexivity.
Qed.

Lemma reject_all_spec e : forall tasks ps,
  settled_with (Rejected e) ps (reject_all tasks e ps)
  /\ forall kt pr, kt ∈ tasks -> ps !! promise (snd kt) = Some pr ->
       exists pr', reject_all tasks e ps !! promise (snd kt) = Some pr'
                   /\ state pr' = rejected_from e (state pr).
Proof.
  unfold reject_all.
  induction tasks as [|t tasks IH]; intros ps.
  - split; [apply settled_with_refl|]. intros kt pr Hin. apply elem_of_nil in Hin.
    contradiction.
  - cbn [foldl]. destruct (IH (settle (promise (snd t)) (Rejected e) ps)) as [Hs Hall].
    pose proof (settled_with_settle (promise (snd t)) (Rejected e) ps) as H1.
    split; [eapply settled_with_trans; eassumption|].
    intros kt pr Hin Hk. apply elem_of_cons in Hin as [->|Hin].
    + destruct (settle_done _ e ps pr Hk) as (pr1 & Hk1 & Hst1).
      destruct Hs as [_ Hs]. destruct (Hs _ _ Hk1) as (pr2 & Hk2 & _ & Hst2).
      exists pr2. split; [exact Hk2|].
      destruct Hst2 as [->|[Hp _]]; [exact Hst1|].
      rewrite Hst1 in Hp. unfold rejected_from in Hp.
      destruct (is_pending (state pr)) eqn:E; [discriminate Hp|].
      rewrite Hp in E. discriminate E.
    + destruct H1 as [_ H1]. destruct (H1 _ _ Hk) as (pr1 & Hk1 & _ & Hst1).
      destruct (Hall kt pr1 Hin Hk1) as (pr2 & Hk2 & Hst2).
      exists pr2. split; [exact Hk2|]. rewrite Hst2.
      apply rejected_from_stays. exact Hst1.
Qed.

(** X22.  [handleWorkerError(pooled, error)] on a worker of the pool:
    the promise of every request pending on that worker is rejected with
    [error] unless it was settled before; no other promise changes except
    from pending to rejected with [error]; the worker is left with no
    pending request and not busy, and keeps its task count; the queue and
    the number of completed tasks are left as they are (queued requests
    are not handed over). *)
Theorem handleWorkerError_rejects_pending (p : WasmWorkerPool) (i : nat)
  (w : PooledWorker) (e : JsError) :
  workers p !! i = Some w ->
  let p' := handleWorkerError (in_pool i) e p in
  workers p' = <[i := {| worker := worker w; busy := false;
                         taskCount := taskCount w; pendingTasks := ∅ |}]> (workers p)
  /\ taskQueue p' = taskQueue p
  /\ _totalTasksCompleted p' = _totalTasksCompleted p
  /\ settled_with (Rejected e) (promises p) (promises p')
  /\ forall tid task pr,
       pendingTasks w !! tid = Some task ->
       promises p !! promise task = Some pr ->
       exists pr', promises p' !! promise task = Some pr'
                   /\ state pr' = rejected_from e (state pr).
Proof.
  intros Hw p'. unfold p', handleWorkerError. cbn [lookup_worker]. rewrite Hw.
  destruct (reject_all_spec e (map_to_list (pendingTasks w)) (promises p)) as [Hs Hall].
  split; [reflexivity|]. split; [reflexivity|]. split; [reflexivity|].
  split; [exact Hs|].
  intros tid task pr Htask Hk.
  apply (Hall (tid, task) pr); [|exact Hk].
  apply elem_of_map_to_list. exact Htask.
Qed.

End Rejection.

Section Termination.
Import WorkerPool.

Lemma reject_workers_spec e : forall ws ps,
  let ps' := foldl (fun acc pooled =>
                      reject_all (map_to_list (pendingTasks pooled)) e acc) ps ws in
  settled_with (Rejected e) ps ps'
  /\ forall w tid task pr,
       w ∈ ws -> pendingTasks w !! tid = Some task ->
       ps !! promise task = Some pr ->
       exists pr', ps' !! promise task = Some pr'
                   /\ state pr' = rejected_from e (state pr).
Proof.
  induction ws as [|w0 ws IH]; intros ps ps'.
  - split; [apply settled_with_refl|]. intros w tid task pr Hin.
    apply elem_of_nil in Hin. contradiction.
  - unfold ps'. cbn [foldl].
    destruct (reject_all_spec e (map_to_list (pendingTasks w0)) ps) as [H1 Hall1].
    destruct (IH (reject_all (map_to_list (pendingTasks w0)) e ps)) as [Hs Hall].
    split; [eapply settled_with_trans; eassumption|].
    intros w tid task pr Hin Htask Hk. apply elem_of_cons in Hin as [->|Hin].
    + destruct (Hall1 (tid, task) pr) as (pr1 & Hk1 & Hst1);
        [apply elem_of_map_to_list; exact Htask|exact Hk|].
      destruct Hs as [_ Hs]. destruct (Hs _ _ Hk1) as (pr2 & Hk2 & _ & Hst2).
      exists pr2. split; [exact Hk2|].
      destruct Hst2 as [->|[Hp _]]; [exact Hst1|].
      rewrite Hst1 in Hp. unfold rejected_from in Hp.
      destruct (is_pending (state pr)) eqn:E; [discriminate Hp|].
      rewrite Hp in E. discriminate E.
    + destruct H1 as [_ H1]. destruct (H1 _ _ Hk) as (pr1 & Hk1 & _ & Hst1).
      destruct (Hall w tid task pr1 Hin Htask Hk1) as (pr2 & Hk2 & Hst2).
      exists pr2. split; [exact Hk2|]. rewrite Hst2.
      apply rejected_from_stays. exact Hst1.
Qed.

(** X23.  [terminate()] leaves no worker and an empty queue, marks
    the pool as not initialised and calls [terminate()] on every worker;
    the promise of every request pending on a worker is rejected with
    "Worker pool terminated" unless it was settled before, and no other
    promise changes except from pending to that rejection.  A second
    [terminate()] changes nothing, and a [compute] after it is rejected
    with "Worker pool not initialized", sending and queueing nothing. *)
Theorem terminate_rejects_dispatched (p : WasmWorkerPool) :
  let gone := PlainError "Worker pool terminated" in
  let p' := terminate p in
  workers p' = [] /\ taskQueue p' = [] /\ initialized p' = false
  /\ retired p' = retired p ++ map terminate_worker (workers p)
  /\ settled_with (Rejected gone) (promises p) (promises p')
  /\ (forall i w tid task pr,
        workers p !! i = Some w -> pendingTasks w !! tid = Some task ->
        promises p !! promise task = Some pr ->
        exists pr', promises p' !! promise task = Some pr'
                    /\ state pr' = rejected_from gone (state pr))
  /\ terminate p' = p'
  /\ (forall op arguments buffers now now_ms,
        let r := compute op arguments buffers now now_ms p' in
        workers (snd r) = [] /\ taskQueue (snd r) = []
        /\ state <$> promises (snd r) !! fst r
           = Some (Rejected (PlainError "Worker pool not initialized"))).
Proof.
  intros gone p'.
  destruct (reject_workers_spec gone (workers p) (promises p)) as [Hs Hall].
  split; [reflexivity|]. split; [reflexivity|]. split; [reflexivity|].
  split; [reflexivity|]. split; [exact Hs|]. split.
  { intros i w tid task pr Hw Htask Hk.
    apply (Hall w tid task pr); try assumption.
    apply list_elem_of_lookup. eauto. }
  split.
  { unfold p', terminate. cbn. rewrite app_nil_r. reflexivity. }
  intros op arguments buffers now now_ms r.
  unfold r, compute. cbn [initialized p' terminate set_activeWorkers set_taskQueue
                         set_initialized negb new_promise fst snd].
  cbn [workers taskQueue promises set_promises set_activeWorkers set_taskQueue
       set_initialized set_workers set_retired].
  split; [reflexivity|]. split; [reflexivity|].
  unfold settle. rewrite lookup_app_r by lia. rewrite Nat.sub_diag. cbn.
  rewrite list_lookup_insert_eq by (rewrite length_app; simpl; lia). reflexivity.
Qed.

End Termination.

Section PoolRun.
Import WorkerPool.

Ltac pool_simpl :=
  cbn [workers retired initialized taskIdCounter taskQueue _activeWorkers
       _queuedTasks _totalTasksCompleted _averageTaskTimeMs promises
       set_workers set_retired set_initialized set_taskIdCounter set_taskQueue
       set_activeWorkers set_stats set_promises updateActiveWorkerCount
       updateStats lookup_worker store_worker new_promise generateTaskId
       fst snd] in *.

Lemma busy_count_insert (l : list PooledWorker) : forall i a b,
  busy a = busy b ->
  length (filter (fun w => busy w = true) (<[i := a]> l))
  = length (filter (fun w => busy w = true) (<[i := b]> l)).
Proof.
  induction l as [|x l IH]; intros i a b Hab; [reflexivity|].
  destruct i as [|i]; simpl.
  - rewrite !filter_cons. rewrite Hab.
    destruct (decide (busy b = true)); reflexivity.
  - rewrite !filter_cons.
    destruct (decide (busy x = true)); simpl; rewrite (IH i a b Hab); reflexivity.
Qed.

Lemma busy_count_le (l : list PooledWorker) :
  (length (filter (fun w => busy w = true) l) <= length l)%nat.
Proof. apply length_filter. Qed.

(** The invariant does not look at the promises, at the dropped workers,
    at the flag or at the running mean. *)
Lemma pool_ok_same p p' :
  workers p' = workers p -> taskQueue p' = taskQueue p ->
  _queuedTasks p' = _queuedTasks p -> _activeWorkers p' = _activeWorkers p ->
  0 <= _totalTasksCompleted p' -> taskIdCounter p <= taskIdCounter p' ->
  pool_ok p -> pool_ok p'.
Proof.
  intros Hw Hq Hn Ha Ht Hc [H1 H2 H3 H4 H5 H6 H7 H8 H9].
  unfold pending_on, queued_ids in *.
  split; unfold pending_on, queued_ids; rewrite ?Hw, ?Hq, ?Hn, ?Ha; try assumption.
  - intros i tid Hp. specialize (H5 i tid Hp). lia.
  - intros tid Hp. specialize (H6 tid Hp). lia.
Qed.

Lemma sendToWorker_active i m now p w :
  workers p !! i = Some w ->
  _activeWorkers (snd (sendToWorker (in_pool i) m now p))
  = Z.of_nat (length (filter (fun w => busy w = true)
                        (workers (snd (sendToWorker (in_pool i) m now p))))).
Proof.
  intros Hw. pose proof (lookup_lt_Some _ _ _ Hw) as Hlt.
  unfold sendToWorker. pool_simpl. rewrite Hw. pool_simpl.
  rewrite list_lookup_insert_eq by exact Hlt. pool_simpl.
  rewrite list_insert_insert_eq. f_equal. apply busy_count_insert. reflexivity.
Qed.

(** Sending a request whose id is new to a worker of the pool. *)
Lemma sendToWorker_ok i m now p w :
  pool_ok p -> workers p !! i = Some w ->
  (forall j, ~ pending_on p j (id m)) -> id m ∉ queued_ids p ->
  fst (id m) <= taskIdCounter p ->
  pool_ok (snd (sendToWorker (in_pool i) m now p)).
Proof.
  intros [H1 H2 H3 H4 H5 H6 H7 H8 H9] Hw Hnew Hnq Hle.
  pose proof (sendToWorker_active i m now p w Hw) as Hact.
  destruct (sendToWorker_in_pool i m now p w Hw)
    as (p' & Hsend & Hws & _ & Htq & Hqt & _ & Hctr & _ & Htot).
  rewrite Hsend in *. cbn [snd] in *.
  pose proof (lookup_lt_Some _ _ _ Hw) as Hlt.
  assert (forall j tid, pending_on p' j tid ->
            pending_on p j tid \/ (j = i /\ tid = id m)) as Hback.
  { intros j tid (w' & Hj & Hsome). rewrite Hws in Hj.
    destruct (decide (j = i)) as [->|Hne].
    - rewrite list_lookup_insert_eq in Hj by exact Hlt. injection Hj as <-.
      unfold sent in Hsome. cbn [pendingTasks] in Hsome.
      destruct (decide (tid = id m)) as [->|Hid]; [right; auto|].
      rewrite lookup_insert_ne in Hsome by congruence. left. exists w. auto.
    - rewrite list_lookup_insert_ne in Hj by congruence. left. exists w'. auto. }
  split; unfold queued_ids; rewrite ?Htq, ?Hqt, ?Hctr, ?Htot; try assumption.
  - intros j w' Hj. rewrite Hws in Hj.
    destruct (decide (j = i)) as [->|Hne].
    + rewrite list_lookup_insert_eq in Hj by exact Hlt. injection Hj as <-.
      reflexivity.
    + rewrite list_lookup_insert_ne in Hj by congruence. eauto.
  - intros j tid Hp. destruct (Hback j tid Hp) as [Hold|[-> ->]]; eauto.
  - intros j j' tid Hp Hp'.
    pose proof (Hback j tid Hp) as Hj. pose proof (Hback j' tid Hp') as Hj'.
    destruct Hj as [Hold|[Hji Hid]], Hj' as [Hold'|[Hji' Hid']].
    + eauto.
    + subst tid. exfalso. exact (Hnew _ Hold).
    + subst tid. exfalso. exact (Hnew _ Hold').
    + congruence.
  - intros j tid Hp. destruct (Hback j tid Hp) as [Hold|[-> ->]]; [eauto|exact Hnq].
Qed.

Lemma processQueue_loop_ok now : forall queue p,
  taskQueue p = queue -> pool_ok p -> pool_ok (processQueue_loop queue now p).
Proof.
  induction queue as [|q rest IH]; intros p Hq Hok; [exact Hok|].
  cbn [processQueue_loop].
  destruct (getAvailableWorker p) as [i|] eqn:Hav; [|exact Hok].
  destruct (getAvailableWorker_in_range p i Hav) as [w Hw].
  set (p1 := set_taskQueue rest (Z.of_nat (length rest)) p).
  assert (NoDup (id (message q) :: map (fun q => id (message q)) rest)) as Hnd.
  { pose proof (po_queue p Hok) as H. unfold queued_ids in H. rewrite Hq in H.
    exact H. }
  apply NoDup_cons in Hnd as [Hfresh Hnd].
  assert (pool_ok p1) as Hok1.
  { destruct Hok as [H1 H2 H3 H4 H5 H6 H7 H8 H9].
    split; unfold pending_on, queued_ids in *; pool_simpl; try assumption.
    - reflexivity.
    - intros tid Hin. apply H6. rewrite Hq. simpl. apply elem_of_cons. auto.
    - intros j tid Hp Hin. apply (H8 j tid Hp). rewrite Hq. simpl.
      apply elem_of_cons. auto. }
  assert (pool_ok (snd (sendToWorker (in_pool i) (message q) now p1))) as Hok2.
  { apply (sendToWorker_ok i (message q) now p1 w Hok1 Hw).
    - intros j Hp. apply (po_either p Hok j _ Hp). unfold queued_ids.
      rewrite Hq. simpl. apply elem_of_cons. auto.
    - exact Hfresh.
    - apply (po_waiting p Hok). unfold queued_ids. rewrite Hq. simpl.
      apply elem_of_cons. auto. }
  destruct (sendToWorker_in_pool i (message q) now p1 w Hw)
    as (p2 & Hsend & _ & _ & Htq & _).
  rewrite Hsend in *. cbn [snd] in Hok2.
  apply IH; [exact Htq|].
  apply (pool_ok_same p2); try reflexivity; [apply (po_total p2 Hok2)|exact Hok2].
Qed.

Lemma compute_ok op arguments buffers now now_ms p :
  pool_ok p -> pool_ok (snd (compute op arguments buffers now now_ms p)).
Proof.
  intros Hok. unfold compute.
  destruct (initialized p); cbn [negb].
  2:{ pool_simpl. apply (pool_ok_same p); try reflexivity; [apply (po_total p Hok)|exact Hok]. }
  pool_simpl.
  set (p1 := set_taskIdCounter (taskIdCounter p + 1) p).
  set (m := {| type := t_compute; id := (taskIdCounter p + 1, now) |}).
  assert (pool_ok p1) as Hok1
    by (apply (pool_ok_same p); try reflexivity;
        [apply (po_total p Hok)|unfold p1; pool_simpl; lia|exact Hok]).
  assert (forall j, ~ pending_on p1 j (id m)) as Hnew.
  { intros j Hp. pose proof (po_pending p Hok j _ Hp) as H. simpl in H. lia. }
  assert (id m ∉ queued_ids p1) as Hnq.
  { intros Hin. pose proof (po_waiting p Hok _ Hin) as H. simpl in H. lia. }
  destruct (getAvailableWorker p1) as [i|] eqn:Hav.
  - destruct (getAvailableWorker_in_range p1 i Hav) as [w Hw].
    apply (sendToWorker_ok i m now_ms p1 w Hok1 Hw Hnew Hnq).
    simpl. lia.
  - pool_simpl. destruct Hok1 as [H1 H2 H3 H4 H5 H6 H7 H8 H9].
    split; unfold pending_on, queued_ids in *; pool_simpl; try assumption.
    + reflexivity.
    + intros tid Hin. rewrite map_app in Hin. apply elem_of_app in Hin as [Hin|Hin];
        [eauto|]. simpl in Hin. apply list_elem_of_singleton in Hin as ->. simpl. lia.
    + intros j tid Hp Hin. rewrite map_app in Hin.
      apply elem_of_app in Hin as [Hin|Hin]; [exact (H8 j tid Hp Hin)|].
      simpl in Hin. apply list_elem_of_singleton in Hin as ->. exact (Hnew j Hp).
    + rewrite map_app. apply NoDup_app. split; [exact H9|]. split.
      * intros tid Hin Hin'. simpl in Hin'. apply list_elem_of_singleton in Hin' as ->.
        exact (Hnq Hin).
      * simpl. apply NoDup_singleton.
Qed.

Lemma parallelMap_calls_ok op now now_ms : forall chunks p,
  pool_ok p -> pool_ok (snd (parallelMap_calls chunks op now now_ms p)).
Proof.
  induction chunks as [|[n chunk] rest IH]; intros p Hok; [exact Hok|].
  cbn [parallelMap_calls].
  pose proof (compute_ok op [0; 0; n] (Some [chunk]) now now_ms p Hok) as H1.
  destruct (compute op [0; 0; n] (Some [chunk]) now now_ms p) as [k p1].
  specialize (IH p1 H1).
  destruct (parallelMap_calls rest op now now_ms p1) as [ks p2]. exact IH.
Qed.

Lemma init_workers_ok wasmPath now now_ms : forall count p,
  pool_ok p -> pool_ok (snd (init_workers count wasmPath now now_ms p)).
Proof.
  induction count as [|count IH]; intros p Hok; [exact Hok|].
  cbn [init_workers]. pool_simpl.
  set (fresh := {| worker := {| terminated := false; posted := [] |};
                   busy := false; taskCount := 0; pendingTasks := ∅ |}).
  set (p2 := set_taskIdCounter (taskIdCounter p + 1)
               (set_workers (workers p ++ [fresh]) p)).
  set (m := {| type := t_init; id := (taskIdCounter p + 1, now) |}).
  assert (forall j tid, pending_on p2 j tid -> pending_on p j tid) as Hback.
  { intros j tid (w & Hj & Hsome). unfold p2 in Hj. pool_simpl.
    apply lookup_app_Some in Hj as [Hj|[_ Hj]]; [exists w; auto|].
    apply list_lookup_singleton_Some in Hj as [_ <-].
    simpl in Hsome. rewrite lookup_empty in Hsome. destruct Hsome; discriminate. }
  assert (pool_ok p2) as Hok2.
  { destruct Hok as [H1 H2 H3 H4 H5 H6 H7 H8 H9].
    split; unfold queued_ids in *; unfold p2; pool_simpl; try assumption.
    - rewrite filter_app, length_app. rewrite H2. f_equal.
      rewrite filter_cons. simpl. destruct (decide (false = true)); [discriminate|].
      simpl. lia.
    - intros j w Hj. apply lookup_app_Some in Hj as [Hj|[_ Hj]]; [eauto|].
      apply list_lookup_singleton_Some in Hj as [_ <-]. reflexivity.
    - intros j tid Hp. pose proof (H5 j tid (Hback j tid Hp)). lia.
    - intros tid Hin. pose proof (H6 tid Hin). lia.
    - intros j j' tid Hp Hp'. eauto.
    - intros j tid Hp. eauto. }
  assert (workers p2 !! length (workers p) = Some fresh) as Hw.
  { unfold p2. pool_simpl. apply list_lookup_middle. reflexivity. }
  assert (pool_ok (snd (sendToWorker (in_pool (length (workers p))) m now_ms p2)))
    as Hok3.
  { apply (sendToWorker_ok _ m now_ms p2 fresh Hok2 Hw).
    - intros j Hp. pose proof (po_pending p Hok j _ (Hback j _ Hp)) as H.
      simpl in H. lia.
    - intros Hin. pose proof (po_waiting p Hok _ Hin) as H. simpl in H. lia.
    - simpl. lia. }
  destruct (sendToWorker (in_pool (length (workers p))) m now_ms p2) as [k p3].
  specialize (IH p3 Hok3).
  destruct (init_workers count wasmPath now now_ms p3) as [ks p4]. exact IH.
Qed.

Lemma handleWorkerMessage_ok r m now p :
  pool_ok p -> pool_ok (fst (handleWorkerMessage r m now p)).
Proof.
  intros Hok. unfold handleWorkerMessage.
  destruct (lookup_worker r p) as [pooled|] eqn:Hr; [|exact Hok].
  destruct (pendingTasks pooled !! id m) as [task|] eqn:Htask; [|exact Hok].
  cbn [fst]. unfold processQueue. apply processQueue_loop_ok; [reflexivity|].
  match goal with
  | |- pool_ok (match type m with t_error => set_promises ?a ?x
                | t_result => set_promises ?b _ | _ => _ end) =>
      assert (pool_ok x) as Hx; [|destruct (type m); try exact Hx;
        (apply (pool_ok_same x); try reflexivity;
         [apply (po_total x Hx)|exact Hx])]
  end.
  destruct Hok as [H1 H2 H3 H4 H5 H6 H7 H8 H9].
  destruct r as [i|i]; pool_simpl.
  - pose proof (lookup_lt_Some _ _ _ Hr) as Hlt.
    assert (forall j tid,
              pending_on (set_workers (<[i := completed m pooled]> (workers p)) p) j tid ->
              pending_on p j tid) as Hback.
    { intros j tid (w & Hj & Hsome). pool_simpl.
      destruct (decide (j = i)) as [->|Hne].
      - rewrite list_lookup_insert_eq in Hj by exact Hlt. injection Hj as <-.
        exists pooled. split; [exact Hr|]. unfold completed in Hsome.
        cbn [pendingTasks] in Hsome. apply lookup_delete_is_Some in Hsome as [_ H].
        exact H.
      - rewrite list_lookup_insert_ne in Hj by congruence. exists w. auto. }
    split; unfold queued_ids in *; pool_simpl; try assumption.
    + reflexivity.
    + intros j w Hj. destruct (decide (j = i)) as [->|Hne].
      * rewrite list_lookup_insert_eq in Hj by exact Hlt. injection Hj as <-.
        reflexivity.
      * rewrite list_lookup_insert_ne in Hj by congruence. eauto.
    + lia.
    + intros j tid Hp. apply (H5 j tid). apply Hback. exact Hp.
    + intros j j' tid Hp Hp'. apply (H7 j j' tid); apply Hback; assumption.
    + intros j tid Hp. apply (H8 j tid). apply Hback. exact Hp.
  - split; unfold pending_on, queued_ids in *; pool_simpl; try assumption.
    + reflexivity.
    + lia.
Qed.

Lemma handleWorkerError_ok r e p : pool_ok p -> pool_ok (handleWorkerError r e p).
Proof.
  intros Hok. unfold handleWorkerError.
  destruct (lookup_worker r p) as [pooled|] eqn:Hr; [|exact Hok].
  destruct Hok as [H1 H2 H3 H4 H5 H6 H7 H8 H9].
  destruct r as [i|i]; pool_simpl.
  - pose proof (lookup_lt_Some _ _ _ Hr) as Hlt.
    assert (forall j tid,
              pending_on (set_workers
                            (<[i := {| worker := worker pooled; busy := false;
                                       taskCount := taskCount pooled;
                                       pendingTasks := ∅ |}]> (workers p)) p) j tid ->
              pending_on p j tid) as Hback.
    { intros j tid (w & Hj & Hsome). pool_simpl.
      destruct (decide (j = i)) as [->|Hne].
      - rewrite list_lookup_insert_eq in Hj by exact Hlt. injection Hj as <-.
        simpl in Hsome. rewrite lookup_empty in Hsome. destruct Hsome; discriminate.
      - rewrite list_lookup_insert_ne in Hj by congruence. exists w. auto. }
    split; unfold queued_ids in *; pool_simpl; try assumption.
    + reflexivity.
    + intros j w Hj. destruct (decide (j = i)) as [->|Hne].
      * rewrite list_lookup_insert_eq in Hj by exact Hlt. injection Hj as <-.
        reflexivity.
      * rewrite list_lookup_insert_ne in Hj by congruence. eauto.
    + intros j tid Hp. apply (H5 j tid). apply Hback. exact Hp.
    + intros j j' tid Hp Hp'. apply (H7 j j' tid); apply Hback; assumption.
    + intros j tid Hp. apply (H8 j tid). apply Hback. exact Hp.
  - split; unfold pending_on, queued_ids in *; pool_simpl; try assumption.
    reflexivity.
Qed.

Lemma terminate_ok p : pool_ok p -> pool_ok (terminate p).
Proof.
  intros Hok. pose proof (po_total p Hok) as Ht.
  split; unfold pending_on, queued_ids, terminate; pool_simpl.
  - reflexivity.
  - reflexivity.
  - intros i w H. discriminate H.
  - exact Ht.
  - intros i tid (w & H & _). discriminate H.
  - intros tid H. apply elem_of_nil in H. contradiction.
  - intros i j tid (w & H & _). discriminate H.
  - intros i tid (w & H & _). discriminate H.
  - constructor.
Qed.

Lemma new_pool_ok : pool_ok new_pool.
Proof.
  split; unfold pending_on, queued_ids; simpl; try reflexivity; try lia.
  - intros i w H. discriminate H.
  - intros i tid (w & H & _). discriminate H.
  - intros tid H. apply elem_of_nil in H. contradiction.
  - intros i j tid (w & H & _). discriminate H.
  - intros i tid (w & H & _). discriminate H.
  - constructor.
Qed.

Lemma happen_ok p ev : pool_ok p -> pool_ok (happen p ev).
Proof.
  intros Hok. destruct ev; cbn [happen].
  - unfold init_begin. destruct isBrowser; [|exact Hok]. cbn [negb].
    destruct (initialized p); [exact Hok|].
    pose proof (init_workers_ok wasmPath now now_ms workerCount p Hok) as H.
    destruct (init_workers workerCount wasmPath now now_ms p) as [awaited p'].
    exact H.
  - unfold init_finish. destruct (forallb _ _); [|exact Hok].
    apply (pool_ok_same p); try reflexivity; [apply (po_total p Hok)|exact Hok].
  - exact (compute_ok (sub_operation r) (sub_args r) (sub_buffers r) (sub_now r)
             (sub_now_ms r) p Hok).
  - unfold parallelMap_begin. apply parallelMap_calls_ok. exact Hok.
  - apply handleWorkerMessage_ok. exact Hok.
  - apply handleWorkerError_ok. exact Hok.
  - apply terminate_ok. exact Hok.
Qed.

Lemma pool_reachable_ok p : pool_reachable p -> pool_ok p.
Proof.
  induction 1 as [|p ev _ IH]; [apply new_pool_ok|apply happen_ok; exact IH].
Qed.

End PoolRun.

Section PoolCounters.
Import WorkerPool.

Lemma busy_count_loaded (ws : list PooledWorker) :
  (forall i w, ws !! i = Some w -> busy w = (0 <? load w)%nat) ->
  filter (fun w => busy w = true) ws = filter (fun w => (0 < load w)%nat) ws.
Proof.
  induction ws as [|w ws IH]; intros Hb; [reflexivity|].
  rewrite !filter_cons.
  pose proof (Hb 0%nat w eq_refl) as Hw.
  rewrite IH by (intros i w' Hi; exact (Hb (S i) w' Hi)).
  destruct (Nat.ltb_spec 0 (load w)) as [Hlt|Hge].
  - rewrite decide_True by exact Hw. rewrite decide_True by exact Hlt. reflexivity.
  - rewrite decide_False by (rewrite Hw; discriminate).
    rewrite decide_False by lia. reflexivity.
Qed.

(** X24.  In every state the pool reaches, [getStats()] reports
    as [queuedTasks] the length of the queue and as [activeWorkers] the
    number of workers with at least one pending request, which is at most
    [workerCount]; [totalCompleted] is not negative. *)
Theorem pool_getStats_consistent (p : WasmWorkerPool) :
  pool_reachable p ->
  PoolStats.queuedTasks (getStats p) = Z.of_nat (length (taskQueue p))
  /\ PoolStats.activeWorkers (getStats p)
     = Z.of_nat (length (filter (fun w => (0 < load w)%nat) (workers p)))
  /\ 0 <= PoolStats.activeWorkers (getStats p) <= PoolStats.workerCount (getStats p)
  /\ 0 <= PoolStats.totalCompleted (getStats p).
Proof.
  intros Hr. destruct (pool_reachable_ok p Hr) as [H1 H2 H3 H4 _ _ _ _ _].
  cbn [getStats PoolStats.queuedTasks PoolStats.activeWorkers
       PoolStats.workerCount PoolStats.totalCompleted].
  split; [exact H1|]. split; [rewrite H2, (busy_count_loaded _ H3); reflexivity|].
  split; [|exact H4]. rewrite H2.
  pose proof (busy_count_le (workers p)). lia.
Qed.

(** X25.  In every state the pool reaches no two requests share an id:
    a request id is pending on at most one worker of the pool, a pending
    id is not queued, the queued ids are pairwise different, and the
    counter part of every pending or queued id is at most [taskIdCounter],
    so that the next generated id is new. *)
Theorem request_ids_unique (p : WasmWorkerPool) :
  pool_reachable p ->
  (forall i j tid, pending_on p i tid -> pending_on p j tid -> i = j)
  /\ (forall i tid, pending_on p i tid -> tid ∉ queued_ids p)
  /\ NoDup (queued_ids p)
  /\ (forall i tid, pending_on p i tid -> fst tid <= taskIdCounter p)
  /\ (forall tid, tid ∈ queued_ids p -> fst tid <= taskIdCounter p).
Proof.
  intros Hr. destruct (pool_reachable_ok p Hr) as [_ _ _ _ H5 H6 H7 H8 H9].
  split; [exact H7|]. split; [exact H8|]. split; [exact H9|].
  split; [exact H5|exact H6].
Qed.

End PoolCounters.

Section Replies.
Import WorkerPool.

Lemma sent_absent m k now w tid :
  id m <> tid -> pendingTasks w !! tid = None ->
  pendingTasks (sent m k now w) !! tid = None /\ taskCount (sent m k now w) = taskCount w.
Proof.
  intros Hne H. unfold sent. cbn [pendingTasks taskCount].
  rewrite lookup_insert_ne by exact Hne. auto.
Qed.

(** What the loop of [processQueue] leaves alone. *)
Lemma processQueue_loop_frame now : forall queue p,
  taskQueue p = queue ->
  let p' := processQueue_loop queue now p in
  _totalTasksCompleted p' = _totalTasksCompleted p
  /\ (forall k pr, promises p !! k = Some pr -> promises p' !! k = Some pr)
  /\ (forall j w tid,
        workers p !! j = Some w -> pendingTasks w !! tid = None ->
        Forall (fun q => id (message q) <> tid) queue ->
        exists w', workers p' !! j = Some w' /\ pendingTasks w' !! tid = None
                   /\ taskCount w' = taskCount w).
Proof.
  induction queue as [|q rest IH]; intros p Hq p'.
  - unfold p'. simpl. split; [reflexivity|]. split; [auto|]. eauto.
  - unfold p'. cbn [processQueue_loop].
    destruct (getAvailableWorker p) as [i|] eqn:Hav;
      [|split; [reflexivity|]; split; [auto|]; eauto].
    destruct (getAvailableWorker_in_range p i Hav) as [w Hw].
    set (p1 := set_taskQueue rest (Z.of_nat (length rest)) p).
    destruct (sendToWorker_in_pool i (message q) now p1 w Hw)
      as (p2 & Hsend & Hws & Hps & Htq & Hqt & Hinit & Hctr & _ & Htot).
    rewrite Hsend.
    set (p3 := set_promises (chain _ _ (promises p2)) p2).
    assert (taskQueue p3 = rest) as Hq3 by (change (taskQueue p3) with (taskQueue p2);
                                            rewrite Htq; reflexivity).
    destruct (IH p3 Hq3) as (Ht & Hold & Habs).
    split; [rewrite Ht; change (_totalTasksCompleted p3) with (_totalTasksCompleted p2);
            rewrite Htot; reflexivity|].
    split.
    + intros k pr Hk. apply Hold.
      change (promises p3)
        with (chain (length (promises p1)) (queued_promise q) (promises p2)).
      rewrite Hps. change (promises p1) with (promises p).
      rewrite chain_old by (apply lookup_lt_Some in Hk; exact Hk). exact Hk.
    + intros j w0 tid Hj Hnone Hall. apply Forall_cons in Hall as [Hq0 Hall].
      assert (workers p3 = <[i := sent (message q) (length (promises p1)) now w]> (workers p))
        as Hws3 by exact Hws.
      destruct (decide (j = i)) as [->|Hne].
      * assert (w0 = w) as -> by congruence.
        destruct (sent_absent (message q) (length (promises p1)) now w tid Hq0 Hnone)
          as [Hn1 Hc1].
        destruct (Habs i _ tid ltac:(rewrite Hws3; apply list_lookup_insert_eq;
                                     apply lookup_lt_Some in Hw; exact Hw) Hn1 Hall)
          as (w' & Hw' & Hn' & Hc').
        exists w'. split; [exact Hw'|]. split; [exact Hn'|]. congruence.
      * apply (Habs j w0 tid); [|exact Hnone|exact Hall].
        rewrite Hws3, list_lookup_insert_ne by congruence. exact Hj.
Qed.

Lemma handleWorkerMessage_total i m now p w task :
  workers p !! i = Some w -> pendingTasks w !! id m = Some task ->
  _totalTasksCompleted (fst (handleWorkerMessage (in_pool i) m now p))
  = _totalTasksCompleted p + 1.
Proof.
  intros Hw Htask. unfold handleWorkerMessage. cbn [lookup_worker].
  rewrite Hw, Htask. cbn [fst].
  match goal with
  | |- _totalTasksCompleted (processQueue now ?x) = _ =>
      destruct (processQueue_loop_frame now (taskQueue x) x eq_refl) as (Ht & _ & _);
      unfold processQueue; rewrite Ht
  end.
  destruct (type m); reflexivity.
Qed.

Lemma pending_not_queued p i w tid :
  pool_reachable p -> workers p !! i = Some w -> is_Some (pendingTasks w !! tid) ->
  Forall (fun q => id (message q) <> tid) (taskQueue p).
Proof.
  intros Hr Hw Htid. apply Forall_forall. intros q Hq Heq.
  apply (po_either p (pool_reachable_ok p Hr) i tid); [exists w; auto|].
  unfold queued_ids. rewrite <- Heq.
  apply (list_elem_of_fmap_2 (fun q => id (message q))). exact Hq.
Qed.

(** X26.  In a state the pool reaches, a message for a request pending
    on a worker of the pool adds one to the number of completed tasks and
    to the task count of that worker, and removes the request from the
    worker; a second message with the same id is then dropped with the
    unknown-task warning and changes nothing. *)
Theorem reply_counted_once (p : WasmWorkerPool) (i : nat) (w : PooledWorker)
  (m : WasmWorkerMessage) (task : WorkerTask) (now : float) :
  pool_reachable p ->
  workers p !! i = Some w -> pendingTasks w !! id m = Some task ->
  let p1 := fst (handleWorkerMessage (in_pool i) m now p) in
  _totalTasksCompleted p1 = _totalTasksCompleted p + 1
  /\ (exists w1, workers p1 !! i = Some w1 /\ pendingTasks w1 !! id m = None
                 /\ taskCount w1 = taskCount w + 1)
  /\ forall m' now', id m' = id m ->
       handleWorkerMessage (in_pool i) m' now' p1 = (p1, true).
Proof.
  intros Hr Hw Htask p1.
  pose proof (pending_not_queued p i w (id m) Hr Hw ltac:(eauto)) as Hq.
  split; [exact (handleWorkerMessage_total i m now p w task Hw Htask)|].
  destruct (handleWorkerMessage_known i m now p w task Hw Htask)
    as (p' & Hrun & Hws & _ & Htq & _).
  assert (exists w1, workers p1 !! i = Some w1 /\ pendingTasks w1 !! id m = None
                     /\ taskCount w1 = taskCount w + 1) as (w1 & Hw1 & Hn1 & Hc1).
  { unfold p1. rewrite Hrun. cbn [fst]. unfold processQueue.
    destruct (processQueue_loop_frame now (taskQueue p') p' eq_refl) as (_ & _ & Habs).
    destruct (Habs i (completed m w) (id m)) as (w1 & Hw1 & Hn1 & Hc1).
    - rewrite Hws. apply list_lookup_insert_eq. apply lookup_lt_Some in Hw. exact Hw.
    - unfold completed. cbn [pendingTasks]. apply lookup_delete_eq.
    - rewrite Htq. exact Hq.
    - exists w1. split; [exact Hw1|]. split; [exact Hn1|]. exact Hc1. }
  split; [eauto|].
  intros m' now' Hid. unfold handleWorkerMessage. cbn [lookup_worker].
  rewrite Hw1, Hid, Hn1. reflexivity.
Qed.

(** X27.  In a state the pool reaches, a message for a pending
    request whose type is neither [result] nor [error] settles no promise
    (every promise keeps its state, that of the request included), yet
    the request is counted as completed and is no longer pending on the
    worker: a later message with its id, a [result] included, is dropped
    with the unknown-task warning. *)
Theorem other_reply_settles_nothing (p : WasmWorkerPool) (i : nat)
  (w : PooledWorker) (m : WasmWorkerMessage) (task : WorkerTask) (now : float) :
  pool_reachable p ->
  workers p !! i = Some w -> pendingTasks w !! id m = Some task ->
  type m <> t_result -> type m <> t_error ->
  let p1 := fst (handleWorkerMessage (in_pool i) m now p) in
  (forall k pr, promises p !! k = Some pr -> promises p1 !! k = Some pr)
  /\ _totalTasksCompleted p1 = _totalTasksCompleted p + 1
  /\ (exists w1, workers p1 !! i = Some w1 /\ pendingTasks w1 !! id m = None)
  /\ forall m' now', id m' = id m ->
       handleWorkerMessage (in_pool i) m' now' p1 = (p1, true).
Proof.
  intros Hr Hw Htask Hres Herr p1.
  pose proof (pending_not_queued p i w (id m) Hr Hw ltac:(eauto)) as Hq.
  destruct (handleWorkerMessage_known i m now p w task Hw Htask)
    as (p' & Hrun & Hws & Hps & Htq & _).
  assert (promises p' = promises p) as Hps'.
  { rewrite Hps. unfold verdict. destruct (type m); try reflexivity; contradiction. }
  destruct (processQueue_loop_frame now (taskQueue p') p' eq_refl) as (_ & Hold & Habs).
  assert (exists w1, workers p1 !! i = Some w1 /\ pendingTasks w1 !! id m = None)
    as (w1 & Hw1 & Hn1).
  { unfold p1. rewrite Hrun. cbn [fst]. unfold processQueue.
    destruct (Habs i (completed m w) (id m)) as (w1 & Hw1 & Hn1 & _).
    - rewrite Hws. apply list_lookup_insert_eq. apply lookup_lt_Some in Hw. exact Hw.
    - unfold completed. cbn [pendingTasks]. apply lookup_delete_eq.
    - rewrite Htq. exact Hq.
    - eauto. }
  split; [|split; [|split]].
  - intros k pr Hk. unfold p1. rewrite Hrun. cbn [fst]. unfold processQueue.
    apply Hold. rewrite Hps'. exact Hk.
  - exact (handleWorkerMessage_total i m now p w task Hw Htask).
  - eauto.
  - intros m' now' Hid. unfold handleWorkerMessage. cbn [lookup_worker].
    rewrite Hw1, Hid, Hn1. reflexivity.
Qed.

End Replies.

Section ParallelMap.
Import WorkerPool.






End ParallelMap.

Section Requests.
Import WorkerPool.

(** X29.  [compute] on an initialised pool returns a new pending
    promise and uses the next counter value for the id.  Either some
    worker has fewer than ten pending requests: then the request is sent
    to the first of the workers with the fewest pending requests, and the
    queue is left as it is, also when it is not empty.  Or every worker
    has at least ten: then the workers are left as they are and the
    request is appended to the queue. *)
Theorem compute_places_request (r : Submission) (p : WasmWorkerPool) :
  initialized p = true ->
  let k := fst (submit r p) in
  let p' := snd (submit r p) in
  k = length (promises p)
  /\ promises p' = promises p ++ [fresh_promise]
  /\ taskIdCounter p' = taskIdCounter p + 1
  /\ ((exists i c w,
         first_least (workers p) i c /\ (c < 10)%nat /\ workers p !! i = Some w
         /\ workers p'
            = <[i := sent (request_message r p) k (sub_now_ms r) w]> (workers p)
         /\ taskQueue p' = taskQueue p)
      \/ ((forall j w, workers p !! j = Some w -> (10 <= load w)%nat)
          /\ workers p' = workers p
          /\ taskQueue p'
             = taskQueue p ++ [{| message := request_message r p;
                                  queued_promise := k |}])).
Proof.
  intros Hinit k p'. pose proof (getAvailableWorker_spec p) as Hspec.
  destruct (getAvailableWorker p) as [i|] eqn:Hav.
  - destruct Hspec as (c & Hfirst & Hlt).
    destruct (getAvailableWorker_in_range p i Hav) as [w Hw].
    destruct (submit_dispatch r p i w Hinit Hav Hw)
      as (p1 & Hrun & Hws & Hps & Htq & _ & Hctr).
    unfold k, p'. rewrite Hrun. cbn [fst snd].
    split; [reflexivity|]. split; [exact Hps|]. split; [exact Hctr|].
    left. exists i, c, w. auto.
  - destruct (submit_queue r p Hinit Hav) as (p1 & Hrun & Hws & Hps & Htq & _ & Hctr & _).
    unfold k, p'. rewrite Hrun. cbn [fst snd].
    split; [reflexivity|]. split; [exact Hps|]. split; [exact Hctr|].
    right. auto.
Qed.

Lemma init_workers_spec wasmPath now now_ms : forall count p,
  let r := init_workers count wasmPath now now_ms p in
  length (fst r) = count
  /\ length (workers (snd r)) = (length (workers p) + count)%nat
  /\ initialized (snd r) = initialized p
  /\ taskIdCounter (snd r) = taskIdCounter p + Z.of_nat count
  /\ taskQueue (snd r) = taskQueue p
  /\ (forall j w, workers p !! j = Some w -> workers (snd r) !! j = Some w)
  /\ (forall j w, workers (snd r) !! j = Some w -> (length (workers p) <= j)%nat ->
        busy w = true /\ terminated (worker w) = false
        /\ exists tid task,
             pendingTasks w = {[tid := task]}
             /\ fst tid = taskIdCounter p + Z.of_nat (j - length (workers p)) + 1
             /\ snd tid = now
             /\ posted (worker w)
                = [{| type := t_init; id := tid; payload := Some wasmPath;
                      operation := None; args := []; transferBuffers := None;
                      result := None; executionTimeMs := 0%float |}]).
Proof.
  induction count as [|count IH]; intros p r.
  - unfold r. simpl. split; [reflexivity|]. split; [lia|]. split; [reflexivity|].
    split; [lia|]. split; [reflexivity|]. split; [auto|].
    intros j w Hj Hle. apply lookup_lt_Some in Hj. lia.
  - unfold r. cbn [init_workers generateTaskId].
    set (fresh := {| worker := {| terminated := false; posted := [] |};
                     busy := false; taskCount := 0; pendingTasks := ∅ |}).
    set (p2 := set_taskIdCounter _ _).
    set (m := {| type := t_init; id := (_, now) |}).
    assert (workers p2 !! length (workers p) = Some fresh) as Hw
        by (apply list_lookup_middle; reflexivity).
    destruct (sendToWorker_in_pool _ m now_ms p2 fresh Hw)
      as (p3 & Hsend & Hws & _ & Htq & _ & Hinit & Hctr & _).
    rewrite Hsend.
    assert (workers p3 = workers p ++ [sent m (length (promises p2)) now_ms fresh])
      as Hws3.
    { rewrite Hws. change (workers p2) with (workers p ++ [fresh]).
      rewrite insert_app_r_alt by lia. rewrite Nat.sub_diag. reflexivity. }
    specialize (IH p3). cbv zeta in IH.
    destruct (init_workers count wasmPath now now_ms p3) as [ks p4].
    cbn [fst snd] in *.
    destruct IH as (H1 & H2 & H3 & H4 & H5 & H6 & H7).
    split; [simpl; lia|]. split.
    { rewrite H2, Hws3, length_app. simpl. lia. }
    split; [rewrite H3, Hinit; reflexivity|].
    split; [rewrite H4, Hctr; unfold p2; simpl; lia|].
    split; [rewrite H5, Htq; reflexivity|].
    split.
    { intros j w Hj. apply H6. rewrite Hws3. apply lookup_app_l_Some. exact Hj. }
    intros j w Hj Hle.
    destruct (decide (j = length (workers p))) as [->|Hne].
    + assert (workers p3 !! length (workers p)
              = Some (sent m (length (promises p2)) now_ms fresh)) as Hnew
          by (rewrite Hws3; apply list_lookup_middle; reflexivity).
      rewrite (H6 _ _ Hnew) in Hj. injection Hj as <-.
      unfold sent. cbn [busy worker pendingTasks].
      change (pendingTasks fresh) with (∅ : gmap TaskId WorkerTask).
      rewrite insert_empty, map_size_singleton.
      split; [reflexivity|]. split; [reflexivity|].
      exists (id m), {| task_id := id m; promise := length (promises p2);
                        startTime := now_ms |}.
      split; [reflexivity|]. split; [simpl; rewrite Nat.sub_diag; lia|].
      split; reflexivity.
    + destruct (H7 j w Hj) as (Hb & Ht & tid & task & Hp & Hf & Hs & Hposted).
      { rewrite Hws3, length_app. simpl. lia. }
      split; [exact Hb|]. split; [exact Ht|]. exists tid, task.
      split; [exact Hp|]. split; [|split; assumption].
      rewrite Hf, Hctr, Hws3, length_app. unfold p2. simpl. lia.
Qed.

(** X30.  [init(workerCount)] up to its [await].  On a platform that is
    not a browser, and on a pool that is initialised, it returns at once:
    nothing is awaited and the pool is left as it is (on a server the
    pool so stays without workers and not initialised).  In a browser,
    on a pool that is not initialised, it awaits [workerCount] promises
    and adds [workerCount] workers behind those the pool already has,
    which it leaves as they are (so a second call before the first
    completes doubles the workers); each new worker is busy with exactly
    one pending request, the [init] message posted to it, whose ids
    carry consecutive counter values.  The pool stays not initialised and
    the queue unchanged. *)
Theorem init_adds_workers (isBrowser : bool) (workerCount : nat)
  (wasmPath : string) (now : Z) (now_ms : float) (p : WasmWorkerPool) :
  let r := init_begin isBrowser workerCount wasmPath now now_ms p in
  (isBrowser = false \/ initialized p = true -> r = (None, p))
  /\ (isBrowser = true -> initialized p = false ->
      (exists awaited, fst r = Some awaited /\ length awaited = workerCount)
      /\ length (workers (snd r)) = (length (workers p) + workerCount)%nat
      /\ initialized (snd r) = false
      /\ taskQueue (snd r) = taskQueue p
      /\ (forall j w, workers p !! j = Some w -> workers (snd r) !! j = Some w)
      /\ (forall j w,
            workers (snd r) !! j = Some w -> (length (workers p) <= j)%nat ->
            busy w = true /\ terminated (worker w) = false
            /\ exists tid task,
                 pendingTasks w = {[tid := task]}
                 /\ fst tid
                    = taskIdCounter p + Z.of_nat (j - length (workers p)) + 1
                 /\ snd tid = now
                 /\ posted (worker w)
                    = [{| type := t_init; id := tid; payload := Some wasmPath;
                          operation := None; args := [];
                          transferBuffers := None; result := None;
                          executionTimeMs := 0%float |}])).
Proof.
  intros r. unfold r, init_begin. split.
  - intros [->| ->]; [reflexivity|]. destruct isBrowser; reflexivity.
  - intros -> Hinit. cbn [negb]. rewrite Hinit.
    destruct (init_workers_spec wasmPath now now_ms workerCount p)
      as (H1 & H2 & H3 & _ & H5 & H6 & H7).
    destruct (init_workers workerCount wasmPath now now_ms p) as [awaited p'].
    cbn [fst snd] in *.
    split; [exists awaited; auto|]. split; [exact H2|].
    split; [rewrite H3; exact Hinit|].
    split; [exact H5|]. split; [exact H6|exact H7].
Qed.

End Requests.

Section PoolExamples.
Import WorkerPool.

Lemma reply_inits_reachable now : forall count i p,
  pool_reachable p -> pool_reachable (reply_inits count i now p).
Proof.
  induction count as [|count IH]; intros i p Hr; [exact Hr|].
  cbn [reply_inits]. apply IH.
  exact (pool_next p (MessageReceived (in_pool i) (init_reply (Z.of_nat (S i), now))
                        1%float) Hr).
Qed.

Lemma ready_pool_reachable W : pool_reachable (ready_pool W).
Proof.
  unfold ready_pool.
  pose proof (pool_next new_pool
                (InitCalled true W "/wasm/computation.wasm" 1000 0%float) pool_new)
    as H.
  cbn [happen] in H.
  destruct (init_begin true W "/wasm/computation.wasm" 1000 0%float new_pool)
    as [[awaited|] p]; cbn [snd] in H; [|exact H].
  exact (pool_next _ (InitResumed awaited) (reply_inits_reachable 1000 W 0 p H)).
Qed.

Lemma submit_all_reachable : forall rs p,
  pool_reachable p -> pool_reachable (snd (submit_all rs p)).
Proof.
  induction rs as [|r rs IH]; intros p Hr; [exact Hr|].
  cbn [submit_all].
  pose proof (pool_next p (ComputeCalled r) Hr) as H. cbn [happen] in H.
  destruct (submit r p) as [k p1]. cbn [snd] in H.
  specialize (IH p1 H). destruct (submit_all rs p1) as [ks p2]. exact IH.
Qed.

Lemma happen_compute r p : happen p (ComputeCalled r) = snd (submit r p).
Proof. reflexivity. Qed.

Lemma saturated_reachable : pool_reachable saturated.
Proof.
  unfold saturated. rewrite <- happen_compute.
  apply pool_next, submit_all_reachable, ready_pool_reachable.
Qed.

(** The first worker of [saturated] and its request [(2, 2000)]. *)
Lemma saturated_first :
  exists w task, workers saturated !! 0%nat = Some w
                 /\ pendingTasks w !! (2, 2000) = Some task
                 /\ promise task = 1%nat /\ taskCount w = 1.
Proof.
  assert (match workers saturated !! 0%nat with
          | Some w => match pendingTasks w !! (2, 2000) with
                      | Some task => (promise task =? 1)%nat && (taskCount w =? 1)
                      | None => false
                      end
          | None => false
          end = true) as H by (vm_compute; reflexivity).
  destruct (workers saturated !! 0%nat) as [w|]; [|discriminate H].
  destruct (pendingTasks w !! (2, 2000)) as [task|] eqn:Ht; [|discriminate H].
  apply andb_true_iff in H as [H1 H2].
  exists w, task. split; [reflexivity|]. split; [exact Ht|].
  split; [apply Nat.eqb_eq; exact H1|apply Z.eqb_eq; exact H2].
Qed.

Lemma handleWorkerError_rejects_pending_witness :
  state <$> promises (handleWorkerError (in_pool 0) (PlainError "boom") saturated)
              !! 1%nat
  = Some (Rejected (PlainError "boom"))
  /\ taskQueue (handleWorkerError (in_pool 0) (PlainError "boom") saturated)
     = taskQueue saturated.
Proof.
  destruct saturated_first as (w & task & Hw & Htask & Hk & _).
  destruct (handleWorkerError_rejects_pending saturated 0 w (PlainError "boom") Hw)
    as (_ & Hq & _ & _ & Hall).
  split; [|exact Hq].
  assert (promises saturated !! 1%nat = Some fresh_promise) as Hpr
      by (vm_compute; reflexivity).
  rewrite <- Hk in Hpr.
  destruct (Hall _ _ _ Htask Hpr) as (pr' & Hk' & Hst).
  rewrite <- Hk, Hk'. simpl. rewrite Hst. reflexivity.
Defined.

Lemma reply_counted_once_witness :
  _totalTasksCompleted
    (fst (handleWorkerMessage (in_pool 0) (answer (2, 2000)) 3%float saturated)) = 2
  /\ snd (handleWorkerMessage (in_pool 0) (answer (2, 2000)) 4%float
            (fst (handleWorkerMessage (in_pool 0) (answer (2, 2000)) 3%float
                    saturated))) = true.
Proof.
  destruct saturated_first as (w & task & Hw & Htask & _ & _).
  destruct (reply_counted_once saturated 0 w (answer (2, 2000)) task 3%float
              saturated_reachable Hw Htask) as (Ht & _ & Hagain).
  split.
  - rewrite Ht. vm_compute. reflexivity.
  - rewrite (Hagain (answer (2, 2000)) 4%float eq_refl). reflexivity.
Defined.

(** A reply of type [compute] to the request [(2, 2000)]. *)
Lemma other_reply_settles_nothing_witness :
  let echo := {| type := t_compute; id := (2, 2000); payload := None;
                 operation := None; args := []; transferBuffers := None;
                 result := None; executionTimeMs := 0%float |} in
  state <$> promises (fst (handleWorkerMessage (in_pool 0) echo 3%float saturated))
              !! 1%nat = Some Pending
  /\ _totalTasksCompleted
       (fst (handleWorkerMessage (in_pool 0) echo 3%float saturated)) = 2.
Proof.
  intros echo.
  destruct saturated_first as (w & task & Hw & Htask & _ & _).
  destruct (other_reply_settles_nothing saturated 0 w echo task 3%float
              saturated_reachable Hw Htask ltac:(discriminate) ltac:(discriminate))
    as (Hkeep & Ht & _).
  split.
  - rewrite (Hkeep 1%nat fresh_promise ltac:(vm_compute; reflexivity)). reflexivity.
  - rewrite Ht. vm_compute. reflexivity.
Defined.

Lemma pool_getStats_consistent_witness :
  PoolStats.queuedTasks (getStats saturated) = 1
  /\ PoolStats.activeWorkers (getStats saturated) = 1
  /\ PoolStats.workerCount (getStats saturated) = 1.
Proof.
  destruct (pool_getStats_consistent saturated saturated_reachable)
    as (Hq & _ & _ & _).
  split; [rewrite Hq; vm_compute; reflexivity|].
  split; vm_compute; reflexivity.
Defined.

Lemma request_ids_unique_witness :
  queued_ids saturated = [(12, 2000)]
  /\ forall i, ~ pending_on saturated i (12, 2000).
Proof.
  destruct (request_ids_unique saturated saturated_reachable) as (_ & H & _).
  assert (queued_ids saturated = [(12, 2000)]) as Hq by (vm_compute; reflexivity).
  split; [exact Hq|].
  intros i Hp. apply (H i _ Hp). rewrite Hq. apply list_elem_of_singleton. reflexivity.
Defined.

Lemma compute_places_request_witness :
  map load (workers (snd (submit mean_request (ready_pool 2)))) = [1; 0]%nat
  /\ taskIdCounter (snd (submit mean_request (ready_pool 2))) = 3.
Proof.
  destruct (compute_places_request mean_request (ready_pool 2)
              ltac:(vm_compute; reflexivity)) as (_ & _ & Hc & _).
  split; [vm_compute; reflexivity|].
  rewrite Hc. vm_compute. reflexivity.
Defined.

(** Two calls in a browser before either completes, and one call on a
    server. *)
Lemma init_adds_workers_witness :
  length (workers (snd (init_begin true 4 "/wasm/computation.wasm" 1000 0%float
                          new_pool))) = 4%nat
  /\ length (workers (snd (init_begin true 4 "/wasm/computation.wasm" 1001
                             1%float
                             (snd (init_begin true 4 "/wasm/computation.wasm"
                                     1000 0%float new_pool))))) = 8%nat
  /\ init_begin false 4 "/wasm/computation.wasm" 1000 0%float new_pool
     = (None, new_pool).
Proof.
  pose proof (proj2 (init_adds_workers true 4 "/wasm/computation.wasm" 1000
                       0%float new_pool) eq_refl eq_refl) as (_ & H1 & Hi & _).
  pose proof (proj2 (init_adds_workers true 4 "/wasm/computation.wasm" 1001
                       1%float _) eq_refl Hi) as (_ & H2 & _).
  split; [exact H1|]. split; [rewrite H2, H1; reflexivity|].
  exact (proj1 (init_adds_workers false 4 "/wasm/computation.wasm" 1000 0%float
                  new_pool) (or_introl eq_refl)).
Defined.

End PoolExamples.
